(** * FSE weight compressor of the converter's quantizer

    Shallow embedding of [tools/converter/quantizer/fse_encoder.cc]
    (namespace [mindspore::lite::quant]): frequency normalisation, the
    construction of the encoding tables, the encode loop and the serializer,
    followed by the properties established about them. *)

From Stdlib Require Import ZArith List Lia Bool QArith Qround Qabs Qpower Lqa Permutation Sorted.
Import ListNotations.
Open Scope Z_scope.

(** ** Machine integers

    Fixed-width integers are values of [Z]; every conversion of the source is
    written out as a reduction to the range of the target type. *)

Definition to_uint8 (x : Z) : Z := x mod 2 ^ 8.
Definition to_uint16 (x : Z) : Z := x mod 2 ^ 16.
Definition to_uint32 (x : Z) : Z := x mod 2 ^ 32.
Definition to_uint64 (x : Z) : Z := x mod 2 ^ 64.
(** [size_t] of the 64-bit targets the converter is built for. *)
Definition to_size_t (x : Z) : Z := to_uint64 x.
Definition to_int16 (x : Z) : Z := (x + 2 ^ 15) mod 2 ^ 16 - 2 ^ 15.
Definition to_int32 (x : Z) : Z := (x + 2 ^ 31) mod 2 ^ 32 - 2 ^ 31.

(** Arrays are lists; [update l i v] is the store [l[i] = v].  A store past
    the end of the list (undefined behaviour in the source) leaves it as it is. *)
Fixpoint update (l : list Z) (i : nat) (v : Z) : list Z :=
  match l, i with
  | [], _ => []
  | _ :: t, O => v :: t
  | h :: t, S j => h :: update t j v
  end.

(** [l[i]] for an index held in a C integer.  A read outside the array is
    undefined behaviour in the source; here a read past the end gives 0 and a
    read at a negative index gives [l[0]]. *)
Definition get (l : list Z) (i : Z) : Z := nth (Z.to_nat i) l 0.
Definition set (l : list Z) (i : Z) (v : Z) : list Z :=
  if i <? 0 then l else update l (Z.to_nat i) v.

(** Status codes of [include/errorcode.h] together with the value a call
    leaves behind; [OutOfFuel] marks a loop of the model that was cut off. *)
Inductive outcome (A : Type) : Type :=
| RET_OK (a : A)
| RET_ERROR
| OutOfFuel.
Arguments RET_OK {A} a.
Arguments RET_ERROR {A}.
Arguments OutOfFuel {A}.

(** ** binary32 arithmetic

    A finite [float] is a rational [m * 2^e] with [|m| < 2^24].  Each
    operation of the source returns the exact result rounded to the nearest
    such value, ties to even, one rounding per operation.  The exponent range
    is left out: the operands met in [NormalizeFrequency] are integers below
    [2^32] and quotients of them, far from the overflow and underflow
    thresholds. *)
Module Float32.
Open Scope Q_scope.

Definition prec : Z := 24.

(** For [x > 0] the integer [n] with [2^(n-1) <= x < 2^n]. *)
Definition mag (x : Q) : Z :=
  let l := (Z.log2 (Qnum x) - Z.log2 (Zpos (Qden x)))%Z in
  if Qle_bool (2 ^ l) x then (l + 1)%Z else l.

(** Round to the nearest integer, ties to even. *)
Definition rne (y : Q) : Z :=
  let f := Qfloor y in
  match Qcompare (y - inject_Z f) (1 # 2) with
  | Lt => f
  | Gt => (f + 1)%Z
  | Eq => if Z.even f then f else (f + 1)%Z
  end.

Definition round (x : Q) : Q :=
  if Qeq_bool x 0 then 0
  else let e := (mag (Qabs x) - prec)%Z in
       inject_Z (rne (x / 2 ^ e)) * 2 ^ e.

(** [static_cast<float>(n)] and the implicit integer-to-float conversions. *)
Definition of_Z (n : Z) : Q := round (inject_Z n).
Definition div (a b : Q) : Q := round (a / b).
Definition mul (a b : Q) : Q := round (a * b).
Definition add (a b : Q) : Q := round (a + b).
(** [floorf] followed by the conversion to an integer type. *)
Definition floorf (a : Q) : Z := Qfloor a.
Definition gt (a b : Q) : bool := negb (Qle_bool a b).

(** Half an ulp of binary32 relative to the value: [2^-24]. *)
Definition u : Q := 1 # 16777216.
End Float32.

(** ** FSEBitStream *)

(** Modelled from the spec: [FSEBitStream::CountBits] is declared in
    [fse_bit_stream.h], which is not among the sources; the spec gives it as
    the bit length of an unsigned integer, with 0 for 0. *)
Definition CountBits (x : Z) : Z := if x <=? 0 then 0 else Z.log2 x + 1.

(** ** FSEQuant

    [frequency] and [centroids] are the arrays of [size] entries of the
    source, [symbol_table] the [symbol_table_count] symbols to encode.  A
    centroid is kept as the 32-bit pattern of its [float]. *)
Record FSEQuant : Type := {
  symbol_table : list Z;
  frequency : list Z;
  centroids : list Z
}.

Definition size (q : FSEQuant) : Z := Z.of_nat (length (frequency q)).
Definition symbol_table_count (q : FSEQuant) : Z := Z.of_nat (length (symbol_table q)).

Definition kFseTableExtendSize : Z := 3.
Definition kFrenqTableExtendSize : Z := 2.
Definition kAlignSize : Z := 8.
Definition kUpRoundOffSet : Q := 1 # 2.
(** Modelled from the spec: [k16Bit] comes from a header that is not among
    the sources; the spec writes the shifts it stands for as [<< 16]. *)
Definition k16Bit : Z := 16.

(** ** GetMaxIndex

    [max] is a [float]: every [arr[i]] is converted to binary32 before the
    comparison and before it is stored.  [None] is [-INFINITY]. *)
Fixpoint GetMaxIndex_loop (arr : list Z) (i : Z) (max : option Q) (index : Z) : Z :=
  match arr with
  | [] => index
  | a :: rest =>
      let fa := Float32.of_Z a in
      let above := match max with None => true | Some m => Float32.gt fa m end in
      if above then GetMaxIndex_loop rest (i + 1) (Some fa) i
      else GetMaxIndex_loop rest (i + 1) max index
  end.

Definition GetMaxIndex (arr : list Z) : Z := GetMaxIndex_loop arr 0 None (-1).

(** ** NormalizeFrequency *)

Section Normalize.
(** The two limits of [fse_bit_stream.h], which is not among the sources. *)
Variables MAX_SYMS MAX_TABLE_LOG : Z.

Definition table_log_of (q : FSEQuant) : Z :=
  Z.min MAX_TABLE_LOG (CountBits (to_uint32 (size q)) + kFseTableExtendSize).

(** [curr_table_size += q->frequency[i]] on an [int] accumulator. *)
Definition sum_int (l : list Z) : Z :=
  fold_left (fun acc f => to_int32 (acc + f)) l 0.

(** [std::max(1, static_cast<int>(floorf(kUpRoundOffSet + rat * q->frequency[i])))],
    stored back into the [uint32_t] entry. *)
Definition rescale (rat : Q) (f : Z) : Z :=
  to_uint32
    (Z.max 1 (to_int32
       (Float32.floorf (Float32.add kUpRoundOffSet (Float32.mul rat (Float32.of_Z f)))))).

Definition normalize (rat : Q) (l : list Z) : list Z := map (rescale rat) l.

(** The [shrink] loop; one unit of fuel per iteration. *)
Fixpoint shrink (fuel : nat) (new_table_size : Z) (freq : list Z) (updated : Z)
  : outcome (list Z * Z) :=
  if updated >? new_table_size then
    match fuel with
    | O => OutOfFuel
    | S fuel' =>
        let max_ix := GetMaxIndex freq in
        if (max_ix <? 0) || (max_ix >? MAX_SYMS) then RET_ERROR
        else shrink fuel' new_table_size
               (set freq max_ix (to_uint32 (get freq max_ix - 1)))
               (to_int32 (updated - 1))
    end
  else RET_OK (freq, updated).

Definition grow (new_table_size : Z) (freq : list Z) (updated : Z) : outcome (list Z) :=
  if updated <? new_table_size then
    let max_ix := GetMaxIndex freq in
    if (max_ix <? 0) || (max_ix >=? MAX_SYMS) then RET_ERROR
    else RET_OK (set freq max_ix
                   (to_uint32 (get freq max_ix + (new_table_size - updated))))
  else RET_OK freq.

(** Returns the normalised table and [*table_log].  The shrink loop takes
    off one unit per iteration, so [updated - new] units of fuel cover it. *)
Definition NormalizeFrequency (q : FSEQuant) : outcome (FSEQuant * Z) :=
  let table_log := table_log_of q in
  let new_table_size := to_int32 (Z.shiftl 1 table_log) in
  let curr_table_size := sum_int (frequency q) in
  if curr_table_size =? 0 then RET_ERROR
  else
    let rat := Float32.div (Float32.of_Z new_table_size) (Float32.of_Z curr_table_size) in
    let freq := normalize rat (frequency q) in
    let updated := sum_int freq in
    match shrink (Z.to_nat (updated - new_table_size)) new_table_size freq updated with
    | RET_OK (freq', updated') =>
        match grow new_table_size freq' updated' with
        | RET_OK freq'' =>
            RET_OK ({| symbol_table := symbol_table q;
                       frequency := freq'';
                       centroids := centroids q |}, table_log)
        | RET_ERROR => RET_ERROR
        | OutOfFuel => OutOfFuel
        end
    | RET_ERROR => RET_ERROR
    | OutOfFuel => OutOfFuel
    end.
End Normalize.

(** ** FSECreateStatesForEncoding *)

(** [pos = (pos + step) & tablemask] on [size_t] operands. *)
Definition advance (step tablemask pos : Z) : Z :=
  Z.land (to_size_t (pos + step)) tablemask.

(** [while (pos > tablemask) pos = (pos + step) & tablemask;]
    One unit of fuel per execution of the body. *)
Fixpoint reapply (fuel : nat) (step tablemask pos : Z) : option Z :=
  if pos >? tablemask then
    match fuel with
    | O => None
    | S fuel' => reapply fuel' step tablemask (advance step tablemask pos)
    end
  else Some pos.

(** Fuel handed to the inner [while] of the spread loop. *)
Definition reapply_fuel : nat := 1.

(** State of the spread loop.  [sp_written] is a ghost field: the slots
    stored to so far, oldest first. *)
Record spread_state : Type := {
  sp_table : list Z;
  sp_pos : Z;
  sp_written : list Z
}.

(** The inner [for] of the spread loop: [n] occurrences of [sym]. *)
Fixpoint place (step tablemask sym : Z) (n : nat) (s : spread_state)
  : outcome spread_state :=
  match n with
  | O => RET_OK s
  | S n' =>
      let tbl := set (sp_table s) (sp_pos s) (to_uint16 sym) in
      match reapply reapply_fuel step tablemask (advance step tablemask (sp_pos s)) with
      | None => OutOfFuel
      | Some pos' =>
          place step tablemask sym n'
            {| sp_table := tbl; sp_pos := pos'; sp_written := sp_written s ++ [sp_pos s] |}
      end
  end.

(** The outer [for]: symbols in ascending order, starting at [sym]. *)
Fixpoint spread (step tablemask : Z) (freq : list Z) (sym : Z) (s : spread_state)
  : outcome spread_state :=
  match freq with
  | [] => RET_OK s
  | f :: rest =>
      match place step tablemask sym (Z.to_nat f) s with
      | RET_OK s' => spread step tablemask rest (sym + 1) s'
      | RET_ERROR => RET_ERROR
      | OutOfFuel => OutOfFuel
      end
  end.

(** [cfreqs]: the running sums [cfreqs[i] = cfreqs[i-1] + frequency[i-1]]
    followed by the extra slot [cfreqs[frequency_count] + 1]. *)
Fixpoint cumulate (acc : Z) (freq : list Z) : list Z :=
  match freq with
  | [] => [acc; to_uint32 (acc + 1)]
  | f :: rest => acc :: cumulate (to_uint32 (acc + f)) rest
  end.

(** One turn of the loop that fills [coding_table] from [symbol_table]. *)
Definition fill_coding (tablesize : Z) (symtable : list Z) (st : list Z * list Z) (i : nat)
  : list Z * list Z :=
  let '(coding, cfreqs) := st in
  let sym := get symtable (Z.of_nat i) in
  (set coding (get cfreqs sym) (to_uint16 (tablesize + Z.of_nat i)),
   set cfreqs sym (to_uint32 (get cfreqs sym + 1))).

(** The entry of [delta_bit_count] and of [delta_state] for one symbol, and
    the running [total] after it. *)
Definition delta_entry (table_log f total : Z) : Z * Z * Z :=
  if f >=? kFrenqTableExtendSize then
    let max_bits_out := to_int32 (table_log - CountBits (to_uint32 (f - 1))) in
    let min_state_plus := to_int32 (to_uint32 (Z.shiftl f max_bits_out)) in
    (to_uint32 (to_size_t (Z.shiftl (to_size_t max_bits_out) k16Bit) - to_size_t min_state_plus),
     to_int16 (total - to_int32 f),
     to_int32 (total + to_int32 f))
  else
    (to_uint32 (to_int32 (Z.shiftl table_log k16Bit) - to_int32 (Z.shiftl 1 table_log)),
     to_int16 (total - 1),
     to_int32 (total + 1)).

Fixpoint deltas (table_log : Z) (freq : list Z) (total : Z) : list Z * list Z :=
  match freq with
  | [] => ([], [])
  | f :: rest =>
      let '(dbc, ds, total') := delta_entry table_log f total in
      let '(dbcs, dss) := deltas table_log rest total' in
      (dbc :: dbcs, ds :: dss)
  end.

(** The four tables the function fills. *)
Record encoding_tables : Type := {
  delta_bit_count : list Z;
  delta_state : list Z;
  coding_table : list Z;
  symtable : list Z
}.

Definition tablesize_of (table_log : Z) : Z := to_size_t (to_int32 (Z.shiftl 1 table_log)).
Definition tablemask_of (table_log : Z) : Z := to_size_t (tablesize_of table_log - 1).
Definition step_of (table_log : Z) : Z :=
  let tablesize := tablesize_of table_log in
  to_size_t (Z.shiftr tablesize 1 + Z.shiftr tablesize kFseTableExtendSize + kFseTableExtendSize).

Definition spread_start (symbol_table0 : list Z) : spread_state :=
  {| sp_table := symbol_table0; sp_pos := 0; sp_written := [] |}.

(** [coding_table0] and [symbol_table0] are the arrays the caller passes in. *)
Definition FSECreateStatesForEncoding (frequency : list Z) (table_log : Z)
    (coding_table0 symbol_table0 : list Z) : outcome encoding_tables :=
  let tablesize := tablesize_of table_log in
  let tablemask := tablemask_of table_log in
  let step := step_of table_log in
  match spread step tablemask frequency 0 (spread_start symbol_table0) with
  | RET_OK s =>
      if negb (sp_pos s =? 0) then RET_ERROR
      else
        let '(coding, _) :=
          fold_left (fill_coding tablesize (sp_table s))
                    (seq 0 (Z.to_nat tablesize)) (coding_table0, cumulate 0 frequency) in
        let '(dbc, ds) := deltas table_log frequency 0 in
        RET_OK {| delta_bit_count := dbc; delta_state := ds;
                  coding_table := coding; symtable := sp_table s |}
  | RET_ERROR => RET_ERROR
  | OutOfFuel => OutOfFuel
  end.

(** ** The bit stream *)

(** Modelled from the spec: the class [FSEBitStream] lives in
    [fse_bit_stream.cc], which is not among the sources.  The spec describes
    an append-only sequence of 64-bit chunks plus a partially filled current
    chunk and its bit count; [Push] appends the low [bit_count] bits of
    [value], most significant bit first within the chunk, and commits the
    chunk when it is full; [Empty] resets the content; [Flush] commits a
    partially filled chunk; [Create] fails for a capacity of zero. *)
Module FSEBitStream.
Record t : Type := {
  chunks : list Z;
  curr_chunk : Z;
  curr_bit_count : Z
}.

Definition empty : t := {| chunks := []; curr_chunk := 0; curr_bit_count := 0 |}.

Definition Create (bit_capacity : Z) : outcome t :=
  if bit_capacity =? 0 then RET_ERROR else RET_OK empty.

Definition Empty (bs : t) : t := empty.

Definition push_bit (bs : t) (b : bool) : t :=
  let chunk := Z.lor (curr_chunk bs) (Z.shiftl (Z.b2z b) (63 - curr_bit_count bs)) in
  if curr_bit_count bs + 1 =? 64 then
    {| chunks := chunks bs ++ [chunk]; curr_chunk := 0; curr_bit_count := 0 |}
  else
    {| chunks := chunks bs; curr_chunk := chunk; curr_bit_count := curr_bit_count bs + 1 |}.

(** The low [n] bits of [value], most significant first. *)
Fixpoint low_bits (value : Z) (n : nat) : list bool :=
  match n with
  | O => []
  | S n' => Z.testbit value (Z.of_nat n') :: low_bits value n'
  end.

Definition Push (bs : t) (value bit_count : Z) : t :=
  fold_left push_bit (low_bits value (Z.to_nat bit_count)) bs.

Definition Flush (bs : t) : t :=
  if curr_bit_count bs =? 0 then bs
  else {| chunks := chunks bs ++ [curr_chunk bs]; curr_chunk := 0; curr_bit_count := 0 |}.

Definition GetCurrChunkIndex (bs : t) : Z := Z.of_nat (length (chunks bs)) - 1.
Definition GetChunks (bs : t) : list Z := chunks bs.
Definition GetCurrChunk (bs : t) : Z := curr_chunk bs.
Definition GetCurrBitCount (bs : t) : Z := curr_bit_count bs.

(** Number of bits held by the stream. *)
Definition bit_length (bs : t) : Z := 64 * Z.of_nat (length (chunks bs)) + curr_bit_count bs.
End FSEBitStream.

(** ** FSEEncodeSymbolGetNewState and FSEEncode *)

(** [bits_out] of one transition: [uint8_t bits_out = (state + delta_bit_count[sym]) >> k16Bit]. *)
Definition bits_out_of (tables : encoding_tables) (sym state : Z) : Z :=
  to_uint8 (Z.shiftr (to_uint32 (state + get (delta_bit_count tables) sym)) k16Bit).

(** The source does not bound the index of the read of [coding_table]; the
    value [get] gives for an index outside the table stands for whatever the
    memory holds there. *)
Definition FSEEncodeSymbolGetNewState (bs : FSEBitStream.t) (sym state : Z)
    (tables : encoding_tables) : FSEBitStream.t * Z :=
  let bits_out := bits_out_of tables sym state in
  (FSEBitStream.Push bs state bits_out,
   get (coding_table tables) (Z.shiftr state bits_out + get (delta_state tables) sym)).

(** The [for] loop of [FSEEncode] over [data]. *)
Definition encode_loop (tables : encoding_tables) (data : list Z)
    (st : FSEBitStream.t * Z) : FSEBitStream.t * Z :=
  fold_left (fun st sym => FSEEncodeSymbolGetNewState (fst st) sym (snd st) tables) data st.

Definition FSEEncode (bs : FSEBitStream.t) (data frequency : list Z) (table_log : Z)
  : outcome FSEBitStream.t :=
  let table_size := to_int32 (Z.shiftl 1 table_log) in
  let zeros := repeat 0 (Z.to_nat table_size) in
  match FSECreateStatesForEncoding frequency table_log zeros zeros with
  | RET_OK tables =>
      let state := to_uint16 table_size in
      let '(bs1, state1) := FSEEncodeSymbolGetNewState bs (get data 0) state tables in
      let bs2 := FSEBitStream.Empty bs1 in
      let '(bs3, state3) := encode_loop tables data (bs2, state1) in
      RET_OK (FSEBitStream.Push bs3 (state3 - table_size) table_log)
  | RET_ERROR => RET_ERROR
  | OutOfFuel => OutOfFuel
  end.

(** ** SerializingToBuffer *)

(** One store [*(reinterpret_cast<T *>(&out8[st_off])) = st_val] with
    [sizeof(T) = st_width]. *)
Record store : Type := { st_off : Z; st_width : Z; st_val : Z }.

(** [offset] and the stores done so far, oldest first. *)
Record ser_state : Type := { ser_offset : Z; ser_stores : list store }.

Inductive ser_run : Type :=
| Running (s : ser_state)
| Failed (stores : list store)
| Cut.

Definition ser_bind (r : ser_run) (k : ser_state -> ser_run) : ser_run :=
  match r with
  | Running s => k s
  | Failed t => Failed t
  | Cut => Cut
  end.

(** The store itself followed by [offset += sizeof(T)]. *)
Definition put (w v : Z) (s : ser_state) : ser_state :=
  {| ser_offset := ser_offset s + w;
     ser_stores := ser_stores s ++ [{| st_off := ser_offset s; st_width := w; st_val := v |}] |}.

(** [if (offset + sizeof(T) > max_size) return RET_ERROR;] and then the store. *)
Definition checked_put (max_size w v : Z) (s : ser_state) : ser_run :=
  if ser_offset s + w >? max_size then Failed (ser_stores s)
  else Running (put w v s).

(** A [for] loop storing the values [vs], each of width [w]. *)
Fixpoint put_all (max_size w : Z) (vs : list Z) (s : ser_state) : ser_run :=
  match vs with
  | [] => Running s
  | v :: rest => ser_bind (checked_put max_size w v s) (put_all max_size w rest)
  end.

(** [while (offset % kAlignSize != 0)] storing [uint16_t] zeros; one unit
    of fuel per turn that passes the guard on [max_size]. *)
Fixpoint pad (fuel : nat) (max_size : Z) (s : ser_state) : ser_run :=
  if ser_offset s mod kAlignSize =? 0 then Running s
  else if ser_offset s + 2 >? max_size then Failed (ser_stores s)
  else match fuel with
       | O => Cut
       | S fuel' => pad fuel' max_size (put 2 (to_uint16 0) s)
       end.

Inductive ser_result : Type :=
| Ser_OK (out_size : Z) (stores : list store)
| Ser_ERROR (stores : list store)
| Ser_Cut.

(** A turn of a padding loop that passes the guard [offset + 2 <= max_size]
    moves [offset] by 2, so [max_size] units of fuel cover it. *)
Definition SerializingToBuffer (bs : FSEBitStream.t) (fse_quant : FSEQuant)
    (table_log max_size : Z) : ser_result :=
  let n := Z.to_nat (size fse_quant) in
  let fuel := Z.to_nat max_size in
  let s0 := {| ser_offset := 0; ser_stores := [] |} in
  let s1 := put 2 (to_uint16 (size fse_quant)) s0 in
  let chunksc := to_int32 (FSEBitStream.GetCurrChunkIndex bs + 2) in
  let r :=
    ser_bind (checked_put max_size 2 (to_uint16 table_log) s1) (fun s =>
    ser_bind (checked_put max_size 4 (to_uint32 chunksc) s) (fun s =>
    ser_bind (put_all max_size 4 (map to_uint32 (frequency fse_quant)) s) (fun s =>
    ser_bind (pad fuel max_size s) (fun s =>
    ser_bind (put_all max_size 4
                (map (fun j => to_uint32 (get (centroids fse_quant) (Z.of_nat j))) (seq 0 n)) s) (fun s =>
    ser_bind (pad fuel max_size s) (fun s =>
    ser_bind (put_all max_size 8
                (map (fun j => to_uint64 (get (FSEBitStream.GetChunks bs) (Z.of_nat j)))
                     (seq 0 (Z.to_nat (FSEBitStream.GetCurrChunkIndex bs + 1)))) s) (fun s =>
    ser_bind (checked_put max_size 8 (to_uint64 (FSEBitStream.GetCurrChunk bs)) s) (fun s =>
    checked_put max_size 1 (to_uint8 (FSEBitStream.GetCurrBitCount bs)) s)))))))) in
  match r with
  | Running s =>
      if ser_offset s >? max_size then Ser_ERROR (ser_stores s)
      else Ser_OK (ser_offset s) (ser_stores s)
  | Failed t => Ser_ERROR t
  | Cut => Ser_Cut
  end.

(** ** The output buffer as bytes *)

(** The [w] bytes of [v], least significant first, as the little-endian
    targets of the converter lay them out. *)
Fixpoint le_bytes (w : nat) (v : Z) : list Z :=
  match w with
  | O => []
  | S w' => v mod 256 :: le_bytes w' (v / 256)
  end.

(** Copy [bytes] into [buf] from index [off] on; bytes that would fall past
    the end of [buf] are dropped. *)
Fixpoint write_bytes (buf : list Z) (off : nat) (bytes : list Z) : list Z :=
  match bytes with
  | [] => buf
  | b :: rest => write_bytes (update buf off b) (S off) rest
  end.

Definition apply_store (buf : list Z) (st : store) : list Z :=
  write_bytes buf (Z.to_nat (st_off st)) (le_bytes (Z.to_nat (st_width st)) (st_val st)).

Definition apply_stores (buf : list Z) (stores : list store) : list Z :=
  fold_left apply_store stores buf.

(** ** SerializingToTensor and Compress *)

Definition kMaxModelBufferSize : Z := 1024 * 1024 * 1024 * 2.

(** [max_size] is [tensor_info->Size()]; [out8] is the content of the block
    [malloc(max_size)] returns, which the source does not initialise.  The
    result is the payload of [new_tensor]: the first [out_size] bytes. *)
Definition SerializingToTensor (max_size : Z) (out8 : list Z) (bs : FSEBitStream.t)
    (fse_quant : FSEQuant) (table_log : Z) : outcome (list Z) :=
  if (max_size =? 0) || (max_size >? kMaxModelBufferSize) then RET_ERROR
  else match SerializingToBuffer bs fse_quant table_log max_size with
       | Ser_OK out_size stores => RET_OK (firstn (Z.to_nat out_size) (apply_stores out8 stores))
       | Ser_ERROR _ => RET_ERROR
       | Ser_Cut => OutOfFuel
       end.

Section Compress.
Variables MAX_SYMS MAX_TABLE_LOG : Z.

(** [Compress] from the point where [SqueezeQuant] (not among the sources)
    has filled [fse_quant]; the weight tensor is present through its byte
    size [max_size] only. *)
Definition Compress (fse_quant : FSEQuant) (max_size : Z) (out8 : list Z)
  : outcome (list Z) :=
  match NormalizeFrequency MAX_SYMS MAX_TABLE_LOG fse_quant with
  | RET_OK (q, table_log) =>
      let bit_capacity := to_uint64 (k16Bit * symbol_table_count q) in
      match FSEBitStream.Create bit_capacity with
      | RET_OK bs =>
          match FSEEncode bs (symbol_table q) (frequency q) table_log with
          | RET_OK bs' =>
              SerializingToTensor max_size out8 (FSEBitStream.Flush bs') q table_log
          | RET_ERROR => RET_ERROR
          | OutOfFuel => OutOfFuel
          end
      | RET_ERROR => RET_ERROR
      | OutOfFuel => OutOfFuel
      end
  | RET_ERROR => RET_ERROR
  | OutOfFuel => OutOfFuel
  end.
End Compress.

(** ** Notions used in the statements *)

Definition sum_list (l : list Z) : Z := fold_right Z.add 0 l.

(** The slots of a table of [n] entries, in ascending order. *)
Definition slots (n : Z) : list Z := map Z.of_nat (seq 0 (Z.to_nat n)).

(** Spread-table completeness: the placement loop ends, has stored to every
    slot of the table exactly once, and is back at slot 0. *)
Definition spread_complete (table_log : Z) (freq symbol_table0 : list Z) : Prop :=
  exists s,
    spread (step_of table_log) (tablemask_of table_log) freq 0 (spread_start symbol_table0)
      = RET_OK s
    /\ Permutation (sp_written s) (slots (tablesize_of table_log))
    /\ sp_pos s = 0.

(** The slot reached after [j] strides from slot 0. *)
Definition stride_slot (step ts : Z) (j : nat) : Z := (Z.of_nat j * step) mod ts.

(** Number of stores the spread loop does for [freq]. *)
Definition occurrences (freq : list Z) : nat :=
  fold_right (fun f n => (Z.to_nat f + n)%nat) 0%nat freq.

(** The pushes [(value, bit_count)] the encode loop makes over [data] when it
    starts from [state], oldest first, and the state it ends in: for each
    symbol, the [bits_out] low bits of the current state. *)
Fixpoint transitions (tables : encoding_tables) (data : list Z) (state : Z)
  : list (Z * Z) * Z :=
  match data with
  | [] => ([], state)
  | sym :: rest =>
      let bits_out := bits_out_of tables sym state in
      let state' :=
        get (coding_table tables) (Z.shiftr state bits_out + get (delta_state tables) sym) in
      let '(pushes, final) := transitions tables rest state' in
      ((state, bits_out) :: pushes, final)
  end.

(** A stream after the given pushes, in order. *)
Definition push_all (bs : FSEBitStream.t) (pushes : list (Z * Z)) : FSEBitStream.t :=
  fold_left (fun b p => FSEBitStream.Push b (fst p) (snd p)) pushes bs.

(** Total of the bit counts of a list of pushes. *)
Definition pushed_bits (pushes : list (Z * Z)) : Z :=
  fold_right (fun p n => Z.max 0 (snd p) + n) 0 pushes.

(** The bit count of the current chunk is within the chunk. *)
Definition stream_ok (bs : FSEBitStream.t) : Prop :=
  0 <= FSEBitStream.curr_bit_count bs < 64.

(** *** The layout of the serialized buffer

    A field is given by its width in bytes and its value. *)

Definition total_width (fs : list (Z * Z)) : Z := fold_right (fun f n => fst f + n) 0 fs.

(** Number of [uint16_t] zeros that take [offset] to the next multiple of 8. *)
Definition padding (offset : Z) : nat := Z.to_nat ((- offset) mod kAlignSize / 2).

Definition zero_fill (offset : Z) : list (Z * Z) := repeat (2, to_uint16 0) (padding offset).

Definition header_fields (bs : FSEBitStream.t) (q : FSEQuant) (table_log : Z) : list (Z * Z) :=
  [(2, to_uint16 (size q));
   (2, to_uint16 table_log);
   (4, to_uint32 (to_int32 (FSEBitStream.GetCurrChunkIndex bs + 2)))].

Definition frequency_fields (q : FSEQuant) : list (Z * Z) :=
  map (fun f => (4, to_uint32 f)) (frequency q).

Definition centroid_fields (q : FSEQuant) : list (Z * Z) :=
  map (fun j => (4, to_uint32 (get (centroids q) (Z.of_nat j))))
      (seq 0 (Z.to_nat (size q))).

Definition chunk_fields (bs : FSEBitStream.t) : list (Z * Z) :=
  map (fun c => (8, to_uint64 c)) (FSEBitStream.GetChunks bs).

Definition trailer_fields (bs : FSEBitStream.t) : list (Z * Z) :=
  [(8, to_uint64 (FSEBitStream.GetCurrChunk bs));
   (1, to_uint8 (FSEBitStream.GetCurrBitCount bs))].

(** The fields in the order of the layout. *)
Definition layout (bs : FSEBitStream.t) (q : FSEQuant) (table_log : Z) : list (Z * Z) :=
  let a := header_fields bs q table_log ++ frequency_fields q in
  let b := a ++ zero_fill (total_width a) ++ centroid_fields q in
  b ++ zero_fill (total_width b) ++ chunk_fields bs ++ trailer_fields bs.

(** The fields placed one after the other from [offset] on. *)
Fixpoint lay_out (offset : Z) (fs : list (Z * Z)) : list store :=
  match fs with
  | [] => []
  | (w, v) :: rest =>
      {| st_off := offset; st_width := w; st_val := v |} :: lay_out (offset + w) rest
  end.

(** The exact size of the serialized form. *)
Definition required_size (bs : FSEBitStream.t) (q : FSEQuant) (table_log : Z) : Z :=
  total_width (layout bs q table_log).

(** A store stays within a buffer of [max_size] bytes. *)
Definition in_bounds (max_size : Z) (st : store) : Prop :=
  0 <= st_off st /\ st_off st + st_width st <= max_size.

Definition stores_of (r : ser_result) : list store :=
  match r with
  | Ser_OK _ stores => stores
  | Ser_ERROR stores => stores
  | Ser_Cut => []
  end.

(** Guarded stores of a list of fields, one after the other. *)
Fixpoint run_fields (max_size : Z) (fs : list (Z * Z)) (s : ser_state) : ser_run :=
  match fs with
  | [] => Running s
  | (w, v) :: rest => ser_bind (checked_put max_size w v s) (run_fields max_size rest)
  end.

(** The bytes of the fields, in order. *)
Definition field_bytes (fs : list (Z * Z)) : list Z :=
  concat (map (fun f => le_bytes (Z.to_nat (fst f)) (snd f)) fs).

(** The fields that follow the first one. *)
Definition tl_fields (fs : list (Z * Z)) : list (Z * Z) := tl fs.

(** *** The adjustment of [NormalizeFrequency] in the words of the specification *)

Definition max_of (l : list Z) : Z := fold_right Z.max 0 l.

(** Index of the first entry equal to [v], scanning in ascending order. *)
Fixpoint first_index_of (v : Z) (l : list Z) : nat :=
  match l with
  | [] => 0
  | a :: rest => if a =? v then 0 else S (first_index_of v rest)
  end.

(** The first index that holds the maximum. *)
Definition first_max_index (l : list Z) : Z := Z.of_nat (first_index_of (max_of l) l).

Definition decrement_first_max (l : list Z) : list Z :=
  set l (first_max_index l) (get l (first_max_index l) - 1).

Definition add_to_first_max (d : Z) (l : list Z) : list Z :=
  set l (first_max_index l) (get l (first_max_index l) + d).

(** Above the target: one decrement of the first maximum per unit of excess.
    Below the target: the whole deficit goes to the first maximum at once. *)
Definition adjust_to (target : Z) (l : list Z) : list Z :=
  let s := sum_list l in
  if s >? target then Nat.iter (Z.to_nat (s - target)) decrement_first_max l
  else if s <? target then add_to_first_max (target - s) l
  else l.

(** Entries of a rescaled table: at least 1 and exactly representable as [float]. *)
Definition counts_ok (l : list Z) : Prop := Forall (fun e => 1 <= e < 2 ^ 24) l.

(** *** The state of [NormalizeFrequency] after its rescaling loop *)

(** [new_table_size] as a number. *)
Definition target_of (MAX_TABLE_LOG : Z) (q : FSEQuant) : Z := 2 ^ table_log_of MAX_TABLE_LOG q.

(** [rat], computed from [new_table_size] and the sum of the histogram. *)
Definition ratio_of (MAX_TABLE_LOG : Z) (q : FSEQuant) : Q :=
  Float32.div (Float32.of_Z (target_of MAX_TABLE_LOG q))
              (Float32.of_Z (sum_list (frequency q))).

(** The table after the rescaling loop. *)
Definition rescaled (MAX_TABLE_LOG : Z) (q : FSEQuant) : list Z :=
  normalize (ratio_of MAX_TABLE_LOG q) (frequency q).

(** ** Notions used by the further properties *)

(** A sequence of stores [table[slot] = value], oldest first, applied to an
    array. *)
Definition store_all (t : list Z) (ws : list (Z * Z)) : list Z :=
  fold_left (fun t w => set t (fst w) (snd w)) ws t.

(** The values the spread loop stores, in the order of its stores:
    [frequency[sym]] copies of each symbol, symbols ascending from [sym]. *)
Fixpoint spread_symbols (freq : list Z) (sym : Z) : list Z :=
  match freq with
  | [] => []
  | f :: rest => repeat (to_uint16 sym) (Z.to_nat f) ++ spread_symbols rest (sym + 1)
  end.

(** [cfreqs[sym]] as the fill loop of [coding_table] finds it first: the
    counts of the symbols below [sym] added up. *)
Definition cum (freq : list Z) (sym : Z) : Z := sum_list (firstn (Z.to_nat sym) freq).

(** The number of slots below slot [i] that hold the same symbol as slot [i]. *)
Definition rank (T : list Z) (i : nat) : Z :=
  Z.of_nat (count_occ Z.eq_dec (firstn i T) (nth i T 0)).

(** The entry of [coding_table] that receives the state of slot [i]. *)
Definition coding_index (freq T : list Z) (i : nat) : Z :=
  cum freq (nth i T 0) + rank T i.

(** The number a reader finds in [bytes], taken as a little-endian unsigned
    integer. *)
Definition le_value (bytes : list Z) : Z := fold_right (fun b acc => b + 256 * acc) 0 bytes.

(** The [w]-byte integer at index [off] of [buf], as
    [*(reinterpret_cast<T *>(&buf[off]))] reads it on a little-endian target. *)
Definition read_le (buf : list Z) (off w : Z) : Z :=
  le_value (firstn (Z.to_nat w) (skipn (Z.to_nat off) buf)).

(** The index at which [FSEEncodeSymbolGetNewState] reads [coding_table]:
    [(state >> bits_out) + delta_state[sym]]. *)
Definition read_index (tables : encoding_tables) (sym state : Z) : Z :=
  Z.shiftr state (bits_out_of tables sym state) + get (delta_state tables) sym.



(** * Properties *)

(** ** Machine integers and lists *)

Lemma to_size_t_range x : 0 <= to_size_t x < 2 ^ 64.
Proof. unfold to_size_t, to_uint64. apply Z.mod_pos_bound. lia. Qed.

Lemma to_int32_id x : - 2 ^ 31 <= x < 2 ^ 31 -> to_int32 x = x.
Proof. intros H. unfold to_int32. rewrite Z.mod_small; lia. Qed.

Lemma to_uint32_id x : 0 <= x < 2 ^ 32 -> to_uint32 x = x.
Proof. intros H. unfold to_uint32. apply Z.mod_small; lia. Qed.

Lemma to_size_t_id x : 0 <= x < 2 ^ 64 -> to_size_t x = x.
Proof. intros H. unfold to_size_t, to_uint64. apply Z.mod_small; lia. Qed.

Ltac each_table_log tl H :=
  let C := fresh "C" in
  assert (C : tl = 0 \/ tl = 1 \/ tl = 2 \/ tl = 3 \/ tl = 4 \/ tl = 5 \/ tl = 6 \/ tl = 7 \/
              tl = 8 \/ tl = 9 \/ tl = 10 \/ tl = 11 \/ tl = 12 \/ tl = 13 \/ tl = 14 \/
              tl = 15 \/ tl = 16 \/ tl = 17 \/ tl = 18 \/ tl = 19 \/ tl = 20 \/ tl = 21 \/
              tl = 22 \/ tl = 23 \/ tl = 24 \/ tl = 25 \/ tl = 26 \/ tl = 27 \/ tl = 28 \/
              tl = 29 \/ tl = 30) by lia;
  clear H; repeat (destruct C as [C | C]; [subst tl | ]); [ .. | subst tl].

Lemma tablesize_of_pow2 tl : 0 <= tl <= 30 -> tablesize_of tl = 2 ^ tl.
Proof. intros H. each_table_log tl H; reflexivity. Qed.

Lemma tablemask_of_pow2 tl : 0 <= tl <= 30 -> tablemask_of tl = 2 ^ tl - 1.
Proof. intros H. each_table_log tl H; reflexivity. Qed.

Lemma step_of_odd tl :
  0 <= tl <= 30 -> tl <> 1 -> tl <> 3 -> Z.odd (step_of tl) = true.
Proof. intros H H1 H3. each_table_log tl H; try reflexivity; contradiction. Qed.

Lemma tablemask_of_nonneg tl : 0 <= tablemask_of tl.
Proof. unfold tablemask_of. apply to_size_t_range. Qed.

(** ** The spread loop *)

Lemma advance_le step tablemask pos :
  0 <= tablemask -> 0 <= advance step tablemask pos <= tablemask.
Proof.
  intros Hm. unfold advance.
  pose proof (to_size_t_range (pos + step)) as [Hx _].
  split.
  - apply Z.land_nonneg. now left.
  - assert (Hd : Z.ldiff (Z.land (to_size_t (pos + step)) tablemask) tablemask = 0).
    { apply Z.bits_inj'. intros n Hn.
      rewrite Z.ldiff_spec, Z.land_spec, Z.bits_0.
      destruct (Z.testbit tablemask n), (Z.testbit (to_size_t (pos + step)) n); reflexivity. }
    apply Z.sub_nocarry_ldiff in Hd.
    assert (0 <= Z.ldiff tablemask (Z.land (to_size_t (pos + step)) tablemask))
      by (apply Z.ldiff_nonneg; now left).
    lia.
Qed.

Lemma reapply_in_range fuel step tablemask pos :
  pos <= tablemask -> reapply fuel step tablemask pos = Some pos.
Proof.
  intros H. destruct fuel; simpl; destruct (pos >? tablemask) eqn:E; try reflexivity; lia.
Qed.

Lemma advance_mod tl step pos :
  0 <= tl <= 30 -> advance step (tablemask_of tl) pos = (pos + step) mod 2 ^ tl.
Proof.
  intros H. unfold advance. rewrite tablemask_of_pow2 by exact H.
  replace (2 ^ tl - 1) with (Z.ones tl) by (rewrite Z.ones_equiv; lia).
  rewrite Z.land_ones by lia.
  unfold to_size_t, to_uint64.
  assert (0 < 2 ^ tl) by (apply Z.pow_pos_nonneg; lia).
  apply Z.mod_mod_divide.
  exists (2 ^ (64 - tl)). rewrite <- Z.pow_add_r by lia. f_equal. lia.
Qed.

Lemma place_stride tl step sym n : forall s k,
  0 <= tl <= 30 ->
  sp_pos s = stride_slot step (2 ^ tl) k ->
  exists s',
    place step (tablemask_of tl) sym n s = RET_OK s'
    /\ sp_pos s' = stride_slot step (2 ^ tl) (k + n)
    /\ sp_written s' = sp_written s ++ map (stride_slot step (2 ^ tl)) (seq k n).
Proof.
  induction n as [| n IH]; intros s k Htl Hpos; cbn [place].
  - exists s. cbn [seq map]. rewrite Nat.add_0_r, app_nil_r. auto.
  - rewrite reapply_in_range by (apply advance_le, tablemask_of_nonneg).
    edestruct (IH {| sp_table := set (sp_table s) (sp_pos s) (to_uint16 sym);
                     sp_pos := advance step (tablemask_of tl) (sp_pos s);
                     sp_written := sp_written s ++ [sp_pos s] |} (S k) Htl)
      as (s' & Hrun & Hp & Hw).
    + simpl. rewrite advance_mod by exact Htl. rewrite Hpos. unfold stride_slot.
      rewrite Z.add_mod_idemp_l by (apply Z.pow_nonzero; lia).
      f_equal. lia.
    + exists s'. split; [exact Hrun |]. split.
      * rewrite Hp. f_equal. lia.
      * rewrite Hw. simpl. rewrite <- app_assoc. simpl. now rewrite Hpos.
Qed.

Lemma occurrences_sum freq :
  Forall (fun f => 0 <= f) freq -> Z.of_nat (occurrences freq) = sum_list freq.
Proof.
  induction 1 as [| f l Hf _ IH]; simpl; [reflexivity |].
  rewrite Nat2Z.inj_add, IH, Z2Nat.id by exact Hf. reflexivity.
Qed.

Lemma spread_stride tl step freq : forall sym s k,
  0 <= tl <= 30 ->
  sp_pos s = stride_slot step (2 ^ tl) k ->
  exists s',
    spread step (tablemask_of tl) freq sym s = RET_OK s'
    /\ sp_pos s' = stride_slot step (2 ^ tl) (k + occurrences freq)
    /\ sp_written s' =
       sp_written s ++ map (stride_slot step (2 ^ tl)) (seq k (occurrences freq)).
Proof.
  induction freq as [| f rest IH]; intros sym s k Htl Hpos; simpl.
  - exists s. rewrite Nat.add_0_r, app_nil_r. auto.
  - destruct (place_stride tl step sym (Z.to_nat f) s k Htl Hpos) as (s1 & Hrun & Hp & Hw).
    rewrite Hrun.
    destruct (IH (sym + 1) s1 (k + Z.to_nat f)%nat Htl Hp) as (s2 & Hrun2 & Hp2 & Hw2).
    exists s2. split; [exact Hrun2 |]. split.
    + rewrite Hp2. f_equal. lia.
    + rewrite Hw2, Hw, <- app_assoc, seq_app, map_app. reflexivity.
Qed.

(** An odd stride is a unit modulo a power of two. *)
Lemma odd_stride_cancel n : forall d step,
  Z.odd step = true -> (2 ^ Z.of_nat n | d * step) -> (2 ^ Z.of_nat n | d).
Proof.
  induction n as [| n IH]; intros d step Hodd Hdiv.
  - simpl. apply Z.divide_1_l.
  - rewrite Nat2Z.inj_succ, Z.pow_succ_r in * by lia.
    assert (Heven : Z.even d = true).
    { destruct (Z.even d) eqn:E; [reflexivity | exfalso].
      assert (Ho : Z.odd (d * step) = true).
      { rewrite Z.odd_mul, Hodd. rewrite <- Z.negb_even, E. reflexivity. }
      destruct Hdiv as [c Hc]. rewrite Hc in Ho.
      replace (c * (2 * 2 ^ Z.of_nat n)) with (2 * (c * 2 ^ Z.of_nat n)) in Ho by ring.
      rewrite Z.odd_mul in Ho. discriminate. }
    apply Z.even_spec in Heven. destruct Heven as [d' ->].
    apply Z.mul_divide_mono_l. apply (IH d' step Hodd).
    destruct Hdiv as [c Hc]. exists c.
    assert (2 * (d' * step) = 2 * (c * 2 ^ Z.of_nat n)) by lia. lia.
Qed.

Lemma stride_slot_inj tl step (i j : nat) :
  0 <= tl -> Z.odd step = true ->
  Z.of_nat i < 2 ^ tl -> Z.of_nat j < 2 ^ tl ->
  stride_slot step (2 ^ tl) i = stride_slot step (2 ^ tl) j -> i = j.
Proof.
  intros Htl Hodd Hi Hj Heq. unfold stride_slot in Heq.
  assert (Hpos : 0 < 2 ^ tl) by (apply Z.pow_pos_nonneg; lia).
  assert (Hdiv : (2 ^ tl | (Z.of_nat i - Z.of_nat j) * step)).
  { apply Z.mod_divide; [lia |].
    rewrite Z.mul_sub_distr_r, Zminus_mod, Heq, Z.sub_diag. apply Z.mod_0_l. lia. }
  rewrite <- (Z2Nat.id tl) in Hdiv by exact Htl.
  apply odd_stride_cancel in Hdiv; [| exact Hodd].
  rewrite Z2Nat.id in Hdiv by exact Htl.
  destruct Hdiv as [c Hc].
  assert (c = 0) by nia. subst c. lia.
Qed.

Lemma stride_permutation tl step :
  0 <= tl -> Z.odd step = true ->
  Permutation (map (stride_slot step (2 ^ tl)) (seq 0 (Z.to_nat (2 ^ tl)))) (slots (2 ^ tl)).
Proof.
  intros Htl Hodd.
  assert (Hpos : 0 < 2 ^ tl) by (apply Z.pow_pos_nonneg; lia).
  apply NoDup_Permutation_bis.
  - apply NoDup_map_NoDup_ForallPairs; [| apply seq_NoDup].
    intros i j Hi Hj Heq. apply in_seq in Hi, Hj.
    apply (stride_slot_inj tl step i j Htl Hodd); [lia | lia | exact Heq].
  - unfold slots. rewrite !length_map. lia.
  - intros v Hv. apply in_map_iff in Hv. destruct Hv as (j & <- & _).
    unfold slots, stride_slot. apply in_map_iff.
    pose proof (Z.mod_pos_bound (Z.of_nat j * step) (2 ^ tl) Hpos) as Hb.
    exists (Z.to_nat ((Z.of_nat j * step) mod 2 ^ tl)). split.
    + apply Z2Nat.id. lia.
    + apply in_seq. lia.
Qed.

Lemma spread_ok_create freq tl coding0 symbol0 s :
  spread (step_of tl) (tablemask_of tl) freq 0 (spread_start symbol0) = RET_OK s ->
  sp_pos s = 0 ->
  exists tables, FSECreateStatesForEncoding freq tl coding0 symbol0 = RET_OK tables
                 /\ symtable tables = sp_table s
                 /\ delta_bit_count tables = fst (deltas tl freq 0)
                 /\ delta_state tables = snd (deltas tl freq 0).
Proof.
  intros Hrun Hpos. unfold FSECreateStatesForEncoding. rewrite Hrun, Hpos. simpl negb.
  cbv iota.
  destruct (fold_left _ _ _) as [coding cf].
  destruct (deltas tl freq 0) as [dbc ds].
  eexists. split; [reflexivity |]. simpl. auto.
Qed.

(** C2, amended: for every [table_log] in [0, 30] other than 1 and 3 and every
    frequency table with non-negative entries that sum to [2^table_log], the
    spread loop of [FSECreateStatesForEncoding] stores to every slot of
    [0, table_size) exactly once and ends at slot 0, so the function does not
    take the [pos != 0] error return. *)
Theorem spread_visits_every_slot_once :
  forall (table_log : Z) (freq coding_table0 symbol_table0 : list Z),
    0 <= table_log <= 30 -> table_log <> 1 -> table_log <> 3 ->
    Forall (fun f => 0 <= f) freq ->
    sum_list freq = 2 ^ table_log ->
    spread_complete table_log freq symbol_table0
    /\ exists tables,
         FSECreateStatesForEncoding freq table_log coding_table0 symbol_table0 = RET_OK tables.
Proof.
  intros tl freq c0 s0 Htl H1 H3 Hnn Hsum.
  assert (Hpow : 0 < 2 ^ tl) by (apply Z.pow_pos_nonneg; lia).
  destruct (spread_stride tl (step_of tl) freq 0 (spread_start s0) 0%nat Htl)
    as (s & Hrun & Hp & Hw).
  { simpl. unfold stride_slot. simpl. rewrite Z.mod_0_l; lia. }
  assert (Hocc : occurrences freq = Z.to_nat (2 ^ tl)).
  { rewrite <- Hsum, <- occurrences_sum by exact Hnn. now rewrite Nat2Z.id. }
  assert (Hzero : sp_pos s = 0).
  { rewrite Hp, Hocc. unfold stride_slot. simpl Nat.add.
    rewrite Z2Nat.id by lia. rewrite Z.mul_comm. apply Z.mod_mul. lia. }
  split.
  - exists s. split; [exact Hrun |]. split; [| exact Hzero].
    rewrite Hw, Hocc, tablesize_of_pow2 by exact Htl. simpl app.
    apply stride_permutation; [lia | now apply step_of_odd].
  - destruct (spread_ok_create freq tl c0 s0 s Hrun Hzero) as (tables & Hc & _).
    now exists tables.
Qed.

Lemma spread_visits_every_slot_once_witness :
  spread_complete 4 [8; 5; 3] (repeat 0 16%nat)
  /\ exists tables,
       FSECreateStatesForEncoding [8; 5; 3] 4 (repeat 0 16%nat) (repeat 0 16%nat) = RET_OK tables.
Proof.
  apply (spread_visits_every_slot_once 4 [8; 5; 3] (repeat 0 16%nat) (repeat 0 16%nat)).
  - lia.
  - lia.
  - lia.
  - repeat constructor; lia.
  - reflexivity.
Defined.

(** C2 as stated fails for [table_log = 3]: the stride is [4 + 1 + 3 = 8], a
    multiple of the table size, so all eight stores of the normalised table
    [5; 3] go to slot 0. *)
Lemma spread_table_log_3_stays_at_slot_0 :
  Forall (fun f => 1 <= f) [5; 3]
  /\ sum_list [5; 3] = 2 ^ 3
  /\ spread (step_of 3) (tablemask_of 3) [5; 3] 0 (spread_start (repeat 0 8%nat))
     = RET_OK {| sp_table := [1; 0; 0; 0; 0; 0; 0; 0];
                 sp_pos := 0;
                 sp_written := [0; 0; 0; 0; 0; 0; 0; 0] |}
  /\ ~ spread_complete 3 [5; 3] (repeat 0 8%nat).
Proof.
  split; [repeat constructor; lia |].
  split; [reflexivity |].
  split; [reflexivity |].
  intros (s & Hrun & Hperm & _).
  vm_compute in Hrun. injection Hrun as <-.
  assert (Hin : In 1 (slots (tablesize_of 3))) by (vm_compute; tauto).
  apply (Permutation_in _ (Permutation_sym Hperm)) in Hin.
  simpl in Hin. intuition discriminate.
Qed.

(** C10: whatever [table_log], [step] and [pos] are, the position computed
    by [pos = (pos + step) & tablemask] is at most [tablemask]; the [while]
    that follows returns it unchanged without a single execution of its body
    (no fuel is needed), so one placement is one stride-and-mask step. *)
Theorem reapply_loop_never_runs :
  forall (table_log step pos sym : Z) (fuel n : nat) (s : spread_state),
    let tablemask := tablemask_of table_log in
    advance step tablemask pos <= tablemask
    /\ (advance step tablemask pos >? tablemask) = false
    /\ reapply fuel step tablemask (advance step tablemask pos)
       = Some (advance step tablemask pos)
    /\ place step tablemask sym (S n) s
       = place step tablemask sym n
           {| sp_table := set (sp_table s) (sp_pos s) (to_uint16 sym);
              sp_pos := advance step tablemask (sp_pos s);
              sp_written := sp_written s ++ [sp_pos s] |}.
Proof.
  intros tl step pos sym fuel n s tablemask.
  pose proof (tablemask_of_nonneg tl) as Hm. fold tablemask in Hm.
  pose proof (advance_le step tablemask pos Hm) as [_ Hle].
  split; [exact Hle |].
  split; [lia |].
  split; [now apply reapply_in_range |].
  cbn [place]. rewrite reapply_in_range; [reflexivity |].
  now apply advance_le.
Qed.

(** ** The delta tables *)

Lemma create_ok_deltas freq tl coding0 symbol0 tables :
  FSECreateStatesForEncoding freq tl coding0 symbol0 = RET_OK tables ->
  delta_bit_count tables = fst (deltas tl freq 0)
  /\ delta_state tables = snd (deltas tl freq 0).
Proof.
  unfold FSECreateStatesForEncoding.
  destruct (spread _ _ _ _ _) as [s | |]; try discriminate.
  destruct (negb (sp_pos s =? 0)); try discriminate.
  destruct (fold_left _ _ _) as [coding cf].
  destruct (deltas tl freq 0) as [dbc ds].
  intros H. injection H as <-. simpl. auto.
Qed.

Lemma CountBits_bounds x n :
  0 <= n -> 1 <= x < 2 ^ n -> 1 <= CountBits x <= n.
Proof.
  intros Hn Hx. unfold CountBits.
  destruct (x <=? 0) eqn:E; [lia |].
  assert (Z.log2 x < n) by (apply Z.log2_lt_pow2; lia).
  pose proof (Z.log2_nonneg x). lia.
Qed.

Lemma CountBits_pow2_gt x : 0 <= x -> x < 2 ^ CountBits x.
Proof.
  intros Hx. unfold CountBits. destruct (x <=? 0) eqn:E.
  - simpl. lia.
  - apply Z.log2_lt_pow2; lia.
Qed.

Lemma delta_entry_ge_2 tl f total :
  0 <= tl <= 30 -> 2 <= f <= 2 ^ tl -> 0 <= total -> total + f < 2 ^ 31 ->
  let max_bits_out := tl - CountBits (f - 1) in
  delta_entry tl f total =
    (to_uint32 (Z.shiftl max_bits_out 16 - Z.shiftl f max_bits_out),
     to_int16 (total - f),
     total + f)
  /\ 0 <= max_bits_out < tl.
Proof.
  intros Htl Hf Ht Hsum mbo.
  assert (Hpow : 2 ^ tl <= 2 ^ 30) by (apply Z.pow_le_mono_r; lia).
  assert (Hcb : 1 <= CountBits (f - 1) <= tl) by (apply CountBits_bounds; lia).
  assert (Hm : 0 <= mbo < tl) by (unfold mbo; lia).
  split; [| exact Hm].
  unfold delta_entry, kFrenqTableExtendSize, k16Bit.
  replace (f >=? 2) with true by (symmetry; rewrite Z.geb_leb; apply Z.leb_le; lia).
  rewrite (to_uint32_id (f - 1)) by lia.
  rewrite (to_int32_id (tl - CountBits (f - 1))) by lia. fold mbo.
  assert (Hshift : 0 <= Z.shiftl f mbo <= 2 ^ tl).
  { rewrite Z.shiftl_mul_pow2 by lia. split; [apply Z.mul_nonneg_nonneg; lia |].
    pose proof (CountBits_pow2_gt (f - 1) ltac:(lia)) as Hlt.
    assert (Hle : f <= 2 ^ CountBits (f - 1)) by lia.
    replace tl with (CountBits (f - 1) + mbo) by (unfold mbo; lia).
    rewrite Z.pow_add_r by lia.
    apply Z.mul_le_mono_nonneg_r; [apply Z.pow_nonneg; lia | exact Hle]. }
  rewrite (to_uint32_id (Z.shiftl f mbo)) by lia.
  rewrite (to_int32_id (Z.shiftl f mbo)) by lia.
  rewrite (to_int32_id f) by lia.
  rewrite (to_int32_id (total + f)) by lia.
  rewrite (to_size_t_id mbo) by lia.
  rewrite (to_size_t_id (Z.shiftl f mbo)) by lia.
  rewrite (to_size_t_id (Z.shiftl mbo 16)).
  - reflexivity.
  - rewrite Z.shiftl_mul_pow2 by lia. lia.
Qed.

Lemma delta_entry_lt_2 tl f total :
  0 <= tl <= 30 -> f < 2 -> 0 <= total -> total + 1 < 2 ^ 31 ->
  delta_entry tl f total =
    (to_uint32 (Z.shiftl tl 16 - 2 ^ tl), to_int16 (total - 1), total + 1).
Proof.
  intros Htl Hf Ht Hsum.
  assert (Hpow : 2 ^ tl <= 2 ^ 30) by (apply Z.pow_le_mono_r; lia).
  assert (0 < 2 ^ tl) by (apply Z.pow_pos_nonneg; lia).
  unfold delta_entry, kFrenqTableExtendSize, k16Bit.
  replace (f >=? 2) with false by (symmetry; rewrite Z.geb_leb; apply Z.leb_gt; lia).
  rewrite (to_int32_id (total + 1)) by lia.
  rewrite (to_int32_id (Z.shiftl tl 16)) by (rewrite Z.shiftl_mul_pow2 by lia; lia).
  rewrite Z.shiftl_1_l.
  rewrite (to_int32_id (2 ^ tl)) by lia.
  reflexivity.
Qed.

Lemma sum_list_nonneg l : Forall (fun f => 1 <= f) l -> 0 <= sum_list l.
Proof. induction 1; simpl; lia. Qed.

Lemma deltas_nth tl : forall freq total sym,
  0 <= tl <= 30 ->
  Forall (fun f => 1 <= f <= 2 ^ tl) freq ->
  0 <= total -> total + sum_list freq < 2 ^ 31 ->
  (sym < length freq)%nat ->
  let entry := delta_entry tl (nth sym freq 0) (total + sum_list (firstn sym freq)) in
  nth sym (fst (deltas tl freq total)) 0 = fst (fst entry)
  /\ nth sym (snd (deltas tl freq total)) 0 = snd (fst entry).
Proof.
  induction freq as [| f rest IH]; intros total sym Htl Hall Ht Hsum Hlt; [simpl in Hlt; lia |].
  inversion Hall as [| ? ? Hf Hrest]; subst.
  assert (Hr : 0 <= sum_list rest).
  { apply sum_list_nonneg. eapply Forall_impl; [| exact Hrest]. simpl. lia. }
  simpl in Hsum.
  assert (Hnext : snd (delta_entry tl f total) = total + f).
  { destruct (Z_lt_ge_dec f 2).
    - rewrite delta_entry_lt_2 by lia. simpl. lia.
    - destruct (delta_entry_ge_2 tl f total) as [-> _]; try lia. reflexivity. }
  cbn [deltas].
  destruct (delta_entry tl f total) as [[dbc ds] total'] eqn:E. simpl in Hnext. subst total'.
  destruct (deltas tl rest (total + f)) as [dbcs dss] eqn:E2.
  destruct sym as [| sym].
  - simpl. rewrite Z.add_0_r, E. auto.
  - simpl in Hlt. cbn [nth firstn fst snd sum_list fold_right].
    specialize (IH (total + f) sym Htl Hrest ltac:(lia) ltac:(lia) ltac:(lia)).
    rewrite E2 in IH. simpl in IH. fold (sum_list (firstn sym rest)).
    replace (total + (f + sum_list (firstn sym rest)))
      with (total + f + sum_list (firstn sym rest)) by lia.
    exact IH.
Qed.

Lemma sum_list_bound l x :
  Forall (fun f => 1 <= f) l -> In x l -> x <= sum_list l.
Proof.
  intros Hall. induction Hall as [| f r Hf Hr IH]; intros Hin; [contradiction |].
  pose proof (sum_list_nonneg r Hr). simpl. destruct Hin as [-> | Hin]; [lia |].
  specialize (IH Hin). lia.
Qed.

Lemma sum_list_firstn_le n l :
  Forall (fun f => 1 <= f) l -> 0 <= sum_list (firstn n l) <= sum_list l.
Proof.
  revert n. induction l as [| f r IH]; intros n Hall.
  - rewrite firstn_nil. simpl. lia.
  - inversion Hall as [| ? ? Hf Hr]; subst. pose proof (sum_list_nonneg r Hr).
    destruct n; simpl; [lia |]. specialize (IH n Hr).
    fold (sum_list (firstn n r)). fold (sum_list r). lia.
Qed.

(** C6: for [table_log] in [[0, 15]], a normalised table (entries at least
    1, summing to [2^table_log]) and each symbol, with [running_total] the
    sum of the frequencies of the symbols before it: a frequency of at least
    2 gives
    [delta_bit_count[sym] = (max_bits_out << 16) - (frequency << max_bits_out)]
    (as a [uint32_t]) with [max_bits_out = table_log - CountBits(frequency - 1)]
    and [delta_state[sym] = running_total - frequency]; a frequency of 1 gives
    [(table_log << 16) - 2^table_log] and [running_total - 1]; the running
    total then grows by the frequency. *)
Theorem deltas_of_each_symbol :
  forall (table_log : Z) (freq coding_table0 symbol_table0 : list Z)
         (tables : encoding_tables) (sym : nat),
    0 <= table_log <= 15 ->
    Forall (fun f => 1 <= f) freq ->
    sum_list freq = 2 ^ table_log ->
    FSECreateStatesForEncoding freq table_log coding_table0 symbol_table0 = RET_OK tables ->
    (sym < length freq)%nat ->
    let f := nth sym freq 0 in
    let running_total := sum_list (firstn sym freq) in
    let max_bits_out := table_log - CountBits (f - 1) in
    (if 2 <=? f then
       nth sym (delta_bit_count tables) 0
         = to_uint32 (Z.shiftl max_bits_out 16 - Z.shiftl f max_bits_out)
       /\ nth sym (delta_state tables) 0 = running_total - f
       /\ 0 <= max_bits_out
     else
       nth sym (delta_bit_count tables) 0
         = to_uint32 (Z.shiftl table_log 16 - 2 ^ table_log)
       /\ nth sym (delta_state tables) 0 = running_total - 1
       /\ f = 1)
    /\ sum_list (firstn (S sym) freq) = running_total + f.
Proof.
  intros tl freq c0 s0 tables sym Htl15 Hall Hsum Hok Hlt f rt mbo.
  assert (Htl : 0 <= tl <= 30) by lia.
  destruct (create_ok_deltas _ _ _ _ _ Hok) as [Hdbc Hds].
  assert (Hpow : 2 ^ tl <= 2 ^ 30) by (apply Z.pow_le_mono_r; lia).
  assert (Hpow15 : 2 ^ tl <= 2 ^ 15) by (apply Z.pow_le_mono_r; lia).
  assert (Hin : In f freq) by (apply nth_In; exact Hlt).
  assert (Hf1 : 1 <= f) by (rewrite Forall_forall in Hall; now apply Hall).
  assert (Hf2 : f <= 2 ^ tl) by (rewrite <- Hsum; now apply sum_list_bound).
  assert (Hall' : Forall (fun f => 1 <= f <= 2 ^ tl) freq).
  { rewrite Forall_forall in *. intros x Hx. split; [now apply Hall |].
    rewrite <- Hsum. apply sum_list_bound; [now rewrite Forall_forall | exact Hx]. }
  pose proof (sum_list_firstn_le sym freq Hall) as Hrt. fold rt in Hrt.
  assert (Hnext : sum_list (firstn (S sym) freq) = rt + f).
  { unfold rt, f. clear - Hlt. revert sym Hlt.
    induction freq as [| a r IH]; intros sym Hlt; [simpl in Hlt; lia |].
    destruct sym; [simpl; lia |].
    simpl in Hlt. specialize (IH sym ltac:(lia)).
    change (sum_list (firstn (S (S sym)) (a :: r))) with (a + sum_list (firstn (S sym) r)).
    change (sum_list (firstn (S sym) (a :: r))) with (a + sum_list (firstn sym r)).
    change (nth (S sym) (a :: r) 0) with (nth sym r 0). lia. }
  pose proof (sum_list_firstn_le (S sym) freq Hall) as Hrt'. rewrite Hnext in Hrt'.
  destruct (deltas_nth tl freq 0 sym Htl Hall' ltac:(lia) ltac:(lia) Hlt) as [E1 E2].
  rewrite Z.add_0_l in E1, E2. fold f rt in E1, E2.
  rewrite <- Hdbc in E1. rewrite <- Hds in E2.
  assert (Hds' : nth sym (delta_state tables) 0 = to_int16 (rt - (if 2 <=? f then f else 1))).
  { rewrite E2. destruct (2 <=? f) eqn:E.
    - apply Z.leb_le in E.
      destruct (delta_entry_ge_2 tl f rt) as [-> _]; try lia. reflexivity.
    - apply Z.leb_gt in E. rewrite delta_entry_lt_2 by lia. reflexivity. }
  assert (Hplain : nth sym (delta_state tables) 0 = rt - (if 2 <=? f then f else 1)).
  { rewrite Hds'.
    assert (Hfeq : (if 2 <=? f then f else 1) = f).
    { destruct (2 <=? f) eqn:E; [reflexivity |]. apply Z.leb_gt in E. lia. }
    rewrite Hfeq. unfold to_int16. rewrite Z.mod_small; lia. }
  split; [| exact Hnext].
  destruct (2 <=? f) eqn:E.
  - apply Z.leb_le in E.
    destruct (delta_entry_ge_2 tl f rt) as [Hd Hm]; try lia.
    rewrite Hd in E1. simpl in E1. fold mbo in E1, Hm.
    split; [exact E1 |]. split; [exact Hplain | lia].
  - apply Z.leb_gt in E. rewrite delta_entry_lt_2 in E1 by lia. simpl in E1.
    split; [exact E1 |]. split; [exact Hplain | lia].
Qed.

Lemma deltas_of_each_symbol_witness :
  exists tables,
    FSECreateStatesForEncoding [8; 5; 3] 4 (repeat 0 16%nat) (repeat 0 16%nat) = RET_OK tables
    /\ nth 1 (delta_bit_count tables) 0 = to_uint32 (Z.shiftl 1 16 - Z.shiftl 5 1)
    /\ nth 1 (delta_state tables) 0 = 8 - 5.
Proof.
  destruct (FSECreateStatesForEncoding [8; 5; 3] 4 (repeat 0 16%nat) (repeat 0 16%nat))
    as [tables | |] eqn:E;
    [| exfalso; vm_compute in E; discriminate E | exfalso; vm_compute in E; discriminate E].
  exists tables. split; [reflexivity |].
  assert (Hall : Forall (fun f => 1 <= f) [8; 5; 3]) by (repeat constructor; lia).
  destruct (deltas_of_each_symbol 4 [8; 5; 3] (repeat 0 16%nat) (repeat 0 16%nat) tables 1%nat
              ltac:(lia) Hall eq_refl E ltac:(simpl; lia)) as (H1 & _).
  split; [exact (proj1 H1) | exact (proj1 (proj2 H1))].
Defined.

(** ** The encode loop *)

Lemma encode_loop_transitions tables : forall data bs state,
  encode_loop tables data (bs, state)
  = (push_all bs (fst (transitions tables data state)), snd (transitions tables data state)).
Proof.
  induction data as [| sym rest IH]; intros bs state; [reflexivity |].
  unfold encode_loop in *. cbn [fold_left transitions].
  unfold FSEEncodeSymbolGetNewState at 2. cbn [fst snd].
  rewrite IH.
  destruct (transitions tables rest _) as [pushes final]. reflexivity.
Qed.

Lemma transitions_length tables : forall data state,
  length (fst (transitions tables data state)) = length data.
Proof.
  induction data as [| sym rest IH]; intros state; [reflexivity |].
  cbn [transitions]. specialize (IH (get (coding_table tables)
    (Z.shiftr state (bits_out_of tables sym state) + get (delta_state tables) sym))).
  destruct (transitions tables rest _) as [pushes final]. simpl in *. now rewrite IH.
Qed.

Lemma push_bit_length bs b :
  stream_ok bs ->
  stream_ok (FSEBitStream.push_bit bs b)
  /\ FSEBitStream.bit_length (FSEBitStream.push_bit bs b) = FSEBitStream.bit_length bs + 1.
Proof.
  unfold stream_ok, FSEBitStream.push_bit, FSEBitStream.bit_length. intros H.
  destruct (FSEBitStream.curr_bit_count bs + 1 =? 64) eqn:E;
    cbn [FSEBitStream.chunks FSEBitStream.curr_bit_count].
  - apply Z.eqb_eq in E. rewrite length_app, Nat2Z.inj_add. cbn [length]. lia.
  - apply Z.eqb_neq in E. lia.
Qed.

Lemma Push_length bs value bit_count :
  stream_ok bs ->
  stream_ok (FSEBitStream.Push bs value bit_count)
  /\ FSEBitStream.bit_length (FSEBitStream.Push bs value bit_count)
     = FSEBitStream.bit_length bs + Z.max 0 bit_count.
Proof.
  unfold FSEBitStream.Push.
  replace (Z.max 0 bit_count) with (Z.of_nat (Z.to_nat bit_count)) by lia.
  generalize (Z.to_nat bit_count) as n. intros n. revert bs.
  induction n as [| n IH]; intros bs Hok; cbn [FSEBitStream.low_bits fold_left].
  - split; [exact Hok | lia].
  - destruct (push_bit_length bs (Z.testbit value (Z.of_nat n)) Hok) as [Hok1 Hlen1].
    destruct (IH _ Hok1) as [Hok2 Hlen2]. split; [exact Hok2 | lia].
Qed.

Lemma push_all_length : forall pushes bs,
  stream_ok bs ->
  stream_ok (push_all bs pushes)
  /\ FSEBitStream.bit_length (push_all bs pushes)
     = FSEBitStream.bit_length bs + pushed_bits pushes.
Proof.
  induction pushes as [| p rest IH]; intros bs Hok; simpl.
  - split; [exact Hok | lia].
  - destruct (Push_length bs (fst p) (snd p) Hok) as [Hok1 Hlen1].
    destruct (IH _ Hok1) as [Hok2 Hlen2]. unfold push_all in *.
    split; [exact Hok2 | lia].
Qed.

Lemma push_all_app bs l1 l2 : push_all bs (l1 ++ l2) = push_all (push_all bs l1) l2.
Proof. unfold push_all. apply fold_left_app. Qed.

Lemma pushed_bits_app l1 l2 : pushed_bits (l1 ++ l2) = pushed_bits l1 + pushed_bits l2.
Proof. induction l1; simpl; lia. Qed.

(** What [FSEEncode] returns once the tables are built: one transition on
    [data[0]] from the [uint16_t] state, of which only the new state is kept,
    then the pushes of the transitions over the whole of [data] and the push
    of the final state on an emptied stream. *)
Lemma FSEEncode_run bs data freq table_log tables :
  let table_size := to_int32 (Z.shiftl 1 table_log) in
  let zeros := repeat 0 (Z.to_nat table_size) in
  FSECreateStatesForEncoding freq table_log zeros zeros = RET_OK tables ->
  let primed := FSEEncodeSymbolGetNewState bs (get data 0) (to_uint16 table_size) tables in
  let pushes := fst (transitions tables data (snd primed)) in
  let final := snd (transitions tables data (snd primed)) in
  FSEEncode bs data freq table_log
  = RET_OK (push_all FSEBitStream.empty (pushes ++ [(final - table_size, table_log)])).
Proof.
  intros table_size zeros Hcreate primed pushes final.
  unfold FSEEncode. fold table_size. fold zeros. rewrite Hcreate.
  unfold FSEEncodeSymbolGetNewState at 1. unfold FSEBitStream.Empty.
  rewrite encode_loop_transitions.
  unfold pushes, final, primed, FSEEncodeSymbolGetNewState. cbn [fst snd].
  rewrite push_all_app. reflexivity.
Qed.

(** C3: for [table_log] in [[0, 15]], where the [uint16_t] state holds
    [table_size = 2^table_log], and once the tables are built, [FSEEncode]
    runs one transition on [data[0]] from the state [table_size] and keeps
    only the state it yields: the stream is emptied, so the result is the
    empty stream followed by the pushes of the transitions over the whole of
    [data] (one per symbol, each of
    [bits_out = (state + delta_bit_count[sym]) >> 16] bits of the state) and
    by the push of [state - table_size] with [table_log] bits.  Nothing of
    the stream passed in survives, and [Compress] flushes the stream it gets
    back before serializing it. *)
Theorem FSEEncode_discards_priming_push :
  forall (MAX_SYMS MAX_TABLE_LOG : Z) (bs : FSEBitStream.t) (data freq : list Z)
         (table_log : Z) (tables : encoding_tables),
    0 <= table_log <= 15 ->
    let table_size := 2 ^ table_log in
    let zeros := repeat 0 (Z.to_nat table_size) in
    FSECreateStatesForEncoding freq table_log zeros zeros = RET_OK tables ->
    let primed := FSEEncodeSymbolGetNewState bs (get data 0) table_size tables in
    let pushes := fst (transitions tables data (snd primed)) in
    let final := snd (transitions tables data (snd primed)) in
    let result := push_all FSEBitStream.empty (pushes ++ [(final - table_size, table_log)]) in
    FSEEncode bs data freq table_log = RET_OK result
    /\ fst primed
       = FSEBitStream.Push bs table_size
           (to_uint8 (Z.shiftr (to_uint32 (table_size
                                           + get (delta_bit_count tables) (get data 0))) 16))
    /\ length pushes = length data
    /\ FSEBitStream.bit_length result = pushed_bits pushes + table_log
    /\ (forall bs', FSEEncode bs' data freq table_log = RET_OK result)
    /\ (forall q q' bs0 max_size out8,
          NormalizeFrequency MAX_SYMS MAX_TABLE_LOG q = RET_OK (q', table_log) ->
          symbol_table q' = data ->
          frequency q' = freq ->
          FSEBitStream.Create (to_uint64 (k16Bit * symbol_table_count q')) = RET_OK bs0 ->
          Compress MAX_SYMS MAX_TABLE_LOG q max_size out8
          = SerializingToTensor max_size out8 (FSEBitStream.Flush result) q' table_log).
Proof.
  intros MS MTL bs data freq tl tables Htl table_size zeros Hcreate primed pushes final result.
  assert (Hp : 0 < 2 ^ tl <= 2 ^ 15).
  { split; [apply Z.pow_pos_nonneg; lia | apply Z.pow_le_mono_r; lia]. }
  assert (Hts : to_int32 (Z.shiftl 1 tl) = table_size).
  { unfold table_size. rewrite Z.shiftl_1_l. apply to_int32_id. lia. }
  assert (Hu : to_uint16 table_size = table_size).
  { unfold to_uint16, table_size. apply Z.mod_small. lia. }
  assert (Hany : forall bs', FSEEncode bs' data freq tl = RET_OK result).
  { intros bs'. pose proof (FSEEncode_run bs' data freq tl tables) as Hrun.
    cbv zeta in Hrun. rewrite Hts, Hu in Hrun. exact (Hrun Hcreate). }
  split; [apply Hany |].
  split; [reflexivity |].
  split; [apply transitions_length |].
  split.
  - unfold result.
    destruct (push_all_length (pushes ++ [(final - table_size, tl)]) FSEBitStream.empty)
      as [_ ->]; [unfold stream_ok; simpl; lia |].
    rewrite pushed_bits_app. unfold FSEBitStream.bit_length. simpl. lia.
  - split; [exact Hany |].
    intros q q' bs0 max_size out8 Hnorm Hdata Hfreq Hbs. unfold Compress.
    rewrite Hnorm, Hbs, Hdata, Hfreq, Hany. reflexivity.
Qed.

Lemma FSEEncode_discards_priming_push_witness :
  FSEEncode {| FSEBitStream.chunks := [5]; FSEBitStream.curr_chunk := 7;
               FSEBitStream.curr_bit_count := 3 |} [0; 1; 0; 2; 3; 0; 1] [8; 4; 2; 2] 4
  = RET_OK {| FSEBitStream.chunks := []; FSEBitStream.curr_chunk := 169588673468170240;
              FSEBitStream.curr_bit_count := 17 |}.
Proof.
  destruct (FSECreateStatesForEncoding [8; 4; 2; 2] 4 (repeat 0 (Z.to_nat (2 ^ 4)))
              (repeat 0 (Z.to_nat (2 ^ 4))))
    as [tables | |] eqn:E;
    [| exfalso; vm_compute in E; discriminate E | exfalso; vm_compute in E; discriminate E].
  rewrite (proj1 (FSEEncode_discards_priming_push 65534 16
                    {| FSEBitStream.chunks := [5]; FSEBitStream.curr_chunk := 7;
                       FSEBitStream.curr_bit_count := 3 |}
                    [0; 1; 0; 2; 3; 0; 1] [8; 4; 2; 2] 4 tables ltac:(lia) E)).
  vm_compute in E. injection E as <-. vm_compute. reflexivity.
Defined.

(** ** The serializer *)

Lemma run_fields_app max_size a b s :
  run_fields max_size (a ++ b) s = ser_bind (run_fields max_size a s) (run_fields max_size b).
Proof.
  revert s. induction a as [| [w v] a IH]; intros s; [reflexivity |].
  cbn [app run_fields]. unfold checked_put.
  destruct (ser_offset s + w >? max_size); [reflexivity |].
  cbn [ser_bind]. apply IH.
Qed.

Lemma put_all_run_fields max_size w vs s :
  put_all max_size w vs s = run_fields max_size (map (fun v => (w, v)) vs) s.
Proof.
  revert s. induction vs as [| v vs IH]; intros s; [reflexivity |].
  cbn [put_all map run_fields]. unfold checked_put.
  destruct (ser_offset s + w >? max_size); [reflexivity |].
  cbn [ser_bind]. apply IH.
Qed.

Lemma padding_0 offset : offset mod 8 = 0 -> padding offset = 0%nat.
Proof.
  intros H. unfold padding, kAlignSize.
  replace ((- offset) mod 8) with 0; [reflexivity |].
  symmetry. apply Z.mod_opp_l_z; lia.
Qed.

Lemma padding_S offset :
  offset mod 2 = 0 -> offset mod 8 <> 0 -> padding offset = S (padding (offset + 2)).
Proof.
  intros H2 H8. unfold padding, kAlignSize.
  assert (Hm : offset mod 8 = 2 \/ offset mod 8 = 4 \/ offset mod 8 = 6).
  { pose proof (Z.mod_pos_bound offset 8 ltac:(lia)).
    assert (offset mod 8 mod 2 = 0).
    { rewrite Z.mod_mod_divide; [exact H2 | exists 4; reflexivity]. }
    assert (Hc : offset mod 8 = 0 \/ offset mod 8 = 1 \/ offset mod 8 = 2 \/ offset mod 8 = 3 \/
            offset mod 8 = 4 \/ offset mod 8 = 5 \/ offset mod 8 = 6 \/ offset mod 8 = 7) by lia.
    destruct Hc as [Hc | [Hc | [Hc | [Hc | [Hc | [Hc | [Hc | Hc]]]]]]];
      rewrite Hc in *; try lia; try discriminate. }
  rewrite (Z.mod_opp_l_nz offset 8) by lia.
  replace (- (offset + 2)) with (- offset - 2) by lia.
  assert (Hn : (- offset - 2) mod 8 = (8 - offset mod 8 - 2) mod 8).
  { rewrite <- (Z.mod_opp_l_nz offset 8) by lia.
    rewrite Zminus_mod_idemp_l. reflexivity. }
  rewrite Hn.
  destruct Hm as [Hm | [Hm | Hm]]; rewrite Hm; reflexivity.
Qed.

Lemma pad_run_fields max_size : forall fuel s,
  ser_offset s mod 2 = 0 ->
  (Z.to_nat (max_size - ser_offset s) <= fuel)%nat ->
  pad fuel max_size s = run_fields max_size (zero_fill (ser_offset s)) s.
Proof.
  induction fuel as [| fuel IH]; intros s Heven Hfuel; cbn [pad]; unfold kAlignSize, zero_fill.
  - destruct (ser_offset s mod 8 =? 0) eqn:E8.
    + apply Z.eqb_eq in E8. now rewrite padding_0.
    + apply Z.eqb_neq in E8. rewrite padding_S by assumption.
      cbn [repeat run_fields]. unfold checked_put.
      destruct (ser_offset s + 2 >? max_size) eqn:E; [reflexivity | lia].
  - destruct (ser_offset s mod 8 =? 0) eqn:E8.
    + apply Z.eqb_eq in E8. now rewrite padding_0.
    + apply Z.eqb_neq in E8. rewrite padding_S by assumption.
      cbn [repeat run_fields]. unfold checked_put.
      destruct (ser_offset s + 2 >? max_size) eqn:E; [reflexivity |].
      cbn [ser_bind]. rewrite IH.
      * reflexivity.
      * cbn [put ser_offset]. rewrite <- Zplus_mod_idemp_l, Heven. reflexivity.
      * cbn [put ser_offset]. lia.
Qed.

Lemma total_width_app a b : total_width (a ++ b) = total_width a + total_width b.
Proof. induction a as [| [w v] a IH]; simpl; [reflexivity |]. unfold total_width in *. lia. Qed.

Lemma run_fields_offset max_size : forall fs s s',
  run_fields max_size fs s = Running s' ->
  ser_offset s' = ser_offset s + total_width fs
  /\ ser_stores s' = ser_stores s ++ lay_out (ser_offset s) fs.
Proof.
  induction fs as [| [w v] fs IH]; intros s s' H; cbn [run_fields] in H.
  - injection H as <-. simpl. rewrite app_nil_r. split; [lia | reflexivity].
  - unfold checked_put in H.
    destruct (ser_offset s + w >? max_size); [discriminate |].
    cbn [ser_bind] in H. apply IH in H. cbn [put ser_offset ser_stores] in H.
    destruct H as [Ho Hs]. split.
    + rewrite Ho. simpl. lia.
    + rewrite Hs, <- app_assoc. reflexivity.
Qed.

Lemma run_fields_fits max_size : forall fs s,
  Forall (fun f => 0 <= fst f) fs ->
  ser_offset s + total_width fs <= max_size ->
  run_fields max_size fs s
  = Running {| ser_offset := ser_offset s + total_width fs;
               ser_stores := ser_stores s ++ lay_out (ser_offset s) fs |}.
Proof.
  induction fs as [| [w v] fs IH]; intros s Hw Hfit.
  - simpl. rewrite Z.add_0_r, app_nil_r. now destruct s.
  - inversion Hw as [| ? ? Hw1 Hw2]; subst. simpl in Hw1.
    assert (Hrest : 0 <= total_width fs).
    { clear - Hw2. induction Hw2 as [| [w' v'] l Hh _ IHl]; simpl in *; lia. }
    change (total_width ((w, v) :: fs)) with (w + total_width fs) in *.
    cbn [run_fields]. unfold checked_put.
    destruct (ser_offset s + w >? max_size) eqn:E; [lia |].
    cbn [ser_bind]. rewrite IH; [| exact Hw2 | cbn [put ser_offset]; lia].
    cbn [put ser_offset ser_stores lay_out]. rewrite <- app_assoc.
    rewrite Z.add_assoc. reflexivity.
Qed.

Lemma run_fields_overflow max_size : forall fs s,
  Forall (fun f => 0 <= fst f) fs ->
  fs <> [] ->
  max_size < ser_offset s + total_width fs ->
  exists t, run_fields max_size fs s = Failed t.
Proof.
  induction fs as [| [w v] fs IH]; intros s Hw Hne Hover; [congruence |].
  inversion Hw as [| ? ? Hw1 Hw2]; subst. simpl in Hw1.
  change (total_width ((w, v) :: fs)) with (w + total_width fs) in *.
  cbn [run_fields]. unfold checked_put.
  destruct (ser_offset s + w >? max_size) eqn:E; [eexists; reflexivity |].
  cbn [ser_bind]. apply IH; [exact Hw2 | | cbn [put ser_offset]; lia].
  intros ->. simpl in Hover. lia.
Qed.

Lemma run_fields_in_bounds max_size : forall fs s,
  Forall (fun f => 0 <= fst f) fs ->
  0 <= ser_offset s ->
  Forall (in_bounds max_size) (ser_stores s) ->
  match run_fields max_size fs s with
  | Running s' => Forall (in_bounds max_size) (ser_stores s')
  | Failed t => Forall (in_bounds max_size) t
  | Cut => False
  end.
Proof.
  induction fs as [| [w v] fs IH]; intros s Hw Hoff Hin; [exact Hin |].
  inversion Hw as [| ? ? Hw1 Hw2]; subst. simpl in Hw1.
  cbn [run_fields]. unfold checked_put.
  destruct (ser_offset s + w >? max_size) eqn:E; [exact Hin |].
  cbn [ser_bind]. apply IH; [exact Hw2 | cbn [put ser_offset]; lia |].
  cbn [put ser_stores]. apply Forall_app. split; [exact Hin |].
  constructor; [| constructor]. unfold in_bounds. simpl. lia.
Qed.

Lemma ser_bind_run_fields max_size pre rest s (k : ser_state -> ser_run) :
  (forall s', run_fields max_size pre s = Running s' -> k s' = run_fields max_size rest s') ->
  ser_bind (run_fields max_size pre s) k = run_fields max_size (pre ++ rest) s.
Proof.
  intros H. rewrite run_fields_app.
  destruct (run_fields max_size pre s) as [s' | t |]; cbn [ser_bind]; auto.
Qed.

Lemma checked_put_run_fields max_size w v s :
  checked_put max_size w v s = run_fields max_size [(w, v)] s.
Proof.
  cbn [run_fields]. destruct (checked_put max_size w v s); reflexivity.
Qed.

Lemma total_width_map (A : Type) (w : Z) (g : A -> Z) (l : list A) :
  total_width (map (fun x => (w, g x)) l) = w * Z.of_nat (length l).
Proof.
  induction l as [| a l IH]; [simpl; lia |]. cbn [map length].
  change (total_width ((w, g a) :: map (fun x => (w, g x)) l))
    with (w + total_width (map (fun x => (w, g x)) l)).
  rewrite IH, Nat2Z.inj_succ. lia.
Qed.

Lemma total_width_zero_fill offset : total_width (zero_fill offset) = 2 * Z.of_nat (padding offset).
Proof.
  unfold zero_fill. induction (padding offset) as [| n IH]; [reflexivity |].
  cbn [repeat].
  change (total_width ((2, to_uint16 0) :: repeat (2, to_uint16 0) n))
    with (2 + total_width (repeat (2, to_uint16 0) n)).
  rewrite IH, Nat2Z.inj_succ. lia.
Qed.

Lemma layout_widths bs q tl : Forall (fun f => 0 <= fst f) (layout bs q tl).
Proof.
  unfold layout, header_fields, frequency_fields, centroid_fields, chunk_fields,
    trailer_fields, zero_fill.
  repeat (apply Forall_app; split);
    repeat match goal with
      | |- Forall _ (map _ _) => apply Forall_map, Forall_forall; intros; simpl; lia
      | |- Forall _ (repeat _ _) => apply Forall_forall; intros ? Hr;
                                     apply repeat_spec in Hr; subst; simpl; lia
      | |- Forall _ (_ :: _) => constructor; [simpl; lia |]
      | |- Forall _ [] => constructor
      end.
Qed.

Lemma map_nth_seq (A : Type) (g : Z -> A) : forall l : list Z,
  map (fun j => g (nth j l 0)) (seq 0 (length l)) = map g l.
Proof.
  intros l. induction l as [| a l IH]; [reflexivity |].
  cbn [length seq map nth]. f_equal.
  rewrite <- seq_shift, map_map. exact IH.
Qed.

(** The chunk loop reads [GetChunks()[j]] for [j] up to the chunk index:
    all the chunks, in order. *)
Lemma chunk_fields_indexed bs :
  map (fun j => (8, to_uint64 (get (FSEBitStream.GetChunks bs) (Z.of_nat j))))
      (seq 0 (Z.to_nat (FSEBitStream.GetCurrChunkIndex bs + 1)))
  = chunk_fields bs.
Proof.
  unfold chunk_fields, FSEBitStream.GetCurrChunkIndex, FSEBitStream.GetChunks, get.
  replace (Z.to_nat (Z.of_nat (length (FSEBitStream.chunks bs)) - 1 + 1))
    with (length (FSEBitStream.chunks bs)) by lia.
  rewrite <- (map_nth_seq _ (fun c => (8, to_uint64 c))).
  apply map_ext. intros j. now rewrite Nat2Z.id.
Qed.

(** The serializer is the unguarded store of [symbol_count] followed by the
    guarded stores of the remaining fields of the layout. *)
Lemma SerializingToBuffer_run bs q tlog max_size :
  SerializingToBuffer bs q tlog max_size =
  match run_fields max_size (tl_fields (layout bs q tlog))
          (put 2 (to_uint16 (size q)) {| ser_offset := 0; ser_stores := [] |}) with
  | Running s =>
      if ser_offset s >? max_size then Ser_ERROR (ser_stores s)
      else Ser_OK (ser_offset s) (ser_stores s)
  | Failed t => Ser_ERROR t
  | Cut => Ser_Cut
  end.
Proof.
  unfold SerializingToBuffer.
  set (s1 := put 2 (to_uint16 (size q)) {| ser_offset := 0; ser_stores := [] |}).
  match goal with |- match ?r with _ => _ end = match ?r' with _ => _ end =>
    replace r with r'; [reflexivity |] end.
  unfold layout, tl_fields, header_fields. cbn [app tl].
  set (a := frequency_fields q).
  set (c := centroid_fields q).
  set (o1 := total_width (_ :: _ :: _ :: a)).
  set (o2 := total_width (_ :: _ :: _ :: a ++ _)).
  rewrite <- !app_assoc.
  symmetry.
  rewrite (checked_put_run_fields max_size 2).
  apply (ser_bind_run_fields max_size [_]). intros s2 H2.
  apply run_fields_offset in H2. destruct H2 as [H2 _].
  rewrite (checked_put_run_fields max_size 4).
  apply (ser_bind_run_fields max_size [_]). intros s3 H3.
  apply run_fields_offset in H3. destruct H3 as [H3 _].
  rewrite put_all_run_fields, map_map. fold (frequency_fields q). fold a.
  apply ser_bind_run_fields. intros s4 H4.
  apply run_fields_offset in H4. destruct H4 as [H4 _].
  assert (Ha : total_width a = 4 * Z.of_nat (length (frequency q))).
  { unfold a, frequency_fields. apply total_width_map. }
  assert (Ho4 : ser_offset s4 = 8 + total_width a).
  { rewrite H4, H3, H2. unfold s1. simpl. unfold total_width at 1 2. simpl. lia. }
  rewrite pad_run_fields;
    [| rewrite Ho4, Ha; rewrite <- Zplus_mod_idemp_r;
       replace (4 * Z.of_nat (length (frequency q))) with (Z.of_nat (length (frequency q)) * 2 * 2) by lia;
       rewrite Z.mod_mul by lia; reflexivity
     | rewrite Ho4, Ha; lia].
  assert (Ho1 : o1 = ser_offset s4).
  { rewrite Ho4. unfold o1.
    change (total_width (?x :: ?y :: ?z :: a)) with (2 + (2 + (4 + total_width a))). lia. }
  rewrite Ho1.
  apply ser_bind_run_fields. intros s5 H5.
  apply run_fields_offset in H5. destruct H5 as [H5 _].
  rewrite put_all_run_fields, map_map. fold (centroid_fields q). fold c.
  apply ser_bind_run_fields. intros s6 H6.
  apply run_fields_offset in H6. destruct H6 as [H6 _].
  assert (Hc : total_width c = 4 * Z.of_nat (length (seq 0 (Z.to_nat (size q))))).
  { unfold c, centroid_fields. apply total_width_map. }
  assert (Ho6 : ser_offset s6
                = 8 + total_width a + 2 * Z.of_nat (padding (ser_offset s4)) + total_width c).
  { rewrite H6, H5, total_width_zero_fill, Ho4. lia. }
  rewrite pad_run_fields;
    [| rewrite Ho6, Ha, Hc;
       replace (8 + 4 * Z.of_nat (length (frequency q)) + 2 * Z.of_nat (padding (ser_offset s4))
                + 4 * Z.of_nat (length (seq 0 (Z.to_nat (size q)))))
         with ((4 + 2 * Z.of_nat (length (frequency q)) + Z.of_nat (padding (ser_offset s4))
                + 2 * Z.of_nat (length (seq 0 (Z.to_nat (size q))))) * 2) by lia;
       apply Z.mod_mul; lia
     | rewrite Ho6, Ha, Hc; lia].
  assert (Ho2 : o2 = ser_offset s6).
  { rewrite Ho6. unfold o2.
    change (total_width (?x :: ?y :: ?z :: a ++ zero_fill o1 ++ c))
      with (total_width ([x; y; z] ++ a ++ zero_fill o1 ++ c)).
    rewrite !total_width_app, total_width_zero_fill, Ho1.
    unfold total_width at 1. simpl fold_right. lia. }
  rewrite Ho2.
  apply ser_bind_run_fields. intros s7 H7.
  rewrite put_all_run_fields, map_map, chunk_fields_indexed.
  apply ser_bind_run_fields. intros s8 H8.
  unfold trailer_fields.
  rewrite (checked_put_run_fields max_size 8).
  apply (ser_bind_run_fields max_size [_]). intros s9 H9.
  apply checked_put_run_fields.
Qed.

Lemma layout_split bs q table_log :
  layout bs q table_log = (2, to_uint16 (size q)) :: tl_fields (layout bs q table_log).
Proof. reflexivity. Qed.

Lemma tl_fields_widths bs q table_log :
  Forall (fun f => 0 <= fst f) (tl_fields (layout bs q table_log)).
Proof.
  pose proof (layout_widths bs q table_log) as H. rewrite layout_split in H.
  now inversion H.
Qed.

Lemma required_size_split bs q table_log :
  required_size bs q table_log = 2 + total_width (tl_fields (layout bs q table_log)).
Proof. unfold required_size. rewrite layout_split at 1. reflexivity. Qed.

Lemma SerializingToBuffer_fits bs q table_log max_size :
  required_size bs q table_log <= max_size ->
  SerializingToBuffer bs q table_log max_size
  = Ser_OK (required_size bs q table_log) (lay_out 0 (layout bs q table_log)).
Proof.
  intros Hfit. rewrite SerializingToBuffer_run.
  rewrite required_size_split in *.
  rewrite run_fields_fits; [| apply tl_fields_widths | cbn [put ser_offset]; lia].
  cbn [put ser_offset ser_stores app].
  destruct (0 + 2 + total_width (tl_fields (layout bs q table_log)) >? max_size) eqn:E; [lia |].
  rewrite (layout_split bs q table_log) at 3. reflexivity.
Qed.

Lemma SerializingToBuffer_overflow bs q table_log max_size :
  max_size < required_size bs q table_log ->
  exists t, SerializingToBuffer bs q table_log max_size = Ser_ERROR t.
Proof.
  intros Hover. rewrite SerializingToBuffer_run. rewrite required_size_split in Hover.
  destruct (run_fields_overflow max_size (tl_fields (layout bs q table_log))
              (put 2 (to_uint16 (size q)) {| ser_offset := 0; ser_stores := [] |}))
    as [t Ht].
  - apply tl_fields_widths.
  - discriminate.
  - cbn [put ser_offset]. lia.
  - rewrite Ht. now exists t.
Qed.

Lemma lay_out_offsets : forall fs offset,
  Forall (fun f => 0 < fst f) fs ->
  StronglySorted Z.lt (map st_off (lay_out offset fs))
  /\ Forall (fun o => offset <= o) (map st_off (lay_out offset fs)).
Proof.
  induction fs as [| [w v] fs IH]; intros offset Hw; cbn [lay_out map].
  - split; constructor.
  - inversion Hw as [| ? ? Hw1 Hw2]; subst. simpl in Hw1.
    destruct (IH (offset + w) Hw2) as [Hs Hb]. split.
    + constructor; [exact Hs |]. cbn [st_off].
      eapply Forall_impl; [| exact Hb]. simpl. intros; lia.
    + constructor; [cbn [st_off]; lia |].
      eapply Forall_impl; [| exact Hb]. simpl. intros; lia.
Qed.

Lemma layout_widths_pos bs q table_log : Forall (fun f => 0 < fst f) (layout bs q table_log).
Proof.
  unfold layout, header_fields, frequency_fields, centroid_fields, chunk_fields,
    trailer_fields, zero_fill.
  repeat (apply Forall_app; split);
    repeat match goal with
      | |- Forall _ (map _ _) => apply Forall_map, Forall_forall; intros; simpl; lia
      | |- Forall _ (repeat _ _) => apply Forall_forall; intros ? Hr;
                                     apply repeat_spec in Hr; subst; simpl; lia
      | |- Forall _ (_ :: _) => constructor; [simpl; lia |]
      | |- Forall _ [] => constructor
      end.
Qed.

Lemma padding_quad n : padding (8 + 4 * n) = Z.to_nat (2 * (n mod 2)).
Proof.
  unfold padding, kAlignSize.
  pose proof (Z.mod_pos_bound n 2 ltac:(lia)) as Hb.
  rewrite (Z.div_mod n 2) at 1 by lia.
  replace (- (8 + 4 * (2 * (n / 2) + n mod 2))) with (- (4 * (n mod 2)) + (- 1 - n / 2) * 8) by lia.
  rewrite Z.mod_add by lia.
  assert (Hc : n mod 2 = 0 \/ n mod 2 = 1) by lia.
  destruct Hc as [-> | ->]; reflexivity.
Qed.

Lemma padding_bytes offset :
  offset mod 2 = 0 -> 2 * Z.of_nat (padding offset) = (- offset) mod 8.
Proof.
  intros Heven. unfold padding, kAlignSize.
  pose proof (Z.mod_pos_bound (- offset) 8 ltac:(lia)) as Hb.
  assert (Hev : (- offset) mod 8 mod 2 = 0).
  { rewrite Z.mod_mod_divide by (exists 4; reflexivity).
    rewrite Z.mod_opp_l_z; lia. }
  rewrite Z2Nat.id by (apply Z.div_pos; lia).
  pose proof (Z.div_mod ((- offset) mod 8) 2 ltac:(lia)). lia.
Qed.

Lemma padding_aligns offset :
  offset mod 2 = 0 -> (offset + total_width (zero_fill offset)) mod 8 = 0.
Proof.
  intros Heven. rewrite total_width_zero_fill, padding_bytes by exact Heven.
  rewrite Zplus_mod_idemp_r. replace (offset + - offset) with 0 by lia. reflexivity.
Qed.

Lemma layout_explicit bs q table_log :
  let n := size q in
  let pad1 := zero_fill (8 + 4 * n) in
  let pad2 := zero_fill (8 + 4 * n + total_width pad1 + 4 * n) in
  layout bs q table_log
  = [(2, to_uint16 n); (2, to_uint16 table_log);
     (4, to_uint32 (to_int32 (FSEBitStream.GetCurrChunkIndex bs + 2)))]
    ++ map (fun f => (4, to_uint32 f)) (frequency q)
    ++ pad1
    ++ map (fun j => (4, to_uint32 (get (centroids q) (Z.of_nat j)))) (seq 0 (Z.to_nat n))
    ++ pad2
    ++ map (fun c => (8, to_uint64 c)) (FSEBitStream.GetChunks bs)
    ++ [(8, to_uint64 (FSEBitStream.GetCurrChunk bs));
        (1, to_uint8 (FSEBitStream.GetCurrBitCount bs))].
Proof.
  intros n pad1 pad2. unfold layout. cbv zeta.
  assert (Ha : total_width (header_fields bs q table_log ++ frequency_fields q) = 8 + 4 * n).
  { rewrite total_width_app. unfold frequency_fields. rewrite total_width_map. reflexivity. }
  rewrite Ha. fold pad1.
  assert (Hb : total_width ((header_fields bs q table_log ++ frequency_fields q)
                            ++ pad1 ++ centroid_fields q)
               = 8 + 4 * n + total_width pad1 + 4 * n).
  { rewrite (total_width_app (_ ++ _)), Ha, total_width_app. unfold centroid_fields.
    rewrite total_width_map, length_seq. unfold n, size. rewrite Nat2Z.id. lia. }
  rewrite Hb. fold pad2. rewrite <- !app_assoc. reflexivity.
Qed.

(** C4: whenever the budget covers the fields, the call succeeds and has
    stored, at offsets that start at 0 and grow strictly, each field right
    after the one before: [symbol_count] as [uint16_t] (offset 0),
    [table_log] as [uint16_t] (offset 2), the chunk index plus 2 as
    [uint32_t] (offset 4), the frequencies as [uint32_t], zero [uint16_t]s up
    to a multiple of 8, the centroids as 4-byte values, zero [uint16_t]s up to
    a multiple of 8, the chunk-index-plus-one chunks as [uint64_t], the
    current chunk as [uint64_t] and the current bit count as one byte; and a
    call that succeeds, with whatever budget, has stored exactly these
    fields. *)
Theorem SerializingToBuffer_layout :
  forall (bs : FSEBitStream.t) (q : FSEQuant) (table_log max_size : Z),
    let n := size q in
    let pad1 := zero_fill (8 + 4 * n) in
    let pad2 := zero_fill (8 + 4 * n + total_width pad1 + 4 * n) in
    let fields :=
      [(2, to_uint16 n); (2, to_uint16 table_log);
       (4, to_uint32 (to_int32 (FSEBitStream.GetCurrChunkIndex bs + 2)))]
      ++ map (fun f => (4, to_uint32 f)) (frequency q)
      ++ pad1
      ++ map (fun j => (4, to_uint32 (get (centroids q) (Z.of_nat j))))
             (seq 0 (Z.to_nat n))
      ++ pad2
      ++ map (fun c => (8, to_uint64 c)) (FSEBitStream.GetChunks bs)
      ++ [(8, to_uint64 (FSEBitStream.GetCurrChunk bs));
          (1, to_uint8 (FSEBitStream.GetCurrBitCount bs))] in
    total_width fields <= max_size ->
    SerializingToBuffer bs q table_log max_size
    = Ser_OK (total_width fields) (lay_out 0 fields)
    /\ (forall budget out_size stores,
          SerializingToBuffer bs q table_log budget = Ser_OK out_size stores ->
          stores = lay_out 0 fields /\ out_size = total_width fields)
    /\ StronglySorted Z.lt (map st_off (lay_out 0 fields))
    /\ (8 + 4 * n + total_width pad1) mod 8 = 0
    /\ (8 + 4 * n + total_width pad1 + 4 * n + total_width pad2) mod 8 = 0
    /\ Z.of_nat (length (FSEBitStream.GetChunks bs)) = FSEBitStream.GetCurrChunkIndex bs + 1.
Proof.
  intros bs q tlog max_size n pad1 pad2 fields Hfit.
  assert (Hfields : layout bs q tlog = fields) by apply layout_explicit.
  assert (HR : required_size bs q tlog = total_width fields).
  { unfold required_size. now rewrite Hfields. }
  assert (He1 : (8 + 4 * n) mod 2 = 0).
  { replace (8 + 4 * n) with ((4 + 2 * n) * 2) by lia. apply Z.mod_mul. lia. }
  assert (He2 : (8 + 4 * n + total_width pad1 + 4 * n) mod 2 = 0).
  { unfold pad1. rewrite total_width_zero_fill.
    replace (8 + 4 * n + 2 * Z.of_nat (padding (8 + 4 * n)) + 4 * n)
      with ((4 + 4 * n + Z.of_nat (padding (8 + 4 * n))) * 2) by lia.
    apply Z.mod_mul. lia. }
  split.
  { rewrite <- HR, <- Hfields. apply SerializingToBuffer_fits. lia. }
  split.
  { intros budget out_size stores Hok.
    destruct (Z_le_gt_dec (required_size bs q tlog) budget) as [Hin | Hover].
    - rewrite SerializingToBuffer_fits in Hok by exact Hin.
      rewrite Hfields, HR in Hok. split; congruence.
    - destruct (SerializingToBuffer_overflow bs q tlog budget ltac:(lia)) as [t Ht].
      rewrite Ht in Hok. discriminate. }
  split; [rewrite <- Hfields; apply lay_out_offsets, layout_widths_pos |].
  split; [apply padding_aligns, He1 |].
  split; [apply padding_aligns, He2 |].
  unfold FSEBitStream.GetChunks, FSEBitStream.GetCurrChunkIndex. lia.
Qed.

Lemma SerializingToBuffer_layout_witness :
  SerializingToBuffer
    {| FSEBitStream.chunks := [5]; FSEBitStream.curr_chunk := 7;
       FSEBitStream.curr_bit_count := 3 |}
    {| symbol_table := []; frequency := [16; 10; 6]; centroids := [1; 2; 3] |}
    5 100
  = Ser_OK 57
      [{| st_off := 0; st_width := 2; st_val := 3 |};
       {| st_off := 2; st_width := 2; st_val := 5 |};
       {| st_off := 4; st_width := 4; st_val := 2 |};
       {| st_off := 8; st_width := 4; st_val := 16 |};
       {| st_off := 12; st_width := 4; st_val := 10 |};
       {| st_off := 16; st_width := 4; st_val := 6 |};
       {| st_off := 20; st_width := 2; st_val := 0 |};
       {| st_off := 22; st_width := 2; st_val := 0 |};
       {| st_off := 24; st_width := 4; st_val := 1 |};
       {| st_off := 28; st_width := 4; st_val := 2 |};
       {| st_off := 32; st_width := 4; st_val := 3 |};
       {| st_off := 36; st_width := 2; st_val := 0 |};
       {| st_off := 38; st_width := 2; st_val := 0 |};
       {| st_off := 40; st_width := 8; st_val := 5 |};
       {| st_off := 48; st_width := 8; st_val := 7 |};
       {| st_off := 56; st_width := 1; st_val := 3 |}].
Proof.
  rewrite (proj1 (SerializingToBuffer_layout
                    {| FSEBitStream.chunks := [5]; FSEBitStream.curr_chunk := 7;
                       FSEBitStream.curr_bit_count := 3 |}
                    {| symbol_table := []; frequency := [16; 10; 6]; centroids := [1; 2; 3] |}
                    5 100 ltac:(vm_compute; discriminate))).
  vm_compute. reflexivity.
Defined.

(** C7: with a budget equal to the exact serialized size [R] the call
    succeeds and sets [*out_size] to [R]; with [R - 1] it returns an error,
    and an error return carries no [*out_size].  [R] is 17 bytes plus 8 per
    pair of symbols (the odd one padded) plus 8 per chunk. *)
Theorem SerializingToBuffer_exact_budget :
  forall (bs : FSEBitStream.t) (q : FSEQuant) (table_log : Z),
    let R := required_size bs q table_log in
    SerializingToBuffer bs q table_log R = Ser_OK R (lay_out 0 (layout bs q table_log))
    /\ (exists stores, SerializingToBuffer bs q table_log (R - 1) = Ser_ERROR stores)
    /\ R = 17 + 8 * (size q + size q mod 2)
           + 8 * (FSEBitStream.GetCurrChunkIndex bs + 1).
Proof.
  intros bs q tlog R.
  split; [apply SerializingToBuffer_fits; lia |].
  split; [apply SerializingToBuffer_overflow; lia |].
  unfold R, required_size. rewrite layout_explicit.
  rewrite !total_width_app, !total_width_map, !total_width_zero_fill, length_seq.
  rewrite padding_quad.
  replace (8 + 4 * size q + 2 * Z.of_nat (Z.to_nat (2 * (size q mod 2))) + 4 * size q)
    with (8 + 4 * (2 * size q + size q mod 2)).
  2:{ pose proof (Z.mod_pos_bound (size q) 2 ltac:(lia)). lia. }
  rewrite padding_quad.
  replace ((2 * size q + size q mod 2) mod 2) with (size q mod 2).
  2:{ rewrite Z.add_comm, Z.mul_comm, Z.mod_add by lia. now rewrite Z.mod_mod by lia. }
  pose proof (Z.mod_pos_bound (size q) 2 ltac:(lia)).
  unfold FSEBitStream.GetChunks, FSEBitStream.GetCurrChunkIndex, size in *.
  rewrite Nat2Z.id, !Z2Nat.id by lia.
  change (total_width [?x; ?y; ?z]) with 8.
  change (total_width [?x; ?y]) with 9. lia.
Qed.

Lemma run_fields_extends max_size : forall fs s,
  match run_fields max_size fs s with
  | Running s' => exists rest, ser_stores s' = ser_stores s ++ rest
  | Failed t => exists rest, t = ser_stores s ++ rest
  | Cut => False
  end.
Proof.
  induction fs as [| [w v] fs IH]; intros s.
  - exists []. simpl. now rewrite app_nil_r.
  - cbn [run_fields]. unfold checked_put.
    destruct (ser_offset s + w >? max_size).
    + exists []. simpl. now rewrite app_nil_r.
    + cbn [ser_bind]. specialize (IH (put w v s)).
      destruct (run_fields max_size fs (put w v s)) as [s' | t |]; [| | exact IH];
        destruct IH as [rest Hrest]; cbn [put ser_stores] in Hrest;
        rewrite <- app_assoc in Hrest; eexists; exact Hrest.
Qed.

(** C9: the store of [symbol_count] at offset 0 is done for every
    [max_size], before any guard.  With a budget below 2 bytes the call then
    fails at the first guard, having stored 2 bytes at offset 0 of a buffer
    that is shorter; from 2 bytes on every store of the call, failed or not,
    stays within the budget. *)
Theorem first_store_is_unguarded :
  forall (bs : FSEBitStream.t) (q : FSEQuant) (table_log max_size : Z),
    let first := {| st_off := 0; st_width := 2; st_val := to_uint16 (size q) |} in
    (exists rest, stores_of (SerializingToBuffer bs q table_log max_size) = first :: rest)
    /\ (if max_size <? 2
        then SerializingToBuffer bs q table_log max_size = Ser_ERROR [first]
             /\ ~ in_bounds max_size first
        else Forall (in_bounds max_size)
               (stores_of (SerializingToBuffer bs q table_log max_size))).
Proof.
  intros bs q tlog max_size first.
  rewrite SerializingToBuffer_run.
  set (s1 := put 2 (to_uint16 (size q)) {| ser_offset := 0; ser_stores := [] |}).
  assert (Hs1 : ser_stores s1 = [first]) by reflexivity.
  split.
  - pose proof (run_fields_extends max_size (tl_fields (layout bs q tlog)) s1) as H.
    destruct (run_fields max_size (tl_fields (layout bs q tlog)) s1) as [s' | t |];
      [| | contradiction].
    + destruct H as [rest Hrest]. rewrite Hs1 in Hrest. exists rest.
      destruct (ser_offset s' >? max_size); exact Hrest.
    + destruct H as [rest Hrest]. rewrite Hs1 in Hrest. exists rest. exact Hrest.
  - destruct (max_size <? 2) eqn:E.
    + apply Z.ltb_lt in E. split.
      * unfold layout, header_fields. cbn [app tl_fields tl run_fields]. unfold checked_put.
        replace (ser_offset s1 + 2 >? max_size) with true; [reflexivity |].
        symmetry. apply Z.gtb_lt. unfold s1. cbn [put ser_offset]. lia.
      * unfold in_bounds, first. simpl. lia.
    + apply Z.ltb_ge in E.
      assert (Hp1 : 0 <= ser_offset s1) by (unfold s1; cbn [put ser_offset]; lia).
      assert (Hp2 : Forall (in_bounds max_size) (ser_stores s1)).
      { rewrite Hs1. constructor; [unfold in_bounds, first; simpl; lia | constructor]. }
      pose proof (run_fields_in_bounds max_size (tl_fields (layout bs q tlog)) s1
                    (tl_fields_widths bs q tlog) Hp1 Hp2) as H.
      destruct (run_fields max_size (tl_fields (layout bs q tlog)) s1) as [s' | t |].
      * destruct (ser_offset s' >? max_size); exact H.
      * exact H.
      * contradiction.
Qed.

(** ** Bytes of the buffer *)

Lemma update_length : forall l i v, length (update l i v) = length l.
Proof.
  induction l as [| h t IH]; intros i v; [reflexivity |].
  destruct i; simpl; [reflexivity | now rewrite IH].
Qed.

Lemma update_split : forall l i v,
  (i < length l)%nat -> update l i v = firstn i l ++ v :: skipn (S i) l.
Proof.
  induction l as [| h t IH]; intros i v Hi; [simpl in Hi; lia |].
  destruct i; [reflexivity |].
  simpl in Hi. cbn [update firstn skipn app]. f_equal. apply IH. lia.
Qed.

Lemma write_bytes_split : forall bytes buf off,
  (off + length bytes <= length buf)%nat ->
  write_bytes buf off bytes = firstn off buf ++ bytes ++ skipn (off + length bytes) buf.
Proof.
  induction bytes as [| b rest IH]; intros buf off Hfit.
  - simpl. rewrite Nat.add_0_r. symmetry. apply firstn_skipn.
  - cbn [write_bytes length] in *.
    rewrite IH by (rewrite update_length; lia).
    rewrite update_split by lia.
    rewrite firstn_app, length_firstn, Nat.min_l by lia.
    rewrite (firstn_all2 (n := S off)) by (rewrite length_firstn; lia).
    replace (S off - off)%nat with 1%nat by lia. cbn [firstn].
    rewrite skipn_app, length_firstn, Nat.min_l by lia.
    rewrite (skipn_all2 (n := (S off + length rest)%nat)) by (rewrite length_firstn; lia).
    replace (S off + length rest - off)%nat with (S (length rest)) by lia.
    change (skipn (S (length rest)) (b :: skipn (S off) buf))
      with (skipn (length rest) (skipn (S off) buf)).
    rewrite skipn_skipn, <- app_assoc. cbn [app].
    replace (length rest + S off)%nat with (off + S (length rest))%nat by lia.
    reflexivity.
Qed.

Lemma le_bytes_length : forall w v, length (le_bytes w v) = w.
Proof. induction w as [| w IH]; intros v; [reflexivity |]. simpl. now rewrite IH. Qed.

Lemma field_bytes_length fs :
  Forall (fun f => 0 <= fst f) fs -> Z.of_nat (length (field_bytes fs)) = total_width fs.
Proof.
  unfold field_bytes. induction 1 as [| [w v] fs Hw _ IH]; [reflexivity |].
  cbn [map concat]. rewrite length_app, le_bytes_length, Nat2Z.inj_add, IH.
  simpl in Hw. cbn [fst]. rewrite Z2Nat.id by exact Hw. reflexivity.
Qed.

Lemma total_width_nonneg fs : Forall (fun f => 0 <= fst f) fs -> 0 <= total_width fs.
Proof. induction 1 as [| [w v] fs Hw _ IH]; simpl in *; lia. Qed.

Lemma apply_stores_lay_out : forall fs offset buf,
  Forall (fun f => 0 <= fst f) fs ->
  0 <= offset ->
  offset + total_width fs <= Z.of_nat (length buf) ->
  apply_stores buf (lay_out offset fs)
  = firstn (Z.to_nat offset) buf ++ field_bytes fs
    ++ skipn (Z.to_nat (offset + total_width fs)) buf.
Proof.
  induction fs as [| [w v] fs IH]; intros offset buf Hw Hoff Hfit.
  - simpl. rewrite Z.add_0_r. symmetry. apply firstn_skipn.
  - inversion Hw as [| ? ? Hw1 Hw2]; subst. simpl in Hw1.
    pose proof (total_width_nonneg fs Hw2) as Hrest.
    change (total_width ((w, v) :: fs)) with (w + total_width fs) in *.
    cbn [lay_out]. unfold apply_stores in *. cbn [fold_left].
    unfold apply_store at 2. cbn [st_off st_width st_val].
    assert (Hlen : length (write_bytes buf (Z.to_nat offset) (le_bytes (Z.to_nat w) v))
                   = length buf).
    { rewrite write_bytes_split by (rewrite le_bytes_length; lia).
      rewrite !length_app, length_firstn, length_skipn, le_bytes_length. lia. }
    rewrite IH by (try rewrite Hlen; try assumption; lia).
    rewrite write_bytes_split by (rewrite le_bytes_length; lia).
    rewrite le_bytes_length.
    replace (Z.to_nat (offset + w)) with (Z.to_nat offset + Z.to_nat w)%nat by lia.
    rewrite firstn_app, length_firstn, Nat.min_l by lia.
    rewrite (firstn_all2 (n := (Z.to_nat offset + Z.to_nat w)%nat))
      by (rewrite length_firstn; lia).
    replace (Z.to_nat offset + Z.to_nat w - Z.to_nat offset)%nat with (Z.to_nat w) by lia.
    rewrite firstn_app, le_bytes_length, Nat.sub_diag. cbn [firstn].
    rewrite app_nil_r, (firstn_all2 (n := Z.to_nat w)) by (rewrite le_bytes_length; lia).
    replace (Z.to_nat (offset + w + total_width fs))
      with (Z.to_nat offset + Z.to_nat w + Z.to_nat (total_width fs))%nat by lia.
    rewrite skipn_app, length_firstn, Nat.min_l by lia.
    rewrite (skipn_all2 (n := (Z.to_nat offset + Z.to_nat w + Z.to_nat (total_width fs))%nat))
      by (rewrite length_firstn; lia).
    replace (Z.to_nat offset + Z.to_nat w + Z.to_nat (total_width fs) - Z.to_nat offset)%nat
      with (Z.to_nat w + Z.to_nat (total_width fs))%nat by lia.
    rewrite skipn_app, le_bytes_length.
    rewrite (skipn_all2 (n := (Z.to_nat w + Z.to_nat (total_width fs))%nat))
      by (rewrite le_bytes_length; lia).
    replace (Z.to_nat w + Z.to_nat (total_width fs) - Z.to_nat w)%nat
      with (Z.to_nat (total_width fs)) by lia.
    rewrite skipn_skipn. cbn [app].
    unfold field_bytes. cbn [map concat fst snd]. rewrite <- !app_assoc.
    do 3 f_equal.
    replace (Z.to_nat (offset + (w + total_width fs)))
      with (Z.to_nat (total_width fs) + (Z.to_nat offset + Z.to_nat w))%nat by lia.
    reflexivity.
Qed.

Lemma SerializingToTensor_bytes max_size out8 bs q table_log :
  length out8 = Z.to_nat max_size ->
  SerializingToTensor max_size out8 bs q table_log
  = if (max_size =? 0) || (max_size >? kMaxModelBufferSize) then RET_ERROR
    else if required_size bs q table_log <=? max_size
         then RET_OK (field_bytes (layout bs q table_log))
         else RET_ERROR.
Proof.
  intros Hlen. unfold SerializingToTensor.
  destruct ((max_size =? 0) || (max_size >? kMaxModelBufferSize)); [reflexivity |].
  pose proof (layout_widths bs q table_log) as Hw.
  pose proof (total_width_nonneg _ Hw) as Hnn.
  destruct (required_size bs q table_log <=? max_size) eqn:E.
  - apply Z.leb_le in E. rewrite SerializingToBuffer_fits by exact E.
    unfold required_size in *.
    rewrite apply_stores_lay_out by (try exact Hw; lia).
    cbn [Z.to_nat firstn app]. rewrite Z.add_0_l.
    rewrite firstn_app.
    rewrite firstn_all2 by (apply Nat2Z.inj_le; rewrite field_bytes_length by exact Hw; lia).
    replace (Z.to_nat (total_width (layout bs q table_log))
             - length (field_bytes (layout bs q table_log)))%nat with 0%nat.
    + cbn [firstn]. now rewrite app_nil_r.
    + apply Nat2Z.inj. rewrite Nat2Z.inj_sub.
      * rewrite field_bytes_length by exact Hw. lia.
      * apply Nat2Z.inj_le. rewrite field_bytes_length by exact Hw. lia.
  - apply Z.leb_gt in E.
    destruct (SerializingToBuffer_overflow bs q table_log max_size E) as [t ->].
    reflexivity.
Qed.

(** The content of the block [malloc] hands out for [out8] does not reach
    the result of [Compress]: every one of the bytes handed over is stored by
    the serializer. *)
Lemma Compress_ignores_block_content :
  forall (MAX_SYMS MAX_TABLE_LOG : Z) (q : FSEQuant) (max_size : Z) (out8 out8' : list Z),
    length out8 = Z.to_nat max_size ->
    length out8' = Z.to_nat max_size ->
    Compress MAX_SYMS MAX_TABLE_LOG q max_size out8
    = Compress MAX_SYMS MAX_TABLE_LOG q max_size out8'.
Proof.
  intros MS MTL q max_size out8 out8' H1 H2. unfold Compress.
  destruct (NormalizeFrequency MS MTL q) as [[q' table_log] | |]; try reflexivity.
  destruct (FSEBitStream.Create _) as [bs | |]; try reflexivity.
  destruct (FSEEncode bs _ _ _) as [bs' | |]; try reflexivity.
  rewrite (SerializingToTensor_bytes max_size out8) by exact H1.
  rewrite (SerializingToTensor_bytes max_size out8') by exact H2.
  reflexivity.
Qed.


(** ** binary32 rounding *)

Section Rounding.
Import Float32.
Open Scope Q_scope.

Lemma pow2_pos (e : Z) : 0 < 2 ^ e.
Proof. apply Qpower_0_lt. reflexivity. Qed.

Lemma pow2_add (a b : Z) : 2 ^ (a + b) == 2 ^ a * 2 ^ b.
Proof. apply Qpower_plus. discriminate. Qed.

Lemma pow2_inject (n : Z) : (0 <= n)%Z -> inject_Z (2 ^ n) == 2 ^ n.
Proof. intros H. now rewrite Zpower_Qpower. Qed.

Lemma pow2_le (a b : Z) : (a <= b)%Z -> 2 ^ a <= 2 ^ b.
Proof. intros H. apply Qpower_le_compat_l; [exact H | discriminate]. Qed.

Lemma inject_Z_le (a b : Z) : (a <= b)%Z -> inject_Z a <= inject_Z b.
Proof. intros H. now rewrite <- Zle_Qle. Qed.

Lemma inject_Z_lt (a b : Z) : (a < b)%Z -> inject_Z a < inject_Z b.
Proof. intros H. now rewrite <- Zlt_Qlt. Qed.

Lemma mag_spec (x : Q) : 0 < x -> 2 ^ (mag x - 1) <= x /\ x < 2 ^ mag x.
Proof.
  intros Hx. destruct x as [n d].
  assert (Hn : (0 < n)%Z).
  { unfold Qlt in Hx. simpl in Hx. lia. }
  set (x := n # d) in *.
  set (ln := Z.log2 n). set (ld := Z.log2 (Z.pos d)).
  assert (Hln : (0 <= ln)%Z) by apply Z.log2_nonneg.
  assert (Hld : (0 <= ld)%Z) by apply Z.log2_nonneg.
  destruct (Z.log2_spec n Hn) as [Hn1 Hn2]. fold ln in Hn1, Hn2.
  destruct (Z.log2_spec (Z.pos d) ltac:(lia)) as [Hd1 Hd2]. fold ld in Hd1, Hd2.
  assert (Hxd : x * inject_Z (Z.pos d) == inject_Z n).
  { unfold x. rewrite Qmake_Qdiv. field. discriminate. }
  (* the bounds of numerator and denominator as rationals *)
  apply inject_Z_le in Hn1, Hd1. apply inject_Z_lt in Hn2, Hd2.
  rewrite pow2_inject in Hn1, Hn2, Hd1, Hd2 by lia.
  assert (Hup : x < 2 ^ (ln - ld + 1)).
  { pose proof (pow2_pos ld) as Hp.
    assert (E : 2 ^ (ln - ld + 1) * 2 ^ ld == 2 ^ Z.succ ln).
    { rewrite <- pow2_add. now replace (ln - ld + 1 + ld)%Z with (Z.succ ln) by lia. }
    apply (Qmult_lt_r _ _ (2 ^ ld) Hp). rewrite E.
    apply Qle_lt_trans with (x * inject_Z (Z.pos d)); [| now rewrite Hxd].
    apply Qmult_le_l; [exact Hx | exact Hd1]. }
  assert (Hlow : 2 ^ (ln - ld - 1) < x).
  { pose proof (pow2_pos (Z.succ ld)) as Hp.
    assert (E : 2 ^ (ln - ld - 1) * 2 ^ Z.succ ld == 2 ^ ln).
    { rewrite <- pow2_add. now replace (ln - ld - 1 + Z.succ ld)%Z with ln by lia. }
    apply (Qmult_lt_r _ _ (2 ^ Z.succ ld) Hp). rewrite E.
    apply Qle_lt_trans with (x * inject_Z (Z.pos d)); [now rewrite Hxd |].
    apply Qmult_lt_l; [exact Hx | exact Hd2]. }
  unfold mag. change (Qnum x) with n. change (Qden x) with d. fold ln ld.
  destruct (Qle_bool (2 ^ (ln - ld)) x) eqn:E.
  - apply Qle_bool_iff in E. split; [| exact Hup].
    now replace (ln - ld + 1 - 1)%Z with (ln - ld)%Z by lia.
  - split; [apply Qlt_le_weak, Hlow |].
    apply Qnot_le_lt. intros H. apply Qle_bool_iff in H. congruence.
Qed.

Lemma rne_close (y : Q) : y - (1 # 2) <= inject_Z (rne y) /\ inject_Z (rne y) <= y + (1 # 2).
Proof.
  unfold rne.
  pose proof (Qfloor_le y) as Hlo. pose proof (Qlt_floor y) as Hhi.
  rewrite inject_Z_plus in Hhi.
  destruct (Qcompare (y - inject_Z (Qfloor y)) (1 # 2)) eqn:E.
  - apply Qeq_alt in E.
    destruct (Z.even (Qfloor y)); [| rewrite inject_Z_plus];
      change (inject_Z 1) with 1 in *; split; lra.
  - apply Qlt_alt in E. change (inject_Z 1) with 1 in *. split; lra.
  - apply Qgt_alt in E. rewrite inject_Z_plus. change (inject_Z 1) with 1 in *. split; lra.
Qed.

Lemma rne_comp (y y' : Q) : y == y' -> rne y = rne y'.
Proof.
  intros H. unfold rne. rewrite (Qfloor_comp _ _ H).
  assert (E : y - inject_Z (Qfloor y') == y' - inject_Z (Qfloor y')) by (rewrite H; reflexivity).
  rewrite (Qcompare_comp _ _ E _ _ (Qeq_refl (1 # 2))). reflexivity.
Qed.

Lemma rne_inject (k : Z) : rne (inject_Z k) = k.
Proof.
  unfold rne. rewrite Qfloor_Z.
  assert (E : inject_Z k - inject_Z k == 0) by ring.
  rewrite (Qcompare_comp _ _ E _ _ (Qeq_refl (1 # 2))). reflexivity.
Qed.

Lemma Qabs_pos_eq (x : Q) : 0 < x -> Qabs x = x.
Proof.
  intros H. destruct x as [n d]. unfold Qlt in H. simpl in H.
  unfold Qabs. rewrite Z.abs_eq by lia. reflexivity.
Qed.

Lemma round_zero (x : Q) : x == 0 -> round x = 0.
Proof. intros H. unfold round. apply Qeq_bool_iff in H. now rewrite H. Qed.

Lemma round_pos (x : Q) :
  0 < x -> x * (1 - u) <= round x /\ round x <= x * (1 + u).
Proof.
  intros Hx. unfold round.
  destruct (Qeq_bool x 0) eqn:E0.
  { apply Qeq_bool_iff in E0. rewrite E0 in Hx. discriminate. }
  rewrite (Qabs_pos_eq x Hx).
  destruct (mag_spec x Hx) as [Hlow _].
  set (e := (mag x - prec)%Z) in *.
  pose proof (pow2_pos e) as Hp.
  assert (E : 2 ^ (mag x - 1) == 2 ^ 23 * 2 ^ e).
  { rewrite <- pow2_add. unfold e, prec. now replace (23 + (mag x - 24))%Z with (mag x - 1)%Z by lia. }
  rewrite E in Hlow.
  destruct (rne_close (x / 2 ^ e)) as [H1 H2].
  set (m := inject_Z (rne (x / 2 ^ e))) in *.
  assert (Hy : x / 2 ^ e * 2 ^ e == x) by (field; lra).
  apply (Qmult_le_compat_r _ _ (2 ^ e)) in H1, H2; try lra.
  assert (H23 : 2 ^ 23 == 8388608) by reflexivity.
  rewrite H23 in Hlow. unfold u.
  set (p := 2 ^ e) in *. set (y := x / p) in *.
  split; nra.
Qed.

Lemma round_nonneg (x : Q) :
  0 <= x -> 0 <= round x /\ x * (1 - u) <= round x /\ round x <= x * (1 + u).
Proof.
  intros Hx. destruct (Qlt_le_dec 0 x) as [Hpos | Hle].
  - destruct (round_pos x Hpos) as [H1 H2]. unfold u in *. repeat split; try lra.
  - assert (E : x == 0) by lra. rewrite (round_zero x E). unfold u.
    repeat split; lra.
Qed.

Lemma of_Z_exact (n : Z) : (0 <= n < 2 ^ 24)%Z -> of_Z n == inject_Z n.
Proof.
  intros Hn. unfold of_Z.
  destruct (Z.eq_dec n 0) as [-> | Hne]; [reflexivity |].
  assert (Hx : 0 < inject_Z n) by (apply (inject_Z_lt 0); lia).
  unfold round.
  destruct (Qeq_bool (inject_Z n) 0) eqn:E0.
  { apply Qeq_bool_iff in E0. rewrite E0 in Hx. discriminate. }
  rewrite (Qabs_pos_eq _ Hx).
  destruct (mag_spec _ Hx) as [Hlow _].
  assert (Hm : (mag (inject_Z n) <= 24)%Z).
  { destruct (Z_le_gt_dec (mag (inject_Z n)) 24) as [H | H]; [exact H | exfalso].
    assert (H24 : 2 ^ 24 <= 2 ^ (mag (inject_Z n) - 1)) by (apply pow2_le; lia).
    assert (Hlt : inject_Z n < 2 ^ 24).
    { rewrite <- pow2_inject by lia. apply inject_Z_lt. lia. }
    lra. }
  set (e := (mag (inject_Z n) - prec)%Z) in *.
  assert (He : (e <= 0)%Z) by (unfold e, prec; lia).
  assert (Hq : inject_Z n / 2 ^ e == inject_Z (n * 2 ^ (- e))).
  { rewrite inject_Z_mult, pow2_inject by lia. rewrite Qpower_opp.
    pose proof (pow2_pos e). field. lra. }
  rewrite (rne_comp _ _ Hq), rne_inject.
  rewrite inject_Z_mult, pow2_inject by lia. rewrite Qpower_opp.
  pose proof (pow2_pos e). field. lra.
Qed.
End Rounding.

(** ** The rescaling step *)

Section RescaleBounds.
Import Float32.
Open Scope Q_scope.

Variables curr new : Z.
Hypothesis curr_pos : (1 <= curr)%Z.
Hypothesis new_nonneg : (0 <= new)%Z.

Lemma mult_le_nonneg_l (x y z : Q) : 0 <= z -> x <= y -> z * x <= z * y.
Proof.
  intros Hz Hxy. rewrite (Qmult_comm z x), (Qmult_comm z y).
  now apply Qmult_le_compat_r.
Qed.

Lemma rat_bound :
  let rat := div (of_Z new) (of_Z curr) in
  0 <= rat
  /\ rat * (inject_Z curr * (1 - u)) <= inject_Z new * ((1 + u) * (1 + u)).
Proof.
  intros rat.
  assert (Hc : 1 <= inject_Z curr) by (apply (inject_Z_le 1); exact curr_pos).
  assert (Hn : 0 <= inject_Z new) by (apply (inject_Z_le 0); exact new_nonneg).
  destruct (round_pos (inject_Z curr) ltac:(lra)) as [HC1 HC2].
  destruct (round_nonneg (inject_Z new) Hn) as (HN0 & HN1 & HN2).
  unfold rat, div, of_Z.
  set (C := round (inject_Z curr)) in *. set (N := round (inject_Z new)) in *.
  set (c := inject_Z curr) in *. set (n := inject_Z new) in *.
  assert (HCpos : 0 < C) by (unfold u in *; lra).
  assert (HY : 0 <= N / C).
  { apply Qle_shift_div_l; [exact HCpos | lra]. }
  destruct (round_nonneg _ HY) as (HR0 & _ & HR2).
  set (r := round (N / C)) in *.
  split; [exact HR0 |].
  assert (HYC : N / C * C == N) by (field; lra).
  assert (H1 : r * C <= N * (1 + u)).
  { apply (Qmult_le_compat_r _ _ C) in HR2; [| lra].
    rewrite <- HYC at 1.
    setoid_replace (N / C * C * (1 + u)) with (N / C * (1 + u) * C) by ring.
    exact HR2. }
  assert (H2 : r * (c * (1 - u)) <= r * C).
  { apply mult_le_nonneg_l; [exact HR0 | exact HC1]. }
  assert (H3 : N * (1 + u) <= n * (1 + u) * (1 + u)).
  { apply Qmult_le_compat_r; [exact HN2 | unfold u; lra]. }
  lra.
Qed.

Hypothesis new_small : (new <= 65536)%Z.

Lemma rescale_bound (f : Z) :
  (0 <= f <= curr)%Z ->
  let rat := div (of_Z new) (of_Z curr) in
  let e := rescale rat f in
  (1 <= e <= 65538)%Z
  /\ inject_Z e * (inject_Z curr * (1 - u))
     <= 2 * (inject_Z curr * (1 - u))
        + inject_Z new * inject_Z f * ((1 + u) * (1 + u) * (1 + u) * (1 + u) * (1 + u)).
Proof.
  intros Hf rat e.
  destruct rat_bound as [Hr0 Hr]. fold rat in Hr0, Hr.
  assert (Hc : 1 <= inject_Z curr) by (apply (inject_Z_le 1); exact curr_pos).
  assert (Hn0 : 0 <= inject_Z new) by (apply (inject_Z_le 0); exact new_nonneg).
  assert (Hn1 : inject_Z new <= 65536) by (apply (inject_Z_le _ 65536); exact new_small).
  assert (Hf0 : 0 <= inject_Z f) by (apply (inject_Z_le 0); lia).
  assert (Hf1 : inject_Z f <= inject_Z curr) by (apply inject_Z_le; lia).
  destruct (round_nonneg (inject_Z f) Hf0) as (HF0 & _ & HF1).
  assert (HX : 0 <= rat * round (inject_Z f)) by (apply Qmult_le_0_compat; assumption).
  destruct (round_nonneg _ HX) as (HP0 & _ & HP1).
  assert (HS' : 0 <= (1 # 2) + round (rat * round (inject_Z f))) by lra.
  destruct (round_nonneg _ HS') as (HS0 & _ & HS1).
  unfold e, rescale, add, mul, of_Z, floorf, kUpRoundOffSet.
  set (c := inject_Z curr) in *. set (n := inject_Z new) in *. set (g := inject_Z f) in *.
  set (F := round g) in *. set (P := round (rat * F)) in *.
  set (S := round ((1 # 2) + P)) in *.
  set (a := 1 + u) in *. set (b := 1 - u) in *.
  assert (Ha : a == 16777217 # 16777216) by reflexivity.
  assert (Hb : b == 16777215 # 16777216) by reflexivity.
  assert (Hcb : 0 <= c * b) by (rewrite Hb; lra).
  (* P * (c * b) <= n * g * a^4 *)
  assert (K1 : P * (c * b) <= rat * F * a * (c * b)).
  { apply Qmult_le_compat_r; [exact HP1 | exact Hcb]. }
  assert (K2 : rat * (c * b) * (F * a) <= n * (a * a) * (F * a)).
  { apply Qmult_le_compat_r; [exact Hr |]. apply Qmult_le_0_compat; [exact HF0 | rewrite Ha; lra]. }
  assert (K3 : n * (a * a) * a * F <= n * (a * a) * a * (g * a)).
  { apply mult_le_nonneg_l; [| exact HF1].
    repeat apply Qmult_le_0_compat; try exact Hn0; rewrite Ha; lra. }
  assert (K : P * (c * b) <= n * g * (a * a * a * a)) by lra.
  (* the value stays far below the range of int *)
  assert (K4 : n * g * (a * a * a * a) <= n * c * (a * a * a * a)).
  { setoid_replace (n * g * (a * a * a * a)) with (n * (a * a * a * a) * g) by ring.
    setoid_replace (n * c * (a * a * a * a)) with (n * (a * a * a * a) * c) by ring.
    apply mult_le_nonneg_l; [| exact Hf1].
    repeat apply Qmult_le_0_compat; try exact Hn0; rewrite Ha; lra. }
  assert (K5 : P * b <= n * (a * a * a * a)).
  { apply (Qmult_le_r _ _ c); [lra |]. lra. }
  assert (HPup : P <= 65537).
  { rewrite Ha, Hb in K5.
    assert (n * ((16777217 # 16777216) * (16777217 # 16777216) * (16777217 # 16777216)
                 * (16777217 # 16777216)) <= 65536 * ((16777217 # 16777216) * (16777217 # 16777216) * (16777217 # 16777216)
                 * (16777217 # 16777216))).
    { apply Qmult_le_compat_r; [exact Hn1 | lra]. }
    lra. }
  assert (HSup : S <= 65538) by (rewrite Ha in HS1; lra).
  pose proof (Qfloor_le S) as Hk1.
  assert (Hk0 : (0 <= Qfloor S)%Z).
  { change 0%Z with (Qfloor 0). apply Qfloor_resp_le. exact HS0. }
  assert (Hk2 : (Qfloor S <= 65538)%Z).
  { rewrite Zle_Qle. change (inject_Z 65538) with (65538 # 1). lra. }
  rewrite to_int32_id by lia.
  rewrite to_uint32_id by lia.
  split; [lia |].
  assert (He : inject_Z (Z.max 1 (Qfloor S)) <= 1 + S).
  { destruct (Z.max_spec 1 (Qfloor S)) as [[_ ->] | [_ ->]]; [lra |].
    change (inject_Z 1) with 1. lra. }
  assert (K6 : inject_Z (Z.max 1 (Qfloor S)) * (c * b) <= (1 + S) * (c * b)).
  { apply Qmult_le_compat_r; [exact He | exact Hcb]. }
  assert (K7 : S * (c * b) <= ((1 # 2) + P) * a * (c * b)).
  { apply Qmult_le_compat_r; [exact HS1 | exact Hcb]. }
  assert (K8 : P * (c * b) * a <= n * g * (a * a * a * a) * a).
  { apply Qmult_le_compat_r; [exact K | rewrite Ha; lra]. }
  assert (K9 : (1 # 2) * a * (c * b) <= 1 * (c * b)).
  { apply Qmult_le_compat_r; [rewrite Ha; lra | exact Hcb]. }
  lra.
Qed.

Lemma normalize_entries (l : list Z) :
  Forall (fun f => 0 <= f <= curr)%Z l ->
  Forall (fun e => 1 <= e <= 65538)%Z
         (normalize (div (of_Z new) (of_Z curr)) l).
Proof.
  induction 1 as [| f l Hf _ IH]; cbn [normalize map]; constructor.
  - apply (rescale_bound f Hf).
  - exact IH.
Qed.

Lemma normalize_sum_weighted (l : list Z) :
  Forall (fun f => 0 <= f <= curr)%Z l ->
  inject_Z (sum_list (normalize (div (of_Z new) (of_Z curr)) l))
    * (inject_Z curr * (1 - u))
  <= 2 * inject_Z (Z.of_nat (length l)) * (inject_Z curr * (1 - u))
     + inject_Z new * inject_Z (sum_list l)
       * ((1 + u) * (1 + u) * (1 + u) * (1 + u) * (1 + u)).
Proof.
  induction 1 as [| f l Hf _ IH].
  - simpl. change (inject_Z 0) with 0. lra.
  - cbn [normalize map length sum_list fold_right].
    fold (sum_list l). fold (normalize (div (of_Z new) (of_Z curr)) l).
    fold (sum_list (normalize (div (of_Z new) (of_Z curr)) l)).
    destruct (rescale_bound f Hf) as [_ Hb].
    rewrite Nat2Z.inj_succ. unfold Z.succ.
    rewrite !inject_Z_plus. change (inject_Z 1) with 1.
    set (e := inject_Z (rescale (div (of_Z new) (of_Z curr)) f)) in *.
    set (s := inject_Z (sum_list (normalize (div (of_Z new) (of_Z curr)) l))) in *.
    set (k := inject_Z curr * (1 - u)) in *.
    set (w := (1 + u) * (1 + u) * (1 + u) * (1 + u) * (1 + u)) in *.
    set (N := inject_Z (Z.of_nat (length l))) in *.
    set (n := inject_Z new) in *.
    lra.
Qed.

Lemma normalize_sum (l : list Z) :
  Forall (fun f => 0 <= f <= curr)%Z l ->
  sum_list l = curr ->
  (sum_list (normalize (div (of_Z new) (of_Z curr)) l)
   <= 2 * Z.of_nat (length l) + new)%Z.
Proof.
  intros Hall Hsum.
  pose proof (normalize_sum_weighted l Hall) as H. rewrite Hsum in H.
  assert (Hc : 1 <= inject_Z curr) by (apply (inject_Z_le 1); exact curr_pos).
  assert (Hn0 : 0 <= inject_Z new) by (apply (inject_Z_le 0); exact new_nonneg).
  assert (Hn1 : inject_Z new <= 65536) by (apply (inject_Z_le _ 65536); exact new_small).
  set (s := sum_list (normalize (div (of_Z new) (of_Z curr)) l)) in *.
  set (N := Z.of_nat (length l)) in *.
  assert (Hq : inject_Z s < inject_Z (2 * N + new + 1)).
  { rewrite !inject_Z_plus, inject_Z_mult.
    change (inject_Z 1) with 1. change (inject_Z 2) with 2.
    set (c := inject_Z curr) in *. set (n := inject_Z new) in *.
    set (S := inject_Z s) in *. set (M := inject_Z N) in *.
    assert (H' : S * (1 - u) * c
                 <= (2 * M * (1 - u)
                     + n * ((1 + u) * (1 + u) * (1 + u) * (1 + u) * (1 + u))) * c) by lra.
    apply Qmult_le_r in H'; [| lra].
    unfold u in H'. lra. }
  rewrite <- Zlt_Qlt in Hq. lia.
Qed.
End RescaleBounds.

(** ** GetMaxIndex *)

Lemma gt_of_Z (a b : Z) :
  0 <= a < 2 ^ 24 -> 0 <= b < 2 ^ 24 ->
  Float32.gt (Float32.of_Z a) (Float32.of_Z b) = (b <? a).
Proof.
  intros Ha Hb. unfold Float32.gt.
  rewrite (Qleb_comp _ _ (of_Z_exact a Ha) _ _ (of_Z_exact b Hb)).
  destruct (Qle_bool (inject_Z a) (inject_Z b)) eqn:E; simpl; symmetry.
  - apply Qle_bool_iff in E. rewrite <- Zle_Qle in E. apply Z.ltb_ge. exact E.
  - apply Z.ltb_lt. apply Z.lt_nge. intros H. rewrite Zle_Qle in H.
    apply Qle_bool_iff in H. congruence.
Qed.

Lemma max_of_nonneg l : 0 <= max_of l.
Proof. induction l as [| a l IH]; simpl; lia. Qed.

Lemma GetMaxIndex_loop_first_max : forall arr i mv idx,
  Forall (fun a => 0 <= a < 2 ^ 24) arr ->
  0 <= mv < 2 ^ 24 ->
  GetMaxIndex_loop arr i (Some (Float32.of_Z mv)) idx
  = if mv <? max_of arr then i + Z.of_nat (first_index_of (max_of arr) arr) else idx.
Proof.
  induction arr as [| a rest IH]; intros i mv idx Hall Hmv.
  - simpl. destruct (mv <? 0) eqn:E; [apply Z.ltb_lt in E; lia | reflexivity].
  - inversion Hall as [| ? ? Ha Hrest]; subst.
    pose proof (max_of_nonneg rest) as Hr0.
    cbn [GetMaxIndex_loop]. rewrite gt_of_Z by assumption.
    cbn [max_of fold_right first_index_of]. fold (max_of rest).
    destruct (mv <? a) eqn:E1.
    + apply Z.ltb_lt in E1. rewrite IH by assumption.
      replace (mv <? Z.max a (max_of rest)) with true by (symmetry; apply Z.ltb_lt; lia).
      destruct (a <? max_of rest) eqn:E2.
      * apply Z.ltb_lt in E2. rewrite Z.max_r by lia.
        replace (a =? max_of rest) with false by (symmetry; apply Z.eqb_neq; lia).
        rewrite Nat2Z.inj_succ. lia.
      * apply Z.ltb_ge in E2. rewrite Z.max_l by lia. rewrite Z.eqb_refl. simpl. lia.
    + apply Z.ltb_ge in E1. rewrite IH by assumption.
      destruct (mv <? max_of rest) eqn:E2.
      * apply Z.ltb_lt in E2. rewrite Z.max_r by lia.
        replace (mv <? max_of rest) with true by (symmetry; apply Z.ltb_lt; lia).
        replace (a =? max_of rest) with false by (symmetry; apply Z.eqb_neq; lia).
        rewrite Nat2Z.inj_succ. lia.
      * apply Z.ltb_ge in E2.
        replace (mv <? Z.max a (max_of rest)) with false by (symmetry; apply Z.ltb_ge; lia).
        reflexivity.
Qed.

(** With entries below [2^24] the conversions to [float] are exact and
    [GetMaxIndex] is the first index that holds the maximum. *)
Lemma GetMaxIndex_first_max l :
  l <> [] ->
  Forall (fun a => 0 <= a < 2 ^ 24) l ->
  GetMaxIndex l = first_max_index l.
Proof.
  intros Hne Hall. destruct l as [| a rest]; [congruence |].
  inversion Hall as [| ? ? Ha Hrest]; subst.
  unfold GetMaxIndex, first_max_index. cbn [GetMaxIndex_loop].
  rewrite GetMaxIndex_loop_first_max by assumption.
  cbn [max_of fold_right first_index_of]. fold (max_of rest).
  destruct (a <? max_of rest) eqn:E.
  - apply Z.ltb_lt in E. rewrite Z.max_r by lia.
    replace (a =? max_of rest) with false by (symmetry; apply Z.eqb_neq; lia).
    rewrite Nat2Z.inj_succ. lia.
  - apply Z.ltb_ge in E. rewrite Z.max_l by lia. rewrite Z.eqb_refl. reflexivity.
Qed.

Lemma first_index_of_max l :
  l <> [] -> Forall (fun a => 0 <= a) l ->
  (first_index_of (max_of l) l < length l)%nat
  /\ nth (first_index_of (max_of l) l) l 0 = max_of l.
Proof.
  intros Hne Hall.
  assert (Hin : In (max_of l) l).
  { induction l as [| a rest IH]; [congruence |].
    inversion Hall as [| ? ? Ha Hrest]; subst.
    destruct rest as [| b rest'].
    - simpl. left. lia.
    - change (max_of (a :: b :: rest')) with (Z.max a (max_of (b :: rest'))).
      destruct (Z.max_spec a (max_of (b :: rest'))) as [[_ ->] | [_ ->]].
      + right. apply IH; [discriminate | exact Hrest].
      + now left. }
  clear Hne Hall. revert Hin. generalize (max_of l) as v. intros v.
  induction l as [| a rest IH]; intros Hin; [contradiction |].
  cbn [first_index_of]. destruct (a =? v) eqn:E.
  - apply Z.eqb_eq in E. simpl. split; [lia | exact E].
  - apply Z.eqb_neq in E. destruct Hin as [-> | Hin]; [congruence |].
    destruct (IH Hin) as [H1 H2]. simpl. split; [lia | exact H2].
Qed.

Lemma update_nth_sum : forall l i v,
  (i < length l)%nat -> sum_list (update l i v) = sum_list l - nth i l 0 + v.
Proof.
  induction l as [| h t IH]; intros i v Hi; [simpl in Hi; lia |].
  destruct i; cbn [update sum_list fold_right nth].
  - fold (sum_list t). lia.
  - simpl in Hi. fold (sum_list (update t i v)). fold (sum_list t).
    rewrite IH by lia. lia.
Qed.

Lemma update_Forall (P : Z -> Prop) : forall l i v,
  Forall P l -> P v -> Forall P (update l i v).
Proof.
  induction l as [| h t IH]; intros i v Hall Hv; [constructor |].
  inversion Hall; subst. destruct i; cbn [update]; constructor; auto.
Qed.

Lemma sum_list_le_max l :
  Forall (fun a => 0 <= a) l -> sum_list l <= Z.of_nat (length l) * max_of l.
Proof.
  induction 1 as [| a l Ha _ IH]; [simpl; lia |].
  cbn [sum_list fold_right length max_of]. fold (sum_list l). fold (max_of l).
  pose proof (max_of_nonneg l). rewrite Nat2Z.inj_succ. nia.
Qed.

(** ** The shrink loop and the grow step *)

Lemma sum_int_from : forall l acc,
  Forall (fun e => 0 <= e) l -> 0 <= acc -> acc + sum_list l < 2 ^ 31 ->
  fold_left (fun acc f => to_int32 (acc + f)) l acc = acc + sum_list l.
Proof.
  induction l as [| e l IH]; intros acc Hall Hacc Hsum; [simpl; lia |].
  inversion Hall as [| ? ? He Hl]; subst.
  cbn [fold_left sum_list fold_right] in *. fold (sum_list l) in *.
  assert (0 <= sum_list l).
  { clear - Hl. induction Hl; simpl; lia. }
  rewrite to_int32_id by lia. rewrite IH by (try assumption; lia). lia.
Qed.

Lemma sum_int_exact l :
  Forall (fun e => 0 <= e) l -> sum_list l < 2 ^ 31 -> sum_int l = sum_list l.
Proof. intros Hall Hsum. unfold sum_int. rewrite sum_int_from by (try assumption; lia). lia. Qed.

Lemma set_of_nat l (i : nat) v : set l (Z.of_nat i) v = update l i v.
Proof.
  unfold set. replace (Z.of_nat i <? 0) with false by (symmetry; apply Z.ltb_ge; lia).
  now rewrite Nat2Z.id.
Qed.

Lemma get_of_nat l (i : nat) : get l (Z.of_nat i) = nth i l 0.
Proof. unfold get. now rewrite Nat2Z.id. Qed.

Lemma counts_ok_weaken l : counts_ok l -> Forall (fun a => 0 <= a < 2 ^ 24) l.
Proof. intros H. eapply Forall_impl; [| exact H]. simpl. intros; lia. Qed.

Lemma counts_ok_nonneg l : counts_ok l -> Forall (fun a => 0 <= a) l.
Proof. intros H. eapply Forall_impl; [| exact H]. simpl. intros; lia. Qed.

Lemma first_max_facts l :
  l <> [] -> counts_ok l ->
  exists i : nat,
    first_max_index l = Z.of_nat i /\ GetMaxIndex l = Z.of_nat i
    /\ (i < length l)%nat /\ nth i l 0 = max_of l /\ 1 <= max_of l < 2 ^ 24.
Proof.
  intros Hne Hok.
  destruct (first_index_of_max l Hne (counts_ok_nonneg l Hok)) as [Hlt Hnth].
  exists (first_index_of (max_of l) l).
  rewrite GetMaxIndex_first_max by (try assumption; now apply counts_ok_weaken).
  repeat split; try assumption; try reflexivity.
  - rewrite <- Hnth. apply (proj1 (Forall_forall _ l) Hok). now apply nth_In.
  - rewrite <- Hnth. apply (proj1 (Forall_forall _ l) Hok). now apply nth_In.
Qed.

Lemma decrement_first_max_ok l :
  l <> [] -> counts_ok l -> Z.of_nat (length l) < sum_list l ->
  counts_ok (decrement_first_max l)
  /\ sum_list (decrement_first_max l) = sum_list l - 1
  /\ length (decrement_first_max l) = length l
  /\ 2 <= max_of l.
Proof.
  intros Hne Hok Hsum.
  destruct (first_max_facts l Hne Hok) as (i & Hi & _ & Hlt & Hnth & Hmax).
  pose proof (sum_list_le_max l (counts_ok_nonneg l Hok)) as Hle.
  assert (H2 : 2 <= max_of l) by nia.
  unfold decrement_first_max. rewrite Hi, set_of_nat, get_of_nat, Hnth.
  repeat split; try exact H2.
  - apply update_Forall; [exact Hok | lia].
  - rewrite update_nth_sum by exact Hlt. lia.
  - apply update_length.
Qed.

Lemma shrink_spec MAX_SYMS new_table_size : forall fuel l updated,
  l <> [] -> counts_ok l -> sum_list l = updated ->
  Z.of_nat (length l) <= new_table_size ->
  Z.of_nat (length l) <= MAX_SYMS ->
  (Z.to_nat (updated - new_table_size) <= fuel)%nat ->
  updated < 2 ^ 31 ->
  let k := Z.to_nat (updated - new_table_size) in
  let l' := Nat.iter k decrement_first_max l in
  shrink MAX_SYMS fuel new_table_size l updated = RET_OK (l', updated - Z.of_nat k)
  /\ counts_ok l' /\ sum_list l' = updated - Z.of_nat k /\ length l' = length l.
Proof.
  induction fuel as [| fuel IH]; intros l updated Hne Hok Hsum Hlen Hms Hfuel Hup k l'.
  - assert (Hk : k = 0%nat) by (unfold k; lia).
    unfold l'. rewrite Hk. cbn [Nat.iter shrink].
    replace (updated >? new_table_size) with false by (symmetry; rewrite Z.gtb_ltb; apply Z.ltb_ge; lia).
    rewrite Z.sub_0_r. auto.
  - cbn [shrink]. destruct (updated >? new_table_size) eqn:E.
    + assert (Hgt : new_table_size < updated) by (apply Z.gtb_lt; exact E).
      destruct (first_max_facts l Hne Hok) as (i & Hi & Hg & Hlt & Hnth & Hmax).
      destruct (decrement_first_max_ok l Hne Hok ltac:(lia)) as (Hok1 & Hsum1 & Hlen1 & H2).
      rewrite Hg.
      replace (Z.of_nat i <? 0) with false by (symmetry; apply Z.ltb_ge; lia).
      replace (Z.of_nat i >? MAX_SYMS) with false
        by (symmetry; rewrite Z.gtb_ltb; apply Z.ltb_ge; lia).
      cbn [orb].
      assert (Hdec : set l (Z.of_nat i) (to_uint32 (get l (Z.of_nat i) - 1))
                     = decrement_first_max l).
      { unfold decrement_first_max. rewrite Hi, get_of_nat, Hnth.
        rewrite to_uint32_id by lia. reflexivity. }
      rewrite Hdec. rewrite (to_int32_id (updated - 1)) by lia.
      assert (Hne1 : decrement_first_max l <> []).
      { intros Hnil. rewrite Hnil in Hlen1. destruct l; [congruence | discriminate]. }
      destruct (IH (decrement_first_max l) (updated - 1) Hne1 Hok1 ltac:(lia) ltac:(lia)
                  ltac:(lia) ltac:(lia) ltac:(lia)) as (Hrun & Hok' & Hsum' & Hlen').
      assert (Hk : k = S (Z.to_nat (updated - 1 - new_table_size))) by (unfold k; lia).
      unfold l'. rewrite Hk, Nat.iter_succ_r. rewrite Hrun.
      split; [f_equal; f_equal; lia |].
      split; [exact Hok' |]. split; [rewrite Hsum'; lia | lia].
    + assert (Hle : updated <= new_table_size).
      { rewrite Z.gtb_ltb in E. apply Z.ltb_ge in E. exact E. }
      assert (Hk : k = 0%nat) by (unfold k; lia).
      unfold l'. rewrite Hk. cbn [Nat.iter]. rewrite Z.sub_0_r. auto.
Qed.

Lemma grow_spec MAX_SYMS new_table_size l updated :
  l <> [] -> counts_ok l -> sum_list l = updated ->
  Z.of_nat (length l) <= MAX_SYMS ->
  updated <= new_table_size -> new_table_size <= 2 ^ 30 ->
  let l' := if updated <? new_table_size
            then add_to_first_max (new_table_size - updated) l else l in
  grow MAX_SYMS new_table_size l updated = RET_OK l'
  /\ Forall (fun e => 1 <= e) l' /\ sum_list l' = new_table_size /\ length l' = length l.
Proof.
  intros Hne Hok Hsum Hms Hle Hnew l'. unfold grow, l'.
  assert (Hup : 0 <= updated).
  { rewrite <- Hsum. apply sum_list_nonneg.
    eapply Forall_impl; [| exact Hok]. simpl. intros; lia. }
  destruct (updated <? new_table_size) eqn:E.
  - apply Z.ltb_lt in E.
    destruct (first_max_facts l Hne Hok) as (i & Hi & Hg & Hlt & Hnth & Hmax).
    rewrite Hg.
    replace (Z.of_nat i <? 0) with false by (symmetry; apply Z.ltb_ge; lia).
    replace (Z.of_nat i >=? MAX_SYMS) with false
      by (symmetry; rewrite Z.geb_leb; apply Z.leb_gt; lia).
    cbn [orb]. unfold add_to_first_max. rewrite Hi, !set_of_nat, !get_of_nat, Hnth.
    rewrite to_uint32_id by lia.
    split; [reflexivity |]. split; [| split].
    + apply update_Forall; [| lia].
      eapply Forall_impl; [| exact Hok]. simpl. intros; lia.
    + rewrite update_nth_sum by exact Hlt. lia.
    + apply update_length.
  - apply Z.ltb_ge in E. split; [reflexivity |]. split; [| split].
    + eapply Forall_impl; [| exact Hok]. simpl. intros; lia.
    + lia.
    + reflexivity.
Qed.

(** ** NormalizeFrequency *)

Lemma sum_list_bound_nonneg l x :
  Forall (fun f => 0 <= f) l -> In x l -> 0 <= x <= sum_list l.
Proof.
  intros Hall. induction Hall as [| f r Hf Hr IH]; intros Hin; [contradiction |].
  assert (0 <= sum_list r) by (clear - Hr; induction Hr; simpl; lia).
  simpl. destruct Hin as [-> | Hin]; [lia |]. specialize (IH Hin). lia.
Qed.

Section NormalizeFrequency.
Variables MAX_SYMS MAX_TABLE_LOG : Z.
Hypothesis table_log_range : 0 <= MAX_TABLE_LOG <= 16.
Hypothesis syms_fit : MAX_SYMS <= 2 ^ MAX_TABLE_LOG.

Variable q : FSEQuant.
Hypothesis size_ok : size q <= MAX_SYMS.
Hypothesis entries_ok : Forall (fun f => 0 <= f < 2 ^ 32) (frequency q).
Hypothesis sum_ok : 0 < sum_list (frequency q) < 2 ^ 31.

Lemma table_log_facts :
  table_log_of MAX_TABLE_LOG q = Z.min MAX_TABLE_LOG (CountBits (size q) + 3)
  /\ 0 <= table_log_of MAX_TABLE_LOG q <= 16
  /\ size q <= target_of MAX_TABLE_LOG q
  /\ to_int32 (Z.shiftl 1 (table_log_of MAX_TABLE_LOG q)) = target_of MAX_TABLE_LOG q
  /\ 1 <= target_of MAX_TABLE_LOG q <= 65536.
Proof.
  unfold target_of. set (table_log := table_log_of MAX_TABLE_LOG q).
  assert (Hsz : 0 <= size q) by (unfold size; lia).
  assert (Hp : 2 ^ MAX_TABLE_LOG <= 2 ^ 16) by (apply Z.pow_le_mono_r; lia).
  assert (Hu : to_uint32 (size q) = size q) by (apply to_uint32_id; lia).
  assert (Htl : table_log = Z.min MAX_TABLE_LOG (CountBits (size q) + 3)).
  { unfold table_log, table_log_of, kFseTableExtendSize. now rewrite Hu. }
  assert (Hcb : 0 <= CountBits (size q)).
  { unfold CountBits. destruct (size q <=? 0); [lia |].
    pose proof (Z.log2_nonneg (size q)). lia. }
  assert (Hr : 0 <= table_log <= 16) by lia.
  assert (Ht : 1 <= 2 ^ table_log <= 65536).
  { split.
    - pose proof (Z.pow_pos_nonneg 2 table_log ltac:(lia) ltac:(lia)). lia.
    - change 65536 with (2 ^ 16). apply Z.pow_le_mono_r; lia. }
  repeat split; try lia.
  - rewrite Htl.
    destruct (Z.min_spec MAX_TABLE_LOG (CountBits (size q) + 3)) as [[_ ->] | [_ ->]]; [lia |].
    pose proof (CountBits_pow2_gt (size q) Hsz).
    assert (2 ^ CountBits (size q) <= 2 ^ (CountBits (size q) + 3))
      by (apply Z.pow_le_mono_r; lia).
    lia.
  - rewrite Z.shiftl_1_l. apply to_int32_id. lia.
Qed.

Lemma scaled_facts :
  counts_ok (rescaled MAX_TABLE_LOG q)
  /\ sum_list (rescaled MAX_TABLE_LOG q) <= 2 * size q + target_of MAX_TABLE_LOG q
  /\ length (rescaled MAX_TABLE_LOG q) = length (frequency q).
Proof.
  destruct table_log_facts as (_ & _ & _ & _ & Ht).
  set (target := target_of MAX_TABLE_LOG q) in *.
  assert (Hall : Forall (fun f => 0 <= f <= sum_list (frequency q)) (frequency q)).
  { apply Forall_forall. intros x Hx. apply sum_list_bound_nonneg; [| exact Hx].
    eapply Forall_impl; [| exact entries_ok]. simpl. intros; lia. }
  split; [| split].
  - unfold counts_ok, rescaled, ratio_of. fold target.
    pose proof (normalize_entries (sum_list (frequency q)) target ltac:(lia) ltac:(lia)
                  ltac:(lia) (frequency q) Hall) as H.
    eapply Forall_impl; [| exact H]. simpl. intros; lia.
  - unfold rescaled, ratio_of, size. fold target.
    apply (normalize_sum (sum_list (frequency q)) target); try lia. exact Hall.
  - unfold rescaled, normalize. apply length_map.
Qed.

(** The call succeeds and leaves the rescaled table adjusted to the target. *)
Lemma NormalizeFrequency_adjust :
  let adjusted := adjust_to (target_of MAX_TABLE_LOG q) (rescaled MAX_TABLE_LOG q) in
  NormalizeFrequency MAX_SYMS MAX_TABLE_LOG q
  = RET_OK ({| symbol_table := symbol_table q;
               frequency := adjusted;
               centroids := centroids q |}, table_log_of MAX_TABLE_LOG q)
  /\ Forall (fun e => 1 <= e) adjusted
  /\ sum_list adjusted = target_of MAX_TABLE_LOG q
  /\ length adjusted = length (frequency q).
Proof.
  intros adjusted.
  destruct table_log_facts as (_ & Htl & Hsz & Hnew & Ht).
  destruct scaled_facts as (Hok & Hsum & Hlen).
  set (target := target_of MAX_TABLE_LOG q) in *.
  set (scaled := rescaled MAX_TABLE_LOG q) in *.
  assert (Hnn : Forall (fun f => 0 <= f) (frequency q)).
  { eapply Forall_impl; [| exact entries_ok]. simpl. intros; lia. }
  assert (Hne : scaled <> []).
  { intros Hnil. rewrite Hnil in Hlen. simpl in Hlen.
    destruct (frequency q); [simpl in sum_ok; lia | discriminate]. }
  assert (Hszn : size q = Z.of_nat (length scaled)) by (unfold size; now rewrite Hlen).
  assert (Hs0 : 0 <= sum_list scaled).
  { apply sum_list_nonneg. eapply Forall_impl; [| exact Hok]. simpl. intros; lia. }
  assert (Hp : 2 ^ MAX_TABLE_LOG <= 2 ^ 16) by (apply Z.pow_le_mono_r; lia).
  unfold NormalizeFrequency. rewrite Hnew.
  rewrite (sum_int_exact (frequency q)) by (try exact Hnn; lia).
  replace (sum_list (frequency q) =? 0) with false by (symmetry; apply Z.eqb_neq; lia).
  change (normalize _ (frequency q)) with scaled.
  rewrite (sum_int_exact scaled) by (try apply (counts_ok_nonneg _ Hok); lia).
  destruct (shrink_spec MAX_SYMS target (Z.to_nat (sum_list scaled - target)) scaled
              (sum_list scaled) Hne Hok eq_refl ltac:(lia) ltac:(lia) ltac:(lia) ltac:(lia))
    as (Hrun & Hok1 & Hsum1 & Hlen1).
  rewrite Hrun.
  set (k := Z.to_nat (sum_list scaled - target)) in *.
  set (l1 := Nat.iter k decrement_first_max scaled) in *.
  assert (Hne1 : l1 <> []).
  { intros Hnil. rewrite Hnil in Hlen1. destruct scaled; [congruence | discriminate]. }
  destruct (grow_spec MAX_SYMS target l1 (sum_list scaled - Z.of_nat k) Hne1 Hok1 Hsum1
              ltac:(lia) ltac:(lia) ltac:(change (2 ^ 30) with 1073741824; lia))
    as (Hgrow & Hall2 & Hsum2 & Hlen2).
  rewrite Hgrow.
  assert (Hadj : (if sum_list scaled - Z.of_nat k <? target
                  then add_to_first_max (target - (sum_list scaled - Z.of_nat k)) l1
                  else l1) = adjusted).
  { unfold adjusted, adjust_to.
    destruct (sum_list scaled >? target) eqn:E.
    - apply Z.gtb_lt in E.
      replace (sum_list scaled - Z.of_nat k <? target) with false
        by (symmetry; apply Z.ltb_ge; lia).
      reflexivity.
    - rewrite Z.gtb_ltb in E. apply Z.ltb_ge in E.
      assert (Hk : k = 0%nat) by lia.
      unfold l1. rewrite Hk. cbn [Nat.iter]. rewrite Z.sub_0_r. reflexivity. }
  rewrite Hadj in *.
  split; [reflexivity |]. split; [exact Hall2 |]. split; [exact Hsum2 | lia].
Qed.
End NormalizeFrequency.

(** C1: for a histogram of at most [MAX_SYMS] entries of type [uint32_t]
    whose sum is positive and fits the [int] accumulator of the source,
    [NormalizeFrequency] returns [RET_OK]; it leaves a table of the same
    length whose entries are all at least 1 and sum to [2^table_log], where
    [table_log = min(MAX_TABLE_LOG, CountBits(size) + 3)] is the value it
    stores through its second argument.  The two limits are related as in
    the source: an alphabet of [MAX_SYMS] symbols fits a table of
    [2^MAX_TABLE_LOG <= 2^16] slots. *)
Theorem NormalizeFrequency_invariant :
  forall (MAX_SYMS MAX_TABLE_LOG : Z) (q : FSEQuant),
    0 <= MAX_TABLE_LOG <= 16 ->
    MAX_SYMS <= 2 ^ MAX_TABLE_LOG ->
    size q <= MAX_SYMS ->
    Forall (fun f => 0 <= f < 2 ^ 32) (frequency q) ->
    0 < sum_list (frequency q) < 2 ^ 31 ->
    exists q',
      NormalizeFrequency MAX_SYMS MAX_TABLE_LOG q
        = RET_OK (q', Z.min MAX_TABLE_LOG (CountBits (size q) + 3))
      /\ length (frequency q') = length (frequency q)
      /\ Forall (fun f => 1 <= f) (frequency q')
      /\ sum_list (frequency q') = 2 ^ Z.min MAX_TABLE_LOG (CountBits (size q) + 3).
Proof.
  intros MS MTL q Hmtl Hms Hsize Hentries Hsum.
  destruct (table_log_facts MS MTL Hmtl Hms q Hsize) as (Htl & _).
  destruct (NormalizeFrequency_adjust MS MTL Hmtl Hms q Hsize Hentries Hsum)
    as (Hrun & Hall & Hs & Hlen).
  rewrite <- Htl. eexists. split; [exact Hrun |]. cbn [frequency]. auto.
Qed.

Lemma NormalizeFrequency_invariant_witness :
  exists q',
    NormalizeFrequency 65534 16
      {| symbol_table := [0; 1; 0; 2]; frequency := [5; 3; 2]; centroids := [1; 2; 3] |}
      = RET_OK (q', 5)
    /\ length (frequency q') = 3%nat
    /\ Forall (fun f => 1 <= f) (frequency q')
    /\ sum_list (frequency q') = 2 ^ 5.
Proof.
  apply (NormalizeFrequency_invariant 65534 16
           {| symbol_table := [0; 1; 0; 2]; frequency := [5; 3; 2]; centroids := [1; 2; 3] |}).
  - lia.
  - lia.
  - unfold size. cbn [frequency length]. lia.
  - cbn [frequency]. repeat constructor; lia.
  - cbn [frequency sum_list fold_right]. lia.
Defined.

(** C5: after the rescaling step ([normalize], round half up with a floor
    of 1), [NormalizeFrequency] leaves [adjust_to target scaled]: with a sum
    above the target, one decrement of the first index that holds the maximum
    per unit of excess, the maximum being looked up again before each
    decrement; with a sum below the target, the whole deficit added to the
    first index that holds the maximum, in one step.  On the rescaled table
    [GetMaxIndex] is that first index, and the adjusted table sums to the
    target. *)
Theorem NormalizeFrequency_adjusts_first_maximum :
  forall (MAX_SYMS MAX_TABLE_LOG : Z) (q : FSEQuant),
    0 <= MAX_TABLE_LOG <= 16 ->
    MAX_SYMS <= 2 ^ MAX_TABLE_LOG ->
    size q <= MAX_SYMS ->
    Forall (fun f => 0 <= f < 2 ^ 32) (frequency q) ->
    0 < sum_list (frequency q) < 2 ^ 31 ->
    let table_log := table_log_of MAX_TABLE_LOG q in
    let target := 2 ^ table_log in
    let rat := Float32.div (Float32.of_Z target) (Float32.of_Z (sum_list (frequency q))) in
    let scaled := normalize rat (frequency q) in
    NormalizeFrequency MAX_SYMS MAX_TABLE_LOG q
      = RET_OK ({| symbol_table := symbol_table q;
                   frequency := adjust_to target scaled;
                   centroids := centroids q |}, table_log)
    /\ adjust_to target scaled
       = (if sum_list scaled >? target
          then Nat.iter (Z.to_nat (sum_list scaled - target)) decrement_first_max scaled
          else if sum_list scaled <? target
               then set scaled (first_max_index scaled)
                        (get scaled (first_max_index scaled) + (target - sum_list scaled))
               else scaled)
    /\ GetMaxIndex scaled = first_max_index scaled
    /\ sum_list (adjust_to target scaled) = target.
Proof.
  intros MS MTL q Hmtl Hms Hsize Hentries Hsum table_log target rat scaled.
  destruct (NormalizeFrequency_adjust MS MTL Hmtl Hms q Hsize Hentries Hsum)
    as (Hrun & _ & Hs & _).
  destruct (scaled_facts MS MTL Hmtl Hms q Hsize Hentries Hsum) as (Hok & _ & Hlen).
  change (rescaled MTL q) with scaled in Hrun, Hs, Hok, Hlen.
  change (target_of MTL q) with target in Hrun, Hs.
  split; [exact Hrun |]. split; [reflexivity |]. split; [| exact Hs].
  apply GetMaxIndex_first_max; [| now apply counts_ok_weaken].
  intros Hnil. rewrite Hnil in Hlen. simpl in Hlen.
  destruct (frequency q); [simpl in Hsum; lia | discriminate].
Qed.

Lemma NormalizeFrequency_adjusts_first_maximum_witness :
  NormalizeFrequency 65534 16
    {| symbol_table := [0; 1; 0; 2]; frequency := [50; 0; 3; 2; 1000]; centroids := [] |}
  = RET_OK ({| symbol_table := [0; 1; 0; 2];
               frequency := [3; 1; 1; 1; 58];
               centroids := [] |}, 6).
Proof.
  rewrite (proj1 (NormalizeFrequency_adjusts_first_maximum 65534 16
             {| symbol_table := [0; 1; 0; 2]; frequency := [50; 0; 3; 2; 1000];
                centroids := [] |}
             ltac:(lia) ltac:(lia) ltac:(unfold size; cbn [frequency length]; lia)
             ltac:(cbn [frequency]; repeat constructor; lia)
             ltac:(cbn [frequency sum_list fold_right]; lia))).
  vm_compute. reflexivity.
Defined.

(** ** Evaluations on small inputs *)

Example of_Z_rounds_to_even :
  Float32.of_Z 16777217 = inject_Z 16777216 /\ Float32.of_Z 16777219 = inject_Z 16777220.
Proof. split; vm_compute; reflexivity. Qed.

(** [1.0f / 3.0f] is [0x3eaaaaab]. *)
Example div_one_third : Float32.div 1 3 = (11184811 # 33554432)%Q.
Proof. vm_compute. reflexivity. Qed.

Example GetMaxIndex_first_of_ties : GetMaxIndex [3; 7; 7; 2] = 1.
Proof. reflexivity. Qed.

Example GetMaxIndex_empty : GetMaxIndex [] = -1.
Proof. reflexivity. Qed.

(** Above [2^24] the comparison in [float] no longer tells neighbours
    apart: [16777217] is converted to [16777216.0f]. *)
Example GetMaxIndex_float_ties : GetMaxIndex [16777216; 16777217] = 0.
Proof. vm_compute. reflexivity. Qed.

Example NormalizeFrequency_5_3_2 :
  NormalizeFrequency 65534 16
    {| symbol_table := []; frequency := [5; 3; 2]; centroids := [] |}
  = RET_OK ({| symbol_table := []; frequency := [16; 10; 6]; centroids := [] |}, 5).
Proof. vm_compute. reflexivity. Qed.

Example NormalizeFrequency_all_zero :
  NormalizeFrequency 65534 16
    {| symbol_table := []; frequency := [0; 0; 0]; centroids := [] |}
  = RET_ERROR.
Proof. vm_compute. reflexivity. Qed.

Example FSECreateStatesForEncoding_8_5_3 :
  FSECreateStatesForEncoding [8; 5; 3] 4 (repeat 0 16%nat) (repeat 0 16%nat)
  = RET_OK {| delta_bit_count := [65520; 65526; 131060];
              delta_state := [-8; 3; 10];
              coding_table := [16; 17; 20; 23; 26; 27; 29; 30; 18; 21; 24; 28; 31; 19; 22; 25];
              symtable := [0; 0; 1; 2; 0; 1; 2; 0; 1; 2; 0; 0; 1; 0; 0; 1] |}.
Proof. vm_compute. reflexivity. Qed.

Example SerializingToBuffer_one_byte :
  SerializingToBuffer FSEBitStream.empty
    {| symbol_table := []; frequency := [16; 10; 6]; centroids := [1; 2; 3] |} 5 1
  = Ser_ERROR [{| st_off := 0; st_width := 2; st_val := 3 |}].
Proof. vm_compute. reflexivity. Qed.

Example Compress_5_3_2 :
  Compress 65534 16
    {| symbol_table := [0; 1; 0; 2; 0; 0; 1; 1; 2; 0]; frequency := [5; 3; 2];
       centroids := [1; 2; 3] |} 64 (repeat 170 64%nat)
  = RET_OK [3; 0; 5; 0; 2; 0; 0; 0; 16; 0; 0; 0; 10; 0; 0; 0; 6; 0; 0; 0; 0; 0; 0; 0;
            1; 0; 0; 0; 2; 0; 0; 0; 3; 0; 0; 0; 0; 0; 0; 0;
            0; 0; 0; 0; 0; 0; 30; 33; 0; 0; 0; 0; 0; 0; 0; 0; 0].
Proof. vm_compute. reflexivity. Qed.

(** * Further properties of the encoder *)

(** ** Sums of non-negative tables *)

Lemma sum_list_ge_0 l : Forall (fun f => 0 <= f) l -> 0 <= sum_list l.
Proof. induction 1; simpl; lia. Qed.

Lemma sum_list_app l1 l2 : sum_list (l1 ++ l2) = sum_list l1 + sum_list l2.
Proof. unfold sum_list. induction l1 as [| a l1 IH]; simpl; lia. Qed.

Lemma sum_list_firstn_mono : forall l (i j : nat),
  Forall (fun f => 0 <= f) l -> (i <= j)%nat ->
  0 <= sum_list (firstn i l) <= sum_list (firstn j l).
Proof.
  induction l as [| a l IH]; intros i j Hall Hij.
  - rewrite !firstn_nil. simpl. lia.
  - inversion Hall as [| ? ? Ha Hl]; subst.
    destruct i as [| i], j as [| j]; try lia; cbn [firstn sum_list fold_right].
    + lia.
    + fold (sum_list (firstn j l)). specialize (IH 0%nat j Hl ltac:(lia)).
      simpl in IH. lia.
    + fold (sum_list (firstn i l)). fold (sum_list (firstn j l)).
      specialize (IH i j Hl ltac:(lia)). lia.
Qed.

Lemma sum_list_firstn_bounds l (i : nat) :
  Forall (fun f => 0 <= f) l -> 0 <= sum_list (firstn i l) <= sum_list l.
Proof.
  intros Hall. destruct (Nat.le_gt_cases i (length l)) as [H | H].
  - rewrite <- (firstn_all l) at 3. now apply sum_list_firstn_mono.
  - rewrite firstn_all2 by lia. split; [now apply sum_list_ge_0 | lia].
Qed.

(** ** GetMaxIndex on arbitrary arrays *)

Lemma GetMaxIndex_loop_spec : forall arr i m idx,
  let r := GetMaxIndex_loop arr i (Some m) idx in
  (r = idx /\ Forall (fun a => (Float32.of_Z a <= m)%Q) arr)
  \/ (exists k : nat,
        r = i + Z.of_nat k /\ (k < length arr)%nat
        /\ (m < Float32.of_Z (nth k arr 0%Z))%Q
        /\ Forall (fun a => (Float32.of_Z a <= Float32.of_Z (nth k arr 0%Z))%Q) arr
        /\ Forall (fun a => (Float32.of_Z a < Float32.of_Z (nth k arr 0%Z))%Q) (firstn k arr)).
Proof.
  induction arr as [| a rest IH]; intros i m idx r.
  - left. split; [reflexivity | constructor].
  - unfold r. cbn [GetMaxIndex_loop]. unfold Float32.gt.
    destruct (Qle_bool (Float32.of_Z a) m) eqn:E; cbn [negb].
    + apply Qle_bool_iff in E.
      destruct (IH (i + 1) m idx) as [[Hr Hall] | (k & Hr & Hk & Hm & Hall & Hbefore)].
      * left. split; [exact Hr | constructor; assumption].
      * right. exists (S k). cbn [nth firstn length].
        split; [rewrite Hr, Nat2Z.inj_succ; lia |]. split; [lia |]. split; [exact Hm |].
        split; constructor; try assumption.
        -- apply Qlt_le_weak. eapply Qle_lt_trans; eassumption.
        -- eapply Qle_lt_trans; eassumption.
    + assert (Hgt : (m < Float32.of_Z a)%Q).
      { apply Qnot_le_lt. intros H. apply Qle_bool_iff in H. congruence. }
      destruct (IH (i + 1) (Float32.of_Z a) i) as [[Hr Hall] | (k & Hr & Hk & Hm & Hall & Hbefore)].
      * right. exists 0%nat. cbn [nth firstn length].
        split; [rewrite Hr; lia |]. split; [lia |]. split; [exact Hgt |].
        split; constructor; try assumption. apply Qle_refl.
      * right. exists (S k). cbn [nth firstn length].
        split; [rewrite Hr, Nat2Z.inj_succ; lia |]. split; [lia |].
        split; [eapply Qlt_trans; eassumption |].
        split; constructor; try assumption. apply Qlt_le_weak. exact Hm.
Qed.

(** X1: [GetMaxIndex] returns -1 for an empty array; for a non-empty array
    of any content it returns an index of the array whose entry, converted to
    [float], is not exceeded by any entry and is strictly above every entry
    before it. *)
Theorem GetMaxIndex_in_range :
  forall (a : Z) (rest : list Z),
    GetMaxIndex [] = -1
    /\ exists k : nat,
         GetMaxIndex (a :: rest) = Z.of_nat k
         /\ (k < length (a :: rest))%nat
         /\ Forall (fun x => (Float32.of_Z x <= Float32.of_Z (nth k (a :: rest) 0%Z))%Q)
                   (a :: rest)
         /\ Forall (fun x => (Float32.of_Z x < Float32.of_Z (nth k (a :: rest) 0%Z))%Q)
                   (firstn k (a :: rest)).
Proof.
  intros a rest. split; [reflexivity |].
  unfold GetMaxIndex. cbn [GetMaxIndex_loop].
  destruct (GetMaxIndex_loop_spec rest (0 + 1) (Float32.of_Z a) 0)
    as [[Hr Hall] | (k & Hr & Hk & Hm & Hall & Hbefore)].
  - exists 0%nat. cbn [nth firstn length]. split; [exact Hr |]. split; [lia |].
    split; constructor; try assumption. apply Qle_refl.
  - exists (S k). cbn [nth firstn length].
    split; [rewrite Hr, Nat2Z.inj_succ; lia |]. split; [lia |].
    split; constructor; try assumption. apply Qlt_le_weak. exact Hm.
Qed.

Lemma first_index_of_before : forall l v j,
  (j < first_index_of v l)%nat -> nth j l 0 <> v.
Proof.
  induction l as [| a rest IH]; intros v j Hj; [simpl in Hj; lia |].
  cbn [first_index_of] in Hj. destruct (a =? v) eqn:E; [lia |].
  apply Z.eqb_neq in E. destruct j; [exact E |].
  cbn [nth]. apply IH. lia.
Qed.

Lemma max_of_upper l x : In x l -> x <= max_of l.
Proof.
  induction l as [| a l IH]; intros Hin; [contradiction |].
  simpl. destruct Hin as [-> | Hin]; [lia |]. specialize (IH Hin). lia.
Qed.

(** X2: on a non-empty array whose entries are below [2^24], where the
    conversion to [float] loses nothing, [GetMaxIndex] returns the first
    index that holds the largest entry: no entry is larger, and every entry
    before it is strictly smaller. *)
Theorem GetMaxIndex_first_largest :
  forall (arr : list Z),
    arr <> [] ->
    Forall (fun a => 0 <= a < 2 ^ 24) arr ->
    exists k : nat,
      GetMaxIndex arr = Z.of_nat k
      /\ (k < length arr)%nat
      /\ Forall (fun x => x <= nth k arr 0) arr
      /\ Forall (fun x => x < nth k arr 0) (firstn k arr).
Proof.
  intros arr Hne Hall.
  assert (Hnn : Forall (fun a => 0 <= a) arr).
  { eapply Forall_impl; [| exact Hall]. simpl. intros; lia. }
  destruct (first_index_of_max arr Hne Hnn) as [Hlt Hnth].
  exists (first_index_of (max_of arr) arr).
  split; [now apply GetMaxIndex_first_max |]. split; [exact Hlt |].
  rewrite Hnth. split.
  - apply Forall_forall. intros x Hx. now apply max_of_upper.
  - apply Forall_forall. intros x Hx.
    apply In_nth with (d := 0) in Hx. destruct Hx as (j & Hj & <-).
    rewrite length_firstn in Hj.
    rewrite nth_firstn. replace (j <? first_index_of (max_of arr) arr)%nat with true
      by (symmetry; apply Nat.ltb_lt; lia).
    assert (Hne' : nth j arr 0 <> max_of arr) by (apply first_index_of_before; lia).
    assert (Hle : nth j arr 0 <= max_of arr) by (apply max_of_upper, nth_In; lia).
    lia.
Qed.

Lemma GetMaxIndex_first_largest_witness :
  exists k : nat,
    GetMaxIndex [3; 7; 7; 2] = Z.of_nat k
    /\ (k < length [3; 7; 7; 2])%nat
    /\ Forall (fun x => x <= nth k [3; 7; 7; 2] 0) [3; 7; 7; 2]
    /\ Forall (fun x => x < nth k [3; 7; 7; 2] 0) (firstn k [3; 7; 7; 2]).
Proof.
  apply GetMaxIndex_first_largest.
  - discriminate.
  - repeat constructor; lia.
Defined.

(** ** NormalizeFrequency: the error path *)

Lemma sum_list_zero l :
  Forall (fun f => 0 <= f) l -> sum_list l = 0 -> Forall (fun f => f = 0) l.
Proof.
  induction 1 as [| a l Ha Hl IH]; intros Hs; [constructor |].
  cbn [sum_list fold_right] in Hs.
  assert (H0 := sum_list_ge_0 l Hl). unfold sum_list in *.
  constructor; [lia | apply IH; lia].
Qed.

Lemma sum_list_all_zero l : Forall (fun f => f = 0) l -> sum_list l = 0.
Proof.
  induction 1 as [| a l Ha Hl IH]; [reflexivity |].
  cbn [sum_list fold_right]. unfold sum_list in IH. lia.
Qed.

(** X3: on a histogram of at most [MAX_SYMS] entries of type [uint32_t]
    whose sum fits the [int] accumulator, [NormalizeFrequency] returns
    [RET_ERROR] exactly when every count is zero (an empty histogram
    included); the index guards of its two adjustment loops never fire. *)
Theorem NormalizeFrequency_error_iff_all_zero :
  forall (MAX_SYMS MAX_TABLE_LOG : Z) (q : FSEQuant),
    0 <= MAX_TABLE_LOG <= 16 ->
    MAX_SYMS <= 2 ^ MAX_TABLE_LOG ->
    size q <= MAX_SYMS ->
    Forall (fun f => 0 <= f < 2 ^ 32) (frequency q) ->
    sum_list (frequency q) < 2 ^ 31 ->
    NormalizeFrequency MAX_SYMS MAX_TABLE_LOG q = RET_ERROR
    <-> Forall (fun f => f = 0) (frequency q).
Proof.
  intros MS MTL q Hmtl Hms Hsize Hentries Hsum.
  assert (Hnn : Forall (fun f => 0 <= f) (frequency q)).
  { eapply Forall_impl; [| exact Hentries]. simpl. intros; lia. }
  assert (H0 := sum_list_ge_0 _ Hnn).
  split.
  - intros Herr. apply sum_list_zero; [exact Hnn |].
    destruct (Z.eq_dec (sum_list (frequency q)) 0) as [E | E]; [exact E | exfalso].
    destruct (NormalizeFrequency_adjust MS MTL Hmtl Hms q Hsize Hentries ltac:(lia))
      as (Hrun & _).
    rewrite Hrun in Herr. discriminate.
  - intros Hz. apply sum_list_all_zero in Hz.
    unfold NormalizeFrequency.
    rewrite (sum_int_exact (frequency q)) by (try exact Hnn; lia).
    rewrite Hz. reflexivity.
Qed.

Lemma NormalizeFrequency_error_iff_all_zero_witness :
  NormalizeFrequency 65534 16
    {| symbol_table := [0; 1]; frequency := [0; 0; 0]; centroids := [1; 2; 3] |}
  = RET_ERROR.
Proof.
  apply (NormalizeFrequency_error_iff_all_zero 65534 16
           {| symbol_table := [0; 1]; frequency := [0; 0; 0]; centroids := [1; 2; 3] |}).
  - lia.
  - lia.
  - unfold size. cbn [frequency length]. lia.
  - cbn [frequency]. repeat constructor; lia.
  - cbn [frequency sum_list fold_right]. lia.
  - cbn [frequency]. repeat constructor.
Defined.

(** ** NormalizeFrequency on a table that is already normalised *)

Section ExactRounding.
Import Float32.
Open Scope Q_scope.

(** A value [m * 2^k] with [0 < m < 2^24] is a [float]: rounding leaves it
    as it is. *)
Lemma round_exact (x : Q) (m k : Z) :
  (0 < m < 2 ^ 24)%Z -> x == inject_Z m * 2 ^ k -> round x == x.
Proof.
  intros Hm Hx.
  assert (Hm0 : 0 < inject_Z m) by (apply (inject_Z_lt 0); lia).
  assert (Hm1 : inject_Z m < 2 ^ 24).
  { rewrite <- pow2_inject by lia. apply inject_Z_lt. lia. }
  pose proof (pow2_pos k) as Hk.
  assert (Hpos : 0 < x).
  { rewrite Hx. apply Qmult_lt_0_compat; assumption. }
  unfold round.
  destruct (Qeq_bool x 0) eqn:E0.
  { apply Qeq_bool_iff in E0. rewrite E0 in Hpos. discriminate. }
  rewrite (Qabs_pos_eq _ Hpos).
  destruct (mag_spec _ Hpos) as [Hlow _].
  assert (Hup : x < 2 ^ (24 + k)).
  { rewrite Hx, pow2_add. apply Qmult_lt_compat_r; assumption. }
  assert (Hmag : (mag x - 1 < 24 + k)%Z).
  { destruct (Z_lt_ge_dec (mag x - 1) (24 + k)) as [H | H]; [exact H | exfalso].
    assert (H' : 2 ^ (24 + k) <= 2 ^ (mag x - 1)) by (apply pow2_le; lia).
    lra. }
  set (e := (mag x - prec)%Z) in *.
  assert (He : (0 <= k - e)%Z) by (unfold e, prec; lia).
  assert (Hsplit : 2 ^ k == 2 ^ (k - e) * 2 ^ e).
  { rewrite <- pow2_add. replace (k - e + e)%Z with k by lia. reflexivity. }
  pose proof (pow2_pos e) as Hpe.
  assert (Hq : x / 2 ^ e == inject_Z (m * 2 ^ (k - e))).
  { rewrite inject_Z_mult, pow2_inject by lia. rewrite Hx, Hsplit. field. lra. }
  rewrite (rne_comp _ _ Hq), rne_inject.
  rewrite inject_Z_mult, pow2_inject by lia. rewrite Hx, Hsplit. ring.
Qed.

Lemma round_exact_Z (x : Q) (m : Z) :
  (0 < m < 2 ^ 24)%Z -> x == inject_Z m -> round x == inject_Z m.
Proof.
  intros Hm Hx. rewrite (round_exact x m 0 Hm); [exact Hx |].
  rewrite Hx. change (2 ^ 0) with 1. ring.
Qed.

Lemma floor_half (f : Z) (x : Q) : x == (1 # 2) + inject_Z f -> Qfloor x = f.
Proof.
  intros Hx. rewrite (Qfloor_comp _ _ Hx).
  pose proof (Qfloor_le ((1 # 2) + inject_Z f)) as Hlo.
  pose proof (Qlt_floor ((1 # 2) + inject_Z f)) as Hhi.
  set (k := Qfloor ((1 # 2) + inject_Z f)) in *.
  assert (H1 : (k < f + 1)%Z).
  { rewrite Zlt_Qlt, inject_Z_plus. change (inject_Z 1) with 1. lra. }
  assert (H2 : (f < k + 1)%Z).
  { rewrite Zlt_Qlt. rewrite inject_Z_plus in Hhi |- *. change (inject_Z 1) with 1 in *. lra. }
  lia.
Qed.

(** With a ratio of exactly 1 the rescaling step returns a count as it
    was. *)
Lemma rescale_same (t f : Z) :
  (1 <= t < 2 ^ 24)%Z -> (1 <= f < 2 ^ 23)%Z ->
  rescale (div (of_Z t) (of_Z t)) f = f.
Proof.
  intros Ht Hf.
  assert (Ht' : of_Z t == inject_Z t) by (apply of_Z_exact; lia).
  assert (Hf' : of_Z f == inject_Z f) by (apply of_Z_exact; lia).
  assert (Htp : 0 < inject_Z t) by (apply (inject_Z_lt 0); lia).
  assert (Hrat : div (of_Z t) (of_Z t) == 1).
  { unfold div. apply (round_exact_Z _ 1); [lia |].
    rewrite Ht'. change (inject_Z 1) with 1. field. lra. }
  assert (Hmul : mul (div (of_Z t) (of_Z t)) (of_Z f) == inject_Z f).
  { unfold mul. apply round_exact_Z; [lia |]. rewrite Hrat, Hf'. ring. }
  assert (Hadd : add kUpRoundOffSet (mul (div (of_Z t) (of_Z t)) (of_Z f))
                 == (1 # 2) + inject_Z f).
  { unfold add, kUpRoundOffSet.
    rewrite (round_exact _ (2 * f + 1) (-1)).
    - rewrite Hmul. reflexivity.
    - lia.
    - rewrite Hmul, inject_Z_plus, inject_Z_mult.
      change (inject_Z 1) with 1. change (inject_Z 2) with 2. change (2 ^ (-1)) with (1 # 2).
      ring. }
  unfold rescale, floorf. rewrite (floor_half f _ Hadd).
  rewrite to_int32_id by lia. rewrite Z.max_r by lia. apply to_uint32_id. lia.
Qed.
End ExactRounding.

(** X4: a table that is already normalised (every count at least 1, the
    counts summing to [2^table_log] for the [table_log] the function computes
    from the number of symbols) is a fixed point of [NormalizeFrequency]: the
    ratio is exactly 1, every count is rescaled to itself, neither adjustment
    loop runs and the call returns the input with that [table_log]. *)
Theorem NormalizeFrequency_fixed_point :
  forall (MAX_SYMS MAX_TABLE_LOG : Z) (q : FSEQuant),
    0 <= MAX_TABLE_LOG <= 16 ->
    Forall (fun f => 1 <= f) (frequency q) ->
    sum_list (frequency q) = 2 ^ table_log_of MAX_TABLE_LOG q ->
    NormalizeFrequency MAX_SYMS MAX_TABLE_LOG q = RET_OK (q, table_log_of MAX_TABLE_LOG q).
Proof.
  intros MS MTL q Hmtl Hall Hsum.
  set (tlog := table_log_of MTL q) in *.
  assert (Htl : 0 <= tlog <= 16).
  { unfold tlog, table_log_of, kFseTableExtendSize, CountBits.
    destruct (to_uint32 (size q) <=? 0).
    - lia.
    - pose proof (Z.log2_nonneg (to_uint32 (size q))). lia. }
  assert (Ht : 1 <= 2 ^ tlog <= 65536).
  { split.
    - pose proof (Z.pow_pos_nonneg 2 tlog ltac:(lia) ltac:(lia)). lia.
    - change 65536 with (2 ^ 16). apply Z.pow_le_mono_r; lia. }
  assert (Hnn : Forall (fun f => 0 <= f) (frequency q)).
  { eapply Forall_impl; [| exact Hall]. simpl. intros; lia. }
  assert (Hnew : to_int32 (Z.shiftl 1 tlog) = 2 ^ tlog).
  { rewrite Z.shiftl_1_l. apply to_int32_id. lia. }
  assert (Hcurr : sum_int (frequency q) = 2 ^ tlog).
  { rewrite sum_int_exact by (try exact Hnn; lia). exact Hsum. }
  assert (Hsame : normalize (Float32.div (Float32.of_Z (2 ^ tlog)) (Float32.of_Z (2 ^ tlog)))
                            (frequency q) = frequency q).
  { unfold normalize. rewrite <- (map_id (frequency q)) at 2.
    apply map_ext_in. intros f Hf. apply rescale_same; [lia |].
    pose proof (sum_list_bound _ _ Hall Hf) as Hle.
    rewrite Forall_forall in Hall. specialize (Hall f Hf). lia. }
  unfold NormalizeFrequency. fold tlog. rewrite Hnew, Hcurr.
  replace (2 ^ tlog =? 0) with false by (symmetry; apply Z.eqb_neq; lia).
  rewrite Hsame, Hcurr, Z.sub_diag. cbn [Z.to_nat shrink].
  replace (2 ^ tlog >? 2 ^ tlog) with false by (symmetry; rewrite Z.gtb_ltb; apply Z.ltb_irrefl).
  unfold grow. rewrite Z.ltb_irrefl.
  destruct q as [st fr ce]. reflexivity.
Qed.

Lemma NormalizeFrequency_fixed_point_witness :
  NormalizeFrequency 65534 16
    {| symbol_table := [0; 1; 0; 2]; frequency := [16; 10; 6]; centroids := [1; 2; 3] |}
  = RET_OK ({| symbol_table := [0; 1; 0; 2]; frequency := [16; 10; 6];
               centroids := [1; 2; 3] |},
            table_log_of 16 {| symbol_table := [0; 1; 0; 2]; frequency := [16; 10; 6];
                               centroids := [1; 2; 3] |}).
Proof.
  apply (NormalizeFrequency_fixed_point 65534 16
           {| symbol_table := [0; 1; 0; 2]; frequency := [16; 10; 6]; centroids := [1; 2; 3] |}).
  - lia.
  - cbn [frequency]. repeat constructor; lia.
  - reflexivity.
Defined.

(** ** FSECreateStatesForEncoding: the check after the spread *)

Lemma spread_final_pos tl freq symbol0 :
  0 <= tl <= 30 ->
  Forall (fun f => 0 <= f) freq ->
  exists s,
    spread (step_of tl) (tablemask_of tl) freq 0 (spread_start symbol0) = RET_OK s
    /\ sp_pos s = (sum_list freq * step_of tl) mod 2 ^ tl
    /\ sp_written s = map (stride_slot (step_of tl) (2 ^ tl)) (seq 0 (occurrences freq)).
Proof.
  intros Htl Hnn.
  assert (Hpow : 0 < 2 ^ tl) by (apply Z.pow_pos_nonneg; lia).
  destruct (spread_stride tl (step_of tl) freq 0 (spread_start symbol0) 0%nat Htl)
    as (s & Hrun & Hp & Hw).
  { simpl. unfold stride_slot. simpl. rewrite Z.mod_0_l; lia. }
  exists s. split; [exact Hrun |]. split; [| exact Hw].
  rewrite Hp. unfold stride_slot. simpl Nat.add.
  now rewrite occurrences_sum.
Qed.

(** X5: the only validation of [FSECreateStatesForEncoding] is the test
    [pos != 0] after the spread.  For a table size [2^table_log] whose stride
    is odd, a symbol table of that many slots and non-negative counts, the
    call returns [RET_ERROR] exactly when [2^table_log] does not divide the
    sum of the counts: a sum that is another multiple of the table size,
    zero included, passes the test. *)
Theorem FSECreateStatesForEncoding_rejects_non_multiples :
  forall (table_log : Z) (freq coding_table0 symbol_table0 : list Z),
    0 <= table_log <= 30 -> table_log <> 1 -> table_log <> 3 ->
    Forall (fun f => 0 <= f) freq ->
    Z.of_nat (length symbol_table0) = 2 ^ table_log ->
    FSECreateStatesForEncoding freq table_log coding_table0 symbol_table0 = RET_ERROR
    <-> ~ (2 ^ table_log | sum_list freq).
Proof.
  intros tl freq c0 s0 Htl H1 H3 Hnn _.
  assert (Hpow : 0 < 2 ^ tl) by (apply Z.pow_pos_nonneg; lia).
  destruct (spread_final_pos tl freq s0 Htl Hnn) as (s & Hrun & Hp & _).
  split.
  - intros Herr [c Hc].
    assert (Hzero : sp_pos s = 0).
    { rewrite Hp, Hc. replace (c * 2 ^ tl * step_of tl) with (c * step_of tl * 2 ^ tl) by ring.
      apply Z.mod_mul. lia. }
    destruct (spread_ok_create freq tl c0 s0 s Hrun Hzero) as (tables & Hc' & _).
    rewrite Hc' in Herr. discriminate.
  - intros Hnd.
    assert (Hnz : sp_pos s <> 0).
    { intros Hz. apply Hnd. rewrite Hp in Hz.
      apply Z.mod_divide in Hz; [| lia].
      assert (Hodd := step_of_odd tl Htl H1 H3).
      revert Hz Hodd. generalize (step_of tl). intros st Hz Hodd.
      rewrite <- (Z2Nat.id tl) in Hz |- * by lia.
      now apply (odd_stride_cancel _ _ st). }
    unfold FSECreateStatesForEncoding. rewrite Hrun.
    apply Z.eqb_neq in Hnz. rewrite Hnz. reflexivity.
Qed.

Lemma FSECreateStatesForEncoding_rejects_non_multiples_witness :
  FSECreateStatesForEncoding [8; 5; 2] 4 (repeat 0 16%nat) (repeat 0 16%nat) = RET_ERROR.
Proof.
  apply (FSECreateStatesForEncoding_rejects_non_multiples 4 [8; 5; 2]
           (repeat 0 16%nat) (repeat 0 16%nat)).
  - lia.
  - lia.
  - lia.
  - repeat constructor; lia.
  - reflexivity.
  - intros [c Hc]. cbn in Hc. lia.
Defined.

(** ** Arrays written once per slot *)

Lemma nth_update_same : forall l i v, (i < length l)%nat -> nth i (update l i v) 0 = v.
Proof.
  induction l as [| h t IH]; intros i v Hi; [simpl in Hi; lia |].
  destruct i; [reflexivity |]. cbn [update nth]. apply IH. simpl in Hi. lia.
Qed.

Lemma nth_update_other : forall l i j v, i <> j -> nth j (update l i v) 0 = nth j l 0.
Proof.
  induction l as [| h t IH]; intros i j v Hij; [reflexivity |].
  destruct i, j; cbn [update nth]; try reflexivity; try congruence.
  apply IH. congruence.
Qed.

Lemma set_length l i v : length (set l i v) = length l.
Proof. unfold set. destruct (i <? 0); [reflexivity | apply update_length]. Qed.

Lemma get_set_same l i v : 0 <= i < Z.of_nat (length l) -> get (set l i v) i = v.
Proof.
  intros Hi. unfold get, set.
  replace (i <? 0) with false by (symmetry; apply Z.ltb_ge; lia).
  apply nth_update_same. lia.
Qed.

Lemma get_set_other l i j v : 0 <= j -> i <> j -> get (set l i v) j = get l j.
Proof.
  intros Hj Hij. unfold get, set. destruct (i <? 0) eqn:E; [reflexivity |].
  apply Z.ltb_ge in E. apply nth_update_other. intros H. apply Hij.
  apply Z2Nat.inj; lia.
Qed.

Lemma store_all_length : forall ws t, length (store_all t ws) = length t.
Proof.
  unfold store_all. induction ws as [| w ws IH]; intros t; [reflexivity |].
  cbn [fold_left]. rewrite IH. apply set_length.
Qed.

Lemma store_all_app t ws1 ws2 : store_all t (ws1 ++ ws2) = store_all (store_all t ws1) ws2.
Proof. unfold store_all. apply fold_left_app. Qed.

Lemma store_all_untouched : forall ws t p,
  0 <= p -> ~ In p (map fst ws) -> get (store_all t ws) p = get t p.
Proof.
  unfold store_all. induction ws as [| w ws IH]; intros t p Hp Hnot; [reflexivity |].
  cbn [fold_left]. rewrite IH; [| exact Hp | intros H; apply Hnot; now right].
  apply get_set_other; [exact Hp |]. intros H. apply Hnot. now left.
Qed.

(** When no slot is stored to twice, a slot holds the value stored there. *)
Lemma store_all_get : forall ws t p v,
  NoDup (map fst ws) -> In (p, v) ws -> 0 <= p < Z.of_nat (length t) ->
  get (store_all t ws) p = v.
Proof.
  induction ws as [| w ws IH]; intros t p v Hnd Hin Hp; [contradiction |].
  cbn [map] in Hnd. inversion Hnd as [| ? ? Hnot Hnd']; subst.
  change (store_all t (w :: ws)) with (store_all (set t (fst w) (snd w)) ws).
  destruct Hin as [-> | Hin].
  - cbn [fst snd] in *. rewrite store_all_untouched by (try exact Hnot; lia).
    now apply get_set_same.
  - apply IH; [exact Hnd' | exact Hin | now rewrite set_length].
Qed.

Lemma list_as_gets (t : list Z) :
  t = map (get t) (slots (Z.of_nat (length t))).
Proof.
  unfold slots. rewrite Nat2Z.id, map_map.
  rewrite <- (map_id t) at 1. rewrite <- (map_nth_seq Z (fun x => x) t).
  apply map_ext. intros j. now rewrite get_of_nat.
Qed.

Lemma combine_app_same (A B : Type) : forall (a1 a2 : list A) (b1 b2 : list B),
  length a1 = length b1 ->
  combine (a1 ++ a2) (b1 ++ b2) = combine a1 b1 ++ combine a2 b2.
Proof.
  induction a1 as [| x a1 IH]; intros a2 b1 b2 Hlen; destruct b1 as [| y b1];
    try discriminate; [reflexivity |].
  cbn [app combine]. f_equal. apply IH. simpl in Hlen. congruence.
Qed.

Lemma combine_fst (A B : Type) : forall (a : list A) (b : list B),
  length a = length b -> map fst (combine a b) = a.
Proof.
  induction a as [| x a IH]; intros b Hlen; destruct b; try discriminate; [reflexivity |].
  cbn [combine map fst]. f_equal. apply IH. simpl in Hlen. congruence.
Qed.

Lemma combine_snd (A B : Type) : forall (a : list A) (b : list B),
  length a = length b -> map snd (combine a b) = b.
Proof.
  induction a as [| x a IH]; intros b Hlen; destruct b; try discriminate; [reflexivity |].
  cbn [combine map snd]. f_equal. apply IH. simpl in Hlen. congruence.
Qed.

(** An array of [n] slots that is stored to once per slot ends as the
    stored values: slot [p] holds the value stored at [p], and the array is
    a rearrangement of the stored values. *)
Lemma store_all_once t ps vs :
  length ps = length vs ->
  Permutation ps (slots (Z.of_nat (length t))) ->
  (forall j, (j < length ps)%nat -> get (store_all t (combine ps vs)) (nth j ps 0) = nth j vs 0)
  /\ Permutation (store_all t (combine ps vs)) vs.
Proof.
  intros Hlen Hperm.
  assert (Hnd : NoDup ps).
  { eapply Permutation_NoDup; [symmetry; exact Hperm |].
    unfold slots. apply NoDup_map_NoDup_ForallPairs; [| apply seq_NoDup].
    intros a b _ _ H. lia. }
  assert (Hrange : forall p, In p ps -> 0 <= p < Z.of_nat (length t)).
  { intros p Hp. apply (Permutation_in _ Hperm) in Hp. unfold slots in Hp.
    apply in_map_iff in Hp. destruct Hp as (j & <- & Hj). apply in_seq in Hj. lia. }
  assert (Hget : forall j, (j < length ps)%nat ->
                   get (store_all t (combine ps vs)) (nth j ps 0) = nth j vs 0).
  { intros j Hj. apply store_all_get.
    - now rewrite combine_fst.
    - rewrite <- (combine_nth ps vs j 0 0 Hlen). apply nth_In.
      rewrite length_combine. lia.
    - apply Hrange, nth_In, Hj. }
  split; [exact Hget |].
  set (T := store_all t (combine ps vs)) in *.
  assert (HT : length T = length t) by apply store_all_length.
  rewrite (list_as_gets T), HT.
  transitivity (map (get T) ps).
  - apply Permutation_map. symmetry. exact Hperm.
  - replace (map (get T) ps) with vs; [reflexivity |].
    apply (nth_ext _ _ 0 (get T 0)); [now rewrite length_map |].
    intros j Hj. rewrite <- Hlen in Hj.
    rewrite map_nth. symmetry. apply Hget, Hj.
Qed.

(** ** The symbol table left by the spread loop *)

Lemma place_table step mask sym : forall n s s',
  place step mask sym n s = RET_OK s' ->
  exists ps,
    sp_written s' = sp_written s ++ ps
    /\ length ps = n
    /\ sp_table s' = store_all (sp_table s) (combine ps (repeat (to_uint16 sym) n)).
Proof.
  induction n as [| n IH]; intros s s' Hrun; cbn [place] in Hrun.
  - injection Hrun as <-. exists []. rewrite app_nil_r. auto.
  - destruct (reapply _ _ _ _) as [pos' |]; [| discriminate].
    apply IH in Hrun. cbn [sp_written sp_table] in Hrun.
    destruct Hrun as (ps & Hw & Hlen & Ht).
    exists (sp_pos s :: ps). rewrite Hw, <- app_assoc. split; [reflexivity |].
    split; [simpl; congruence |]. rewrite Ht. reflexivity.
Qed.

Lemma spread_symbols_length : forall freq sym,
  length (spread_symbols freq sym) = occurrences freq.
Proof.
  induction freq as [| f rest IH]; intros sym; [reflexivity |].
  cbn [spread_symbols occurrences fold_right]. rewrite length_app, repeat_length, IH.
  reflexivity.
Qed.

Lemma spread_table step mask : forall freq sym s s',
  spread step mask freq sym s = RET_OK s' ->
  exists ps,
    sp_written s' = sp_written s ++ ps
    /\ length ps = occurrences freq
    /\ sp_table s' = store_all (sp_table s) (combine ps (spread_symbols freq sym)).
Proof.
  induction freq as [| f rest IH]; intros sym s s' Hrun; cbn [spread] in Hrun.
  - injection Hrun as <-. exists []. rewrite app_nil_r. auto.
  - destruct (place step mask sym (Z.to_nat f) s) as [s1 | |] eqn:Hplace; try discriminate.
    apply place_table in Hplace. destruct Hplace as (ps1 & Hw1 & Hlen1 & Ht1).
    apply IH in Hrun. destruct Hrun as (ps2 & Hw2 & Hlen2 & Ht2).
    exists (ps1 ++ ps2). rewrite Hw2, Hw1, <- app_assoc. split; [reflexivity |].
    cbn [occurrences fold_right spread_symbols]. fold (occurrences rest).
    split; [rewrite length_app; lia |].
    rewrite combine_app_same by (now rewrite repeat_length).
    now rewrite store_all_app, <- Ht1.
Qed.

Lemma spread_symbols_range : forall freq sym y,
  0 <= sym -> sym + Z.of_nat (length freq) <= 2 ^ 16 ->
  In y (spread_symbols freq sym) -> sym <= y < sym + Z.of_nat (length freq).
Proof.
  induction freq as [| f rest IH]; intros sym y Hs Hb Hin; [contradiction |].
  cbn [spread_symbols] in Hin. cbn [length] in *. rewrite Nat2Z.inj_succ in *.
  apply in_app_or in Hin. destruct Hin as [Hin | Hin].
  - apply repeat_spec in Hin. subst y. unfold to_uint16. rewrite Z.mod_small; lia.
  - apply IH in Hin; lia.
Qed.

Lemma spread_symbols_count : forall freq sym (i : nat),
  0 <= sym -> sym + Z.of_nat (length freq) <= 2 ^ 16 ->
  (i < length freq)%nat ->
  count_occ Z.eq_dec (spread_symbols freq sym) (sym + Z.of_nat i) = Z.to_nat (nth i freq 0).
Proof.
  induction freq as [| f rest IH]; intros sym i Hs Hb Hi; [simpl in Hi; lia |].
  cbn [spread_symbols]. cbn [length] in *. rewrite Nat2Z.inj_succ in Hb.
  rewrite count_occ_app.
  assert (Hid : to_uint16 sym = sym) by (unfold to_uint16; rewrite Z.mod_small; lia).
  rewrite Hid.
  destruct i as [| i].
  - cbn [nth]. rewrite Z.add_0_r, count_occ_repeat_eq by reflexivity.
    rewrite (proj1 (count_occ_not_In Z.eq_dec _ _)); [lia |].
    intros Hin. apply spread_symbols_range in Hin; lia.
  - cbn [nth]. rewrite count_occ_repeat_neq by lia.
    replace (sym + Z.of_nat (S i)) with (sym + 1 + Z.of_nat i) by lia.
    rewrite IH by lia. reflexivity.
Qed.

(** What [FSECreateStatesForEncoding] leaves in [symbol_table] for a table
    whose counts sum to the table size. *)
Lemma create_symtable tl freq c0 s0 :
  0 <= tl <= 30 -> tl <> 1 -> tl <> 3 ->
  Forall (fun f => 0 <= f) freq ->
  sum_list freq = 2 ^ tl ->
  Z.of_nat (length s0) = 2 ^ tl ->
  exists tables,
    FSECreateStatesForEncoding freq tl c0 s0 = RET_OK tables
    /\ length (symtable tables) = Z.to_nat (2 ^ tl)
    /\ (forall j : nat, Z.of_nat j < 2 ^ tl ->
          get (symtable tables) (stride_slot (step_of tl) (2 ^ tl) j)
          = nth j (spread_symbols freq 0) 0)
    /\ Permutation (symtable tables) (spread_symbols freq 0).
Proof.
  intros Htl H1 H3 Hnn Hsum Hlen0.
  assert (Hpow : 0 < 2 ^ tl) by (apply Z.pow_pos_nonneg; lia).
  destruct (spread_final_pos tl freq s0 Htl Hnn) as (s & Hrun & Hp & Hw).
  assert (Hocc : occurrences freq = Z.to_nat (2 ^ tl)).
  { rewrite <- Hsum, <- occurrences_sum by exact Hnn. now rewrite Nat2Z.id. }
  assert (Hzero : sp_pos s = 0).
  { rewrite Hp, Hsum, Z.mul_comm. apply Z.mod_mul. lia. }
  destruct (spread_ok_create freq tl c0 s0 s Hrun Hzero) as (tables & Hc & Hsym & _).
  destruct (spread_table _ _ _ _ _ _ Hrun) as (ps & Hw' & Hlenps & Ht).
  cbn [spread_start sp_written sp_table app] in Hw', Ht.
  assert (Hps : ps = map (stride_slot (step_of tl) (2 ^ tl)) (seq 0 (Z.to_nat (2 ^ tl))))
    by (rewrite <- Hw', Hw, Hocc; reflexivity).
  destruct (store_all_once s0 ps (spread_symbols freq 0)) as [Hget Hperm].
  { now rewrite spread_symbols_length. }
  { rewrite Hlen0, Hps. apply stride_permutation; [lia | now apply step_of_odd]. }
  exists tables. split; [exact Hc |]. rewrite Hsym, Ht.
  split; [rewrite store_all_length; lia |]. split; [| exact Hperm].
  intros j Hj. rewrite <- Hget by lia.
  f_equal. rewrite Hps.
  rewrite (nth_indep _ 0 (stride_slot (step_of tl) (2 ^ tl) 0))
    by (rewrite length_map, length_seq; lia).
  rewrite map_nth, seq_nth by lia. reflexivity.
Qed.

(** ** The coding table *)

Lemma cumulate_length : forall freq acc, length (cumulate acc freq) = S (S (length freq)).
Proof.
  induction freq as [| f rest IH]; intros acc; [reflexivity |].
  cbn [cumulate length]. now rewrite IH.
Qed.

Lemma cumulate_nth : forall freq acc (s : nat),
  Forall (fun f => 0 <= f) freq ->
  0 <= acc -> acc + sum_list freq < 2 ^ 32 ->
  (s <= length freq)%nat ->
  nth s (cumulate acc freq) 0 = acc + sum_list (firstn s freq).
Proof.
  induction freq as [| f rest IH]; intros acc s Hnn Hacc Hb Hs.
  - simpl in Hs. assert (s = 0%nat) by lia. subst s. simpl. lia.
  - inversion Hnn as [| ? ? Hf Hrest]; subst.
    assert (H0 := sum_list_ge_0 rest Hrest).
    cbn [sum_list fold_right] in Hb. fold (sum_list rest) in Hb.
    destruct s as [| s]; cbn [cumulate nth firstn]; [simpl; lia |].
    cbn [length] in Hs.
    rewrite IH; try assumption.
    + cbn [sum_list fold_right]. fold (sum_list (firstn s rest)).
      rewrite to_uint32_id by lia. lia.
    + rewrite to_uint32_id by lia. lia.
    + rewrite to_uint32_id by lia. lia.
    + lia.
Qed.

Lemma firstn_succ_nth (l : list Z) : forall i,
  (i < length l)%nat -> firstn (S i) l = firstn i l ++ [nth i l 0].
Proof.
  induction l as [| a l IH]; intros i Hi; [simpl in Hi; lia |].
  destruct i; [reflexivity |].
  cbn [firstn nth app]. f_equal. apply IH. simpl in Hi. lia.
Qed.

Lemma count_occ_firstn_le (l : list Z) x : forall i,
  (count_occ Z.eq_dec (firstn i l) x <= count_occ Z.eq_dec l x)%nat.
Proof.
  intros i. rewrite <- (firstn_skipn i l) at 2. rewrite count_occ_app. lia.
Qed.

Lemma count_occ_firstn_mono (l : list Z) x : forall i j,
  (i <= j)%nat ->
  (count_occ Z.eq_dec (firstn i l) x <= count_occ Z.eq_dec (firstn j l) x)%nat.
Proof.
  intros i j Hij. replace (firstn i l) with (firstn i (firstn j l)).
  - apply count_occ_firstn_le.
  - rewrite firstn_firstn. f_equal. lia.
Qed.

(** The loop that fills [coding_table], after its first [k] turns. *)
Lemma fill_coding_steps ts freq T c0 : forall k,
  Forall (fun f => 0 <= f) freq ->
  Forall (fun y => 0 <= y < Z.of_nat (length freq)) T ->
  sum_list freq + Z.of_nat (length T) < 2 ^ 32 ->
  (k <= length T)%nat ->
  exists cf,
    fold_left (fill_coding ts T) (seq 0 k) (c0, cumulate 0 freq)
    = (store_all c0 (map (fun i => (coding_index freq T i, to_uint16 (ts + Z.of_nat i)))
                         (seq 0 k)), cf)
    /\ length cf = S (S (length freq))
    /\ forall s, 0 <= s < Z.of_nat (length freq) ->
         get cf s = cum freq s + Z.of_nat (count_occ Z.eq_dec (firstn k T) s).
Proof.
  intros k Hnn HT Hb. induction k as [| k IH]; intros Hk.
  - exists (cumulate 0 freq). split; [reflexivity |]. split; [apply cumulate_length |].
    intros s Hs. unfold get, cum. rewrite cumulate_nth by (try assumption; lia).
    simpl. lia.
  - destruct IH as (cf & Hrun & Hlen & Hcf); [lia |].
    rewrite seq_S, fold_left_app, Hrun. cbn [fold_left fill_coding Nat.add].
    rewrite get_of_nat.
    assert (Hsym : 0 <= nth k T 0 < Z.of_nat (length freq)).
    { rewrite Forall_forall in HT. apply HT, nth_In. lia. }
    rewrite (Hcf _ Hsym).
    eexists. split; [| split].
    + f_equal. rewrite map_app, store_all_app. reflexivity.
    + rewrite set_length. exact Hlen.
    + intros s Hs. rewrite firstn_succ_nth by lia. rewrite count_occ_app.
      destruct (Z.eq_dec (nth k T 0) s) as [E | E].
      * rewrite E in *. rewrite get_set_same by lia.
        cbn [count_occ]. destruct (Z.eq_dec s s); [| congruence].
        assert (Hc : 0 <= cum freq s <= sum_list freq)
          by (apply sum_list_firstn_bounds, Hnn).
        assert (Hle := count_occ_bound Z.eq_dec s (firstn k T)).
        rewrite length_firstn in Hle.
        rewrite to_uint32_id by lia. lia.
      * rewrite get_set_other by (try exact E; lia).
        rewrite Hcf by exact Hs.
        cbn [count_occ]. destruct (Z.eq_dec (nth k T 0) s); [congruence |]. lia.
Qed.

Lemma cum_succ freq s :
  0 <= s < Z.of_nat (length freq) ->
  cum freq (s + 1) = cum freq s + nth (Z.to_nat s) freq 0.
Proof.
  intros Hs. unfold cum. replace (Z.to_nat (s + 1)) with (S (Z.to_nat s)) by lia.
  rewrite firstn_succ_nth by lia. rewrite sum_list_app. simpl. lia.
Qed.

Lemma cum_mono freq s s' :
  Forall (fun f => 0 <= f) freq -> 0 <= s <= s' -> 0 <= cum freq s <= cum freq s'.
Proof. intros Hnn Hs. unfold cum. apply sum_list_firstn_mono; [exact Hnn | lia]. Qed.

Lemma cum_le_sum freq s :
  Forall (fun f => 0 <= f) freq -> 0 <= cum freq s <= sum_list freq.
Proof. intros Hnn. unfold cum. now apply sum_list_firstn_bounds. Qed.

Lemma rank_lt T (i : nat) :
  (i < length T)%nat ->
  0 <= rank T i < Z.of_nat (count_occ Z.eq_dec T (nth i T 0)).
Proof.
  intros Hi. unfold rank.
  assert (H := count_occ_firstn_mono T (nth i T 0) (S i) (length T) ltac:(lia)).
  rewrite firstn_all in H. rewrite firstn_succ_nth, count_occ_app in H by exact Hi.
  cbn [count_occ] in H. destruct (Z.eq_dec (nth i T 0) (nth i T 0)); [lia | congruence].
Qed.

Lemma rank_increasing T (i j : nat) :
  (i < j)%nat -> (j < length T)%nat -> nth i T 0 = nth j T 0 -> rank T i < rank T j.
Proof.
  intros Hij Hj Heq. unfold rank. rewrite <- Heq.
  assert (H := count_occ_firstn_mono T (nth i T 0) (S i) j ltac:(lia)).
  rewrite firstn_succ_nth, count_occ_app in H by lia.
  cbn [count_occ] in H. destruct (Z.eq_dec (nth i T 0) (nth i T 0)); [lia | congruence].
Qed.

Section CodingIndex.
Variables freq T : list Z.
Hypothesis freq_nonneg : Forall (fun f => 0 <= f) freq.
Hypothesis symbols_valid : Forall (fun y => 0 <= y < Z.of_nat (length freq)) T.
Hypothesis symbol_counts :
  forall s, 0 <= s < Z.of_nat (length freq) ->
    Z.of_nat (count_occ Z.eq_dec T s) = nth (Z.to_nat s) freq 0.

Lemma symbol_at (i : nat) :
  (i < length T)%nat -> 0 <= nth i T 0 < Z.of_nat (length freq).
Proof. intros Hi. rewrite Forall_forall in symbols_valid. apply symbols_valid, nth_In, Hi. Qed.

(** The state of a slot lands in the segment of the slot's symbol. *)
Lemma coding_index_segment (i : nat) :
  (i < length T)%nat ->
  cum freq (nth i T 0) <= coding_index freq T i < cum freq (nth i T 0 + 1).
Proof.
  intros Hi. unfold coding_index.
  pose proof (symbol_at i Hi) as Hs. pose proof (rank_lt T i Hi) as Hr.
  rewrite symbol_counts in Hr by exact Hs. rewrite cum_succ by exact Hs. lia.
Qed.

Lemma coding_index_range (i : nat) :
  (i < length T)%nat -> 0 <= coding_index freq T i < sum_list freq.
Proof.
  intros Hi. pose proof (coding_index_segment i Hi) as Hseg.
  pose proof (symbol_at i Hi) as Hs.
  pose proof (cum_le_sum freq (nth i T 0) freq_nonneg).
  pose proof (cum_le_sum freq (nth i T 0 + 1) freq_nonneg). lia.
Qed.

Lemma coding_index_inj (i j : nat) :
  (i < length T)%nat -> (j < length T)%nat ->
  coding_index freq T i = coding_index freq T j -> i = j.
Proof.
  intros Hi Hj Heq.
  pose proof (coding_index_segment i Hi) as Si. pose proof (coding_index_segment j Hj) as Sj.
  pose proof (symbol_at i Hi) as Vi. pose proof (symbol_at j Hj) as Vj.
  destruct (Z.lt_trichotomy (nth i T 0) (nth j T 0)) as [Hlt | [Hsame | Hgt]].
  - pose proof (cum_mono freq (nth i T 0 + 1) (nth j T 0) freq_nonneg ltac:(lia)). lia.
  - unfold coding_index in Heq. rewrite Hsame in Heq.
    destruct (Nat.lt_trichotomy i j) as [H | [H | H]]; [| exact H |].
    + pose proof (rank_increasing T i j H Hj Hsame). lia.
    + pose proof (rank_increasing T j i H Hi (eq_sym Hsame)). lia.
  - pose proof (cum_mono freq (nth j T 0 + 1) (nth i T 0) freq_nonneg ltac:(lia)). lia.
Qed.

Lemma coding_index_permutation :
  sum_list freq = Z.of_nat (length T) ->
  Permutation (map (coding_index freq T) (seq 0 (length T))) (slots (Z.of_nat (length T))).
Proof.
  intros Hsum. apply NoDup_Permutation_bis.
  - apply NoDup_map_NoDup_ForallPairs; [| apply seq_NoDup].
    intros i j Hi Hj Heq. apply in_seq in Hi, Hj. apply coding_index_inj; [lia | lia | exact Heq].
  - unfold slots. rewrite !length_map, !length_seq. lia.
  - intros v Hv. apply in_map_iff in Hv. destruct Hv as (i & <- & Hi). apply in_seq in Hi.
    pose proof (coding_index_range i ltac:(lia)) as Hr.
    unfold slots. apply in_map_iff. exists (Z.to_nat (coding_index freq T i)).
    split; [lia |]. apply in_seq. lia.
Qed.
End CodingIndex.

Lemma create_ok_coding freq tl coding0 symbol0 tables :
  FSECreateStatesForEncoding freq tl coding0 symbol0 = RET_OK tables ->
  coding_table tables
  = fst (fold_left (fill_coding (tablesize_of tl) (symtable tables))
                   (seq 0 (Z.to_nat (tablesize_of tl))) (coding0, cumulate 0 freq)).
Proof.
  unfold FSECreateStatesForEncoding.
  destruct (spread _ _ _ _ _) as [s | |]; try discriminate.
  destruct (negb (sp_pos s =? 0)); try discriminate.
  destruct (fold_left _ _ _) as [coding cf] eqn:E.
  destruct (deltas tl freq 0) as [dbc ds].
  intros H. injection H as <-. cbn [coding_table symtable]. now rewrite E.
Qed.

(** The symbols of the table left by the spread are the indices of
    [frequency], each as often as its count says. *)
Lemma symtable_counts tl freq c0 s0 :
  0 <= tl <= 30 -> tl <> 1 -> tl <> 3 ->
  Forall (fun f => 0 <= f) freq ->
  sum_list freq = 2 ^ tl ->
  Z.of_nat (length freq) <= 2 ^ 16 ->
  Z.of_nat (length s0) = 2 ^ tl ->
  exists tables,
    FSECreateStatesForEncoding freq tl c0 s0 = RET_OK tables
    /\ length (symtable tables) = Z.to_nat (2 ^ tl)
    /\ Forall (fun y => 0 <= y < Z.of_nat (length freq)) (symtable tables)
    /\ forall s, 0 <= s < Z.of_nat (length freq) ->
         Z.of_nat (count_occ Z.eq_dec (symtable tables) s) = nth (Z.to_nat s) freq 0.
Proof.
  intros Htl H1 H3 Hnn Hsum Hn Hlen0.
  destruct (create_symtable tl freq c0 s0 Htl H1 H3 Hnn Hsum Hlen0)
    as (tables & Hrun & Hlen & _ & Hperm).
  exists tables. split; [exact Hrun |]. split; [exact Hlen |]. split.
  - apply Forall_forall. intros y Hy. apply (Permutation_in _ Hperm) in Hy.
    apply spread_symbols_range in Hy; lia.
  - intros s Hs.
    rewrite (proj1 (Permutation_count_occ Z.eq_dec _ _) Hperm s).
    replace s with (0 + Z.of_nat (Z.to_nat s)) at 1 by lia.
    rewrite spread_symbols_count by lia.
    rewrite Forall_forall in Hnn.
    assert (0 <= nth (Z.to_nat s) freq 0) by (apply Hnn, nth_In; lia). lia.
Qed.

(** X6: for a table size [2^table_log] whose stride is odd, non-negative
    counts that sum to the table size and two tables of that many slots,
    [FSECreateStatesForEncoding] succeeds and leaves in slot
    [(j * step) mod 2^table_log] the [j]-th value of the sequence "count of
    symbol 0 copies of 0, count of symbol 1 copies of 1, ...": the symbol
    table is a rearrangement of that sequence and keeps nothing of its
    previous content. *)
Theorem FSECreateStatesForEncoding_symbol_table :
  forall (table_log : Z) (freq coding_table0 symbol_table0 : list Z),
    0 <= table_log <= 30 -> table_log <> 1 -> table_log <> 3 ->
    Forall (fun f => 0 <= f) freq ->
    sum_list freq = 2 ^ table_log ->
    Z.of_nat (length symbol_table0) = 2 ^ table_log ->
    Z.of_nat (length coding_table0) = 2 ^ table_log ->
    exists tables,
      FSECreateStatesForEncoding freq table_log coding_table0 symbol_table0 = RET_OK tables
      /\ length (symtable tables) = length symbol_table0
      /\ (forall j : nat, Z.of_nat j < 2 ^ table_log ->
            get (symtable tables) ((Z.of_nat j * step_of table_log) mod 2 ^ table_log)
            = nth j (spread_symbols freq 0) 0)
      /\ Permutation (symtable tables) (spread_symbols freq 0).
Proof.
  intros tl freq c0 s0 Htl H1 H3 Hnn Hsum Hlen0 _.
  destruct (create_symtable tl freq c0 s0 Htl H1 H3 Hnn Hsum Hlen0)
    as (tables & Hrun & Hlen & Hget & Hperm).
  exists tables. split; [exact Hrun |]. split; [lia |]. split; [exact Hget | exact Hperm].
Qed.

Lemma FSECreateStatesForEncoding_symbol_table_witness :
  exists tables,
    FSECreateStatesForEncoding [8; 5; 3] 4 (repeat 0 16%nat) (repeat 7 16%nat) = RET_OK tables
    /\ length (symtable tables) = 16%nat
    /\ (forall j : nat, Z.of_nat j < 2 ^ 4 ->
          get (symtable tables) ((Z.of_nat j * step_of 4) mod 2 ^ 4)
          = nth j (spread_symbols [8; 5; 3] 0) 0)
    /\ Permutation (symtable tables) (spread_symbols [8; 5; 3] 0).
Proof.
  apply (FSECreateStatesForEncoding_symbol_table 4 [8; 5; 3] (repeat 0 16%nat) (repeat 7 16%nat)).
  - lia.
  - lia.
  - lia.
  - repeat constructor; lia.
  - reflexivity.
  - reflexivity.
  - reflexivity.
Defined.

(** X7: under the same conditions and with at most [2^16] symbols (the
    symbol table holds [uint16_t]), every slot of the symbol table holds an
    index of [frequency], and symbol [s] occupies exactly [frequency[s]]
    slots. *)
Theorem FSECreateStatesForEncoding_symbol_counts :
  forall (table_log : Z) (freq coding_table0 symbol_table0 : list Z),
    0 <= table_log <= 30 -> table_log <> 1 -> table_log <> 3 ->
    Forall (fun f => 0 <= f) freq ->
    sum_list freq = 2 ^ table_log ->
    Z.of_nat (length freq) <= 2 ^ 16 ->
    Z.of_nat (length symbol_table0) = 2 ^ table_log ->
    Z.of_nat (length coding_table0) = 2 ^ table_log ->
    exists tables,
      FSECreateStatesForEncoding freq table_log coding_table0 symbol_table0 = RET_OK tables
      /\ Forall (fun y => 0 <= y < Z.of_nat (length freq)) (symtable tables)
      /\ forall s : nat, (s < length freq)%nat ->
           Z.of_nat (count_occ Z.eq_dec (symtable tables) (Z.of_nat s)) = nth s freq 0.
Proof.
  intros tl freq c0 s0 Htl H1 H3 Hnn Hsum Hn Hlen0 _.
  destruct (symtable_counts tl freq c0 s0 Htl H1 H3 Hnn Hsum Hn Hlen0)
    as (tables & Hrun & _ & Hvalid & Hcount).
  exists tables. split; [exact Hrun |]. split; [exact Hvalid |].
  intros s Hs. rewrite Hcount by lia. now rewrite Nat2Z.id.
Qed.

Lemma FSECreateStatesForEncoding_symbol_counts_witness :
  exists tables,
    FSECreateStatesForEncoding [8; 5; 3] 4 (repeat 0 16%nat) (repeat 7 16%nat) = RET_OK tables
    /\ Forall (fun y => 0 <= y < 3) (symtable tables)
    /\ forall s : nat, (s < 3)%nat ->
         Z.of_nat (count_occ Z.eq_dec (symtable tables) (Z.of_nat s)) = nth s [8; 5; 3] 0.
Proof.
  apply (FSECreateStatesForEncoding_symbol_counts 4 [8; 5; 3] (repeat 0 16%nat) (repeat 7 16%nat)).
  - lia.
  - lia.
  - lia.
  - repeat constructor; lia.
  - reflexivity.
  - simpl. lia.
  - reflexivity.
  - reflexivity.
Defined.

(** X8: under the same conditions and with a coding table of
    [2^table_log] entries, the state [2^table_log + i] of slot [i] (as a
    [uint16_t]) is stored at index [cum s + r] of [coding_table], where [s]
    is the symbol of slot [i], [cum s] the sum of the counts of the symbols
    below [s] and [r < frequency[s]] the number of lower slots that hold
    [s]: symbol [s] owns the segment [[cum s, cum s + frequency[s])], filled
    in ascending slot order, and the coding table is a rearrangement of all
    the states. *)
Theorem FSECreateStatesForEncoding_coding_table :
  forall (table_log : Z) (freq coding_table0 symbol_table0 : list Z),
    0 <= table_log <= 30 -> table_log <> 1 -> table_log <> 3 ->
    Forall (fun f => 0 <= f) freq ->
    sum_list freq = 2 ^ table_log ->
    Z.of_nat (length freq) <= 2 ^ 16 ->
    Z.of_nat (length symbol_table0) = 2 ^ table_log ->
    Z.of_nat (length coding_table0) = 2 ^ table_log ->
    exists tables,
      FSECreateStatesForEncoding freq table_log coding_table0 symbol_table0 = RET_OK tables
      /\ (forall i : nat, Z.of_nat i < 2 ^ table_log ->
            let s := nth i (symtable tables) 0 in
            let r := rank (symtable tables) i in
            0 <= r < nth (Z.to_nat s) freq 0
            /\ get (coding_table tables) (cum freq s + r)
               = to_uint16 (2 ^ table_log + Z.of_nat i))
      /\ Permutation (coding_table tables)
           (map (fun i => to_uint16 (2 ^ table_log + Z.of_nat i))
                (seq 0 (Z.to_nat (2 ^ table_log)))).
Proof.
  intros tl freq c0 s0 Htl H1 H3 Hnn Hsum Hn Hlen0 Hlenc.
  assert (Hpow : 0 < 2 ^ tl) by (apply Z.pow_pos_nonneg; lia).
  assert (Hpow' : 2 ^ tl <= 2 ^ 30) by (apply Z.pow_le_mono_r; lia).
  destruct (symtable_counts tl freq c0 s0 Htl H1 H3 Hnn Hsum Hn Hlen0)
    as (tables & Hrun & Hlen & Hvalid & Hcount).
  exists tables. split; [exact Hrun |].
  pose proof (create_ok_coding _ _ _ _ _ Hrun) as Hcoding.
  rewrite tablesize_of_pow2 in Hcoding by exact Htl.
  set (T := symtable tables) in *.
  destruct (fill_coding_steps (2 ^ tl) freq T c0 (Z.to_nat (2 ^ tl)) Hnn Hvalid)
    as (cf & Hfold & _); [rewrite Hlen; lia | lia |].
  rewrite Hfold in Hcoding. cbn [fst] in Hcoding.
  set (ps := map (coding_index freq T) (seq 0 (Z.to_nat (2 ^ tl)))).
  set (vs := map (fun i => to_uint16 (2 ^ tl + Z.of_nat i)) (seq 0 (Z.to_nat (2 ^ tl)))).
  assert (Hcomb : map (fun i => (coding_index freq T i, to_uint16 (2 ^ tl + Z.of_nat i)))
                      (seq 0 (Z.to_nat (2 ^ tl))) = combine ps vs).
  { unfold ps, vs. generalize (seq 0 (Z.to_nat (2 ^ tl))).
    intros l. induction l as [| a l IH]; [reflexivity |]. cbn [map combine]. now rewrite IH. }
  rewrite Hcomb in Hcoding.
  destruct (store_all_once c0 ps vs) as [Hget Hperm].
  { unfold ps, vs. now rewrite !length_map. }
  { unfold ps. rewrite Hlenc, <- Hlen, <- (Z2Nat.id (2 ^ tl)), <- Hlen by lia.
    apply coding_index_permutation; try assumption. lia. }
  rewrite Hcoding. split; [| exact Hperm].
  intros i Hi s r.
  assert (Hil : (i < length T)%nat) by lia.
  pose proof (rank_lt T i Hil) as Hr.
  assert (Hs : 0 <= s < Z.of_nat (length freq)).
  { rewrite Forall_forall in Hvalid. apply Hvalid, nth_In, Hil. }
  fold s in Hr. rewrite (Hcount s Hs) in Hr. split; [exact Hr |].
  assert (Hlps : length ps = Z.to_nat (2 ^ tl))
    by (unfold ps; now rewrite length_map, length_seq).
  assert (Hps : nth i ps 0 = cum freq s + r).
  { unfold ps. rewrite (nth_indep _ 0 (coding_index freq T 0))
      by (rewrite length_map, length_seq; lia).
    rewrite map_nth, seq_nth by lia. reflexivity. }
  assert (Hvs : nth i vs 0 = to_uint16 (2 ^ tl + Z.of_nat i)).
  { unfold vs. rewrite (nth_indep _ 0 (to_uint16 (2 ^ tl + Z.of_nat 0)))
      by (rewrite length_map, length_seq; lia).
    rewrite (map_nth (fun i => to_uint16 (2 ^ tl + Z.of_nat i))), seq_nth by lia.
    reflexivity. }
  rewrite <- Hps, Hget by lia. exact Hvs.
Qed.

Lemma FSECreateStatesForEncoding_coding_table_witness :
  exists tables,
    FSECreateStatesForEncoding [8; 5; 3] 4 (repeat 0 16%nat) (repeat 7 16%nat) = RET_OK tables
    /\ (forall i : nat, Z.of_nat i < 2 ^ 4 ->
          let s := nth i (symtable tables) 0 in
          let r := rank (symtable tables) i in
          0 <= r < nth (Z.to_nat s) [8; 5; 3] 0
          /\ get (coding_table tables) (cum [8; 5; 3] s + r) = to_uint16 (2 ^ 4 + Z.of_nat i))
    /\ Permutation (coding_table tables)
         (map (fun i => to_uint16 (2 ^ 4 + Z.of_nat i)) (seq 0 (Z.to_nat (2 ^ 4)))).
Proof.
  apply (FSECreateStatesForEncoding_coding_table 4 [8; 5; 3] (repeat 0 16%nat) (repeat 7 16%nat)).
  - lia.
  - lia.
  - lia.
  - repeat constructor; lia.
  - reflexivity.
  - simpl. lia.
  - reflexivity.
  - reflexivity.
Defined.

(** X9: for [table_log] 1 and 3 the stride [(size >> 1) + (size >> 3) + 3]
    is a multiple of the table size (4 for 2 slots, 8 for 8 slots), so [pos]
    never leaves 0.  Called as [FSEEncode] calls it, on zero-filled tables,
    with non-negative counts that sum to the table size, the function passes
    its test [pos != 0] and returns [RET_OK], yet every symbol was stored at
    slot 0: all other slots of the symbol table still hold 0, whatever the
    counts say. *)
Theorem FSECreateStatesForEncoding_even_stride :
  forall (table_log : Z) (freq : list Z),
    table_log = 1 \/ table_log = 3 ->
    Forall (fun f => 0 <= f) freq ->
    sum_list freq = 2 ^ table_log ->
    let zeros := repeat 0 (Z.to_nat (to_int32 (Z.shiftl 1 table_log))) in
    exists tables,
      FSECreateStatesForEncoding freq table_log zeros zeros = RET_OK tables
      /\ length (symtable tables) = Z.to_nat (2 ^ table_log)
      /\ forall p, 1 <= p -> get (symtable tables) p = 0.
Proof.
  intros tl freq Htl Hnn _ zeros.
  assert (Hr : 0 <= tl <= 30) by lia.
  assert (Hstep : exists c, step_of tl = c * 2 ^ tl).
  { destruct Htl as [-> | ->]; [exists 2 | exists 1]; reflexivity. }
  destruct Hstep as [c Hstep].
  assert (Hpow : 0 < 2 ^ tl) by (apply Z.pow_pos_nonneg; lia).
  assert (Hz : zeros = repeat 0 (Z.to_nat (2 ^ tl))).
  { unfold zeros. destruct Htl as [-> | ->]; reflexivity. }
  destruct (spread_final_pos tl freq zeros Hr Hnn) as (s & Hrun & Hp & Hw).
  assert (Hzero : sp_pos s = 0).
  { rewrite Hp, Hstep, Z.mul_assoc. apply Z.mod_mul. lia. }
  destruct (spread_ok_create freq tl zeros zeros s Hrun Hzero) as (tables & Hc & Hsym & _).
  destruct (spread_table _ _ _ _ _ _ Hrun) as (ps & Hw' & Hlenps & Ht).
  cbn [spread_start sp_written sp_table app] in Hw', Ht.
  exists tables. split; [exact Hc |]. rewrite Hsym, Ht.
  split; [rewrite store_all_length, Hz; apply repeat_length |].
  intros p Hp1. rewrite store_all_untouched; [| lia |].
  - rewrite Hz. unfold get. apply nth_repeat.
  - rewrite combine_fst by (now rewrite spread_symbols_length).
    rewrite <- Hw', Hw. intros Hin. apply in_map_iff in Hin. destruct Hin as (j & Hj & _).
    unfold stride_slot in Hj. rewrite Hstep, Z.mul_assoc, Z.mod_mul in Hj by lia. lia.
Qed.

Lemma FSECreateStatesForEncoding_even_stride_witness :
  exists tables,
    FSECreateStatesForEncoding [4; 3; 1] 3 (repeat 0 8%nat) (repeat 0 8%nat) = RET_OK tables
    /\ length (symtable tables) = 8%nat
    /\ forall p, 1 <= p -> get (symtable tables) p = 0.
Proof.
  apply (FSECreateStatesForEncoding_even_stride 3 [4; 3; 1]).
  - now right.
  - repeat constructor; lia.
  - reflexivity.
Defined.

(** ** SerializingToBuffer for any budget *)

Lemma run_fields_failed_prefix max_size : forall fs s t,
  run_fields max_size fs s = Failed t ->
  exists k : nat,
    (k < length fs)%nat
    /\ t = ser_stores s ++ lay_out (ser_offset s) (firstn k fs)
    /\ max_size < ser_offset s + total_width (firstn (S k) fs)
    /\ (k = 0%nat \/ ser_offset s + total_width (firstn k fs) <= max_size).
Proof.
  induction fs as [| [w v] fs IH]; intros s t Hrun; [discriminate |].
  cbn [run_fields] in Hrun. unfold checked_put in Hrun.
  destruct (ser_offset s + w >? max_size) eqn:E; cbn [ser_bind] in Hrun.
  - injection Hrun as <-. exists 0%nat. cbn [firstn lay_out length total_width fold_right fst].
    rewrite app_nil_r. apply Z.gtb_lt in E.
    split; [lia |]. split; [reflexivity |]. split; [lia | now left].
  - rewrite Z.gtb_ltb in E. apply Z.ltb_ge in E.
    apply IH in Hrun. destruct Hrun as (k & Hk & Ht & Hover & Hfit).
    cbn [put ser_offset ser_stores] in Ht, Hover, Hfit.
    exists (S k). cbn [length]. split; [lia |].
    split; [rewrite Ht, <- app_assoc; reflexivity |].
    change (firstn (S (S k)) ((w, v) :: fs)) with ((w, v) :: firstn (S k) fs).
    change (firstn (S k) ((w, v) :: fs)) with ((w, v) :: firstn k fs).
    cbn [total_width fold_right fst]. fold (total_width (firstn (S k) fs)).
    fold (total_width (firstn k fs)).
    split; [lia |]. right. destruct Hfit as [-> | Hfit]; [simpl; lia | lia].
Qed.

(** X10: the serialized form needs [R] bytes, and [R] is the threshold of
    [SerializingToBuffer] for every budget: from [R] bytes on the call
    succeeds with [*out_size = R] and the same stores; below [R] it returns
    an error after storing the first [k] fields of the layout and nothing
    else, where field [k] is the first one to cross the budget (the first
    field, stored before any guard, apart). *)
Theorem SerializingToBuffer_budget_threshold :
  forall (bs : FSEBitStream.t) (q : FSEQuant) (table_log max_size : Z),
    let R := required_size bs q table_log in
    let fields := layout bs q table_log in
    (R <= max_size ->
     SerializingToBuffer bs q table_log max_size = Ser_OK R (lay_out 0 fields))
    /\ (max_size < R ->
        exists k : nat,
          (1 <= k)%nat
          /\ (k < length fields)%nat
          /\ SerializingToBuffer bs q table_log max_size
             = Ser_ERROR (lay_out 0 (firstn k fields))
          /\ max_size < total_width (firstn (S k) fields)
          /\ (k = 1%nat \/ total_width (firstn k fields) <= max_size)).
Proof.
  intros bs q tlog max_size R fields. subst R fields. split.
  - apply SerializingToBuffer_fits.
  - intros Hlt.
    rewrite SerializingToBuffer_run, required_size_split in *.
    pose proof (layout_split bs q tlog) as Hsplit.
    pose proof (tl_fields_widths bs q tlog) as Hw'.
    set (fields := layout bs q tlog) in *.
    set (s1 := put 2 (to_uint16 (size q)) {| ser_offset := 0; ser_stores := [] |}).
    destruct (run_fields_overflow max_size (tl_fields fields) s1 Hw') as [t Hfail].
    { discriminate. }
    { cbn [s1 put ser_offset]. lia. }
    rewrite Hfail.
    apply run_fields_failed_prefix in Hfail.
    destruct Hfail as (k & Hk & Ht & Hover & Hfit).
    cbn [s1 put ser_offset ser_stores app] in Ht, Hover, Hfit.
    exists (S k). rewrite Hsplit. cbn [length]. split; [lia |]. split; [lia |].
    change (firstn (S (S k)) ((2, to_uint16 (size q)) :: tl_fields fields))
      with ((2, to_uint16 (size q)) :: firstn (S k) (tl_fields fields)).
    change (firstn (S k) ((2, to_uint16 (size q)) :: tl_fields fields))
      with ((2, to_uint16 (size q)) :: firstn k (tl_fields fields)).
    cbn [lay_out total_width fold_right fst].
    fold (total_width (firstn (S k) (tl_fields fields))).
    fold (total_width (firstn k (tl_fields fields))).
    split; [rewrite Ht; reflexivity |]. split; [lia |].
    destruct Hfit as [-> | Hfit]; [now left | right; lia].
Qed.

Lemma SerializingToBuffer_budget_threshold_witness :
  exists k : nat,
    (1 <= k)%nat
    /\ (k < length (layout {| FSEBitStream.chunks := [5%Z]; FSEBitStream.curr_chunk := 7%Z;
                             FSEBitStream.curr_bit_count := 3%Z |}
                          {| symbol_table := []; frequency := [16%Z; 10%Z; 6%Z];
                             centroids := [1%Z; 2%Z; 3%Z] |} 5%Z))%nat
    /\ SerializingToBuffer
         {| FSEBitStream.chunks := [5]; FSEBitStream.curr_chunk := 7;
            FSEBitStream.curr_bit_count := 3 |}
         {| symbol_table := []; frequency := [16; 10; 6]; centroids := [1; 2; 3] |} 5 30
       = Ser_ERROR
           (lay_out 0
              (firstn k (layout {| FSEBitStream.chunks := [5]; FSEBitStream.curr_chunk := 7;
                                   FSEBitStream.curr_bit_count := 3 |}
                                {| symbol_table := []; frequency := [16; 10; 6];
                                   centroids := [1; 2; 3] |} 5)))
    /\ 30 < total_width
              (firstn (S k) (layout {| FSEBitStream.chunks := [5]; FSEBitStream.curr_chunk := 7;
                                       FSEBitStream.curr_bit_count := 3 |}
                                    {| symbol_table := []; frequency := [16; 10; 6];
                                       centroids := [1; 2; 3] |} 5))
    /\ (k = 1%nat
        \/ total_width
             (firstn k (layout {| FSEBitStream.chunks := [5]; FSEBitStream.curr_chunk := 7;
                                  FSEBitStream.curr_bit_count := 3 |}
                               {| symbol_table := []; frequency := [16; 10; 6];
                                  centroids := [1; 2; 3] |} 5)) <= 30).
Proof.
  apply (proj2 (SerializingToBuffer_budget_threshold
                  {| FSEBitStream.chunks := [5]; FSEBitStream.curr_chunk := 7;
                     FSEBitStream.curr_bit_count := 3 |}
                  {| symbol_table := []; frequency := [16; 10; 6]; centroids := [1; 2; 3] |}
                  5 30)).
  vm_compute. reflexivity.
Defined.

(** ** The payload of SerializingToTensor *)

Lemma le_value_le_bytes : forall (w : nat) v, le_value (le_bytes w v) = v mod 256 ^ Z.of_nat w.
Proof.
  induction w as [| w IH]; intros v.
  - simpl. now rewrite Z.mod_1_r.
  - cbn [le_bytes le_value fold_right]. fold (le_value (le_bytes w (v / 256))).
    rewrite IH, Nat2Z.inj_succ, Z.pow_succ_r by lia.
    rewrite Z.rem_mul_r; [reflexivity | lia | apply Z.pow_pos_nonneg; lia].
Qed.

Lemma le_bytes_range : forall (w : nat) v, Forall (fun b => 0 <= b < 256) (le_bytes w v).
Proof.
  induction w as [| w IH]; intros v; cbn [le_bytes]; constructor; [| apply IH].
  apply Z.mod_pos_bound. lia.
Qed.

Lemma field_bytes_range fs : Forall (fun b => 0 <= b < 256) (field_bytes fs).
Proof.
  unfold field_bytes. induction fs as [| f fs IH]; cbn [map concat]; [constructor |].
  apply Forall_app. split; [apply le_bytes_range | exact IH].
Qed.

Lemma field_bytes_app a b : field_bytes (a ++ b) = field_bytes a ++ field_bytes b.
Proof. unfold field_bytes. now rewrite map_app, concat_app. Qed.

Lemma read_field a w v b :
  Forall (fun f => 0 <= fst f) a -> 0 <= w ->
  read_le (field_bytes (a ++ (w, v) :: b)) (total_width a) w = v mod 256 ^ w.
Proof.
  intros Ha Hw. unfold read_le.
  assert (Hlen : length (field_bytes a) = Z.to_nat (total_width a)).
  { apply Nat2Z.inj. rewrite field_bytes_length by exact Ha.
    rewrite Z2Nat.id; [reflexivity | now apply total_width_nonneg]. }
  rewrite field_bytes_app, skipn_app, <- Hlen, skipn_all, Nat.sub_diag.
  cbn [app skipn].
  change (field_bytes ((w, v) :: b)) with (le_bytes (Z.to_nat w) v ++ field_bytes b).
  rewrite firstn_app, le_bytes_length, Nat.sub_diag, firstn_O, app_nil_r.
  rewrite firstn_all2 by (rewrite le_bytes_length; lia).
  rewrite le_value_le_bytes, Z2Nat.id by exact Hw. reflexivity.
Qed.

Lemma read_mapped (A : Type) (g : A -> Z) (d : A) pre w l post (j : nat) :
  Forall (fun f => 0 <= fst f) pre -> 0 <= w -> (j < length l)%nat ->
  read_le (field_bytes (pre ++ map (fun x => (w, g x)) l ++ post))
          (total_width pre + w * Z.of_nat j) w
  = g (nth j l d) mod 256 ^ w.
Proof.
  intros Hpre Hw Hj.
  rewrite <- (firstn_skipn j l) at 1.
  assert (Hsk : skipn j l = nth j l d :: skipn (S j) l).
  { clear - Hj. revert j Hj. induction l as [| a l IH]; intros j Hj; [simpl in Hj; lia |].
    destruct j; [reflexivity |]. cbn [skipn nth]. apply IH. simpl in Hj. lia. }
  rewrite Hsk, map_app. cbn [map]. rewrite <- app_assoc. cbn [app]. rewrite app_assoc.
  replace (total_width pre + w * Z.of_nat j)
    with (total_width (pre ++ map (fun x => (w, g x)) (firstn j l))).
  - apply read_field; [| exact Hw].
    apply Forall_app. split; [exact Hpre |].
    apply Forall_forall. intros f Hf. apply in_map_iff in Hf. destruct Hf as (x & <- & _).
    exact Hw.
  - rewrite total_width_app, total_width_map, length_firstn. f_equal. f_equal. lia.
Qed.

Lemma zero_fill_widths offset : Forall (fun f => 0 <= fst f) (zero_fill offset).
Proof.
  unfold zero_fill. apply Forall_forall. intros f Hf. apply repeat_spec in Hf. subst f.
  simpl. lia.
Qed.

(** The two runs of padding take 4 bytes each when the number of symbols is
    odd and none when it is even. *)
Lemma layout_segments bs q table_log :
  exists pad1 pad2,
    layout bs q table_log
    = header_fields bs q table_log ++ frequency_fields q ++ pad1
      ++ centroid_fields q ++ pad2 ++ chunk_fields bs ++ trailer_fields bs
    /\ total_width pad1 = 4 * (size q mod 2)
    /\ total_width pad2 = 4 * (size q mod 2)
    /\ Forall (fun f => 0 <= fst f) pad1
    /\ Forall (fun f => 0 <= fst f) pad2.
Proof.
  pose proof (Z.mod_pos_bound (size q) 2 ltac:(lia)) as Hb.
  exists (zero_fill (8 + 4 * size q)).
  exists (zero_fill (8 + 4 * size q + total_width (zero_fill (8 + 4 * size q)) + 4 * size q)).
  split; [apply layout_explicit |].
  assert (H1 : total_width (zero_fill (8 + 4 * size q)) = 4 * (size q mod 2)).
  { rewrite total_width_zero_fill, padding_quad. lia. }
  split; [exact H1 |]. split; [| split; apply zero_fill_widths].
  rewrite H1.
  replace (8 + 4 * size q + 4 * (size q mod 2) + 4 * size q)
    with (8 + 4 * (2 * size q + size q mod 2)) by lia.
  rewrite total_width_zero_fill, padding_quad.
  replace ((2 * size q + size q mod 2) mod 2) with (size q mod 2).
  2:{ rewrite Z.add_comm, Z.mul_comm, Z.mod_add by lia. now rewrite Z.mod_mod by lia. }
  lia.
Qed.

Lemma frequency_fields_widths q : Forall (fun f => 0 <= fst f) (frequency_fields q).
Proof.
  unfold frequency_fields. apply Forall_forall. intros f Hf. apply in_map_iff in Hf.
  destruct Hf as (x & <- & _). simpl. lia.
Qed.

Lemma centroid_fields_widths q : Forall (fun f => 0 <= fst f) (centroid_fields q).
Proof.
  unfold centroid_fields. apply Forall_forall. intros f Hf. apply in_map_iff in Hf.
  destruct Hf as (x & <- & _). simpl. lia.
Qed.

Lemma chunk_fields_widths bs : Forall (fun f => 0 <= fst f) (chunk_fields bs).
Proof.
  unfold chunk_fields. apply Forall_forall. intros f Hf. apply in_map_iff in Hf.
  destruct Hf as (x & <- & _). simpl. lia.
Qed.

Lemma header_fields_widths bs q table_log :
  Forall (fun f => 0 <= fst f) (header_fields bs q table_log).
Proof. unfold header_fields. repeat constructor; simpl; lia. Qed.

Lemma to_uint8_mod x : to_uint8 x mod 256 ^ 1 = to_uint8 x.
Proof. unfold to_uint8. change (256 ^ 1) with (2 ^ 8). apply Z.mod_mod. lia. Qed.

Lemma to_uint16_mod x : to_uint16 x mod 256 ^ 2 = to_uint16 x.
Proof. unfold to_uint16. change (256 ^ 2) with (2 ^ 16). apply Z.mod_mod. lia. Qed.

Lemma to_uint32_mod x : to_uint32 x mod 256 ^ 4 = to_uint32 x.
Proof. unfold to_uint32. change (256 ^ 4) with (2 ^ 32). apply Z.mod_mod. lia. Qed.

Lemma to_uint64_mod x : to_uint64 x mod 256 ^ 8 = to_uint64 x.
Proof. unfold to_uint64. change (256 ^ 8) with (2 ^ 64). apply Z.mod_mod. lia. Qed.

(** Every field of the serialized form, read back from the bytes at its
    absolute offset. *)
Lemma layout_read_back bs q table_log :
  let n := size q in
  let body := 8 + 8 * (n + n mod 2) in
  let m := Z.of_nat (length (FSEBitStream.GetChunks bs)) in
  let payload := field_bytes (layout bs q table_log) in
  Z.of_nat (length payload) = body + 8 * m + 9
  /\ read_le payload 0 2 = to_uint16 n
  /\ read_le payload 2 2 = to_uint16 table_log
  /\ read_le payload 4 4 = to_uint32 (to_int32 (FSEBitStream.GetCurrChunkIndex bs + 2))
  /\ (forall j : nat, (j < length (frequency q))%nat ->
        read_le payload (8 + 4 * Z.of_nat j) 4 = to_uint32 (nth j (frequency q) 0))
  /\ (forall j : nat, Z.of_nat j < n ->
        read_le payload (8 + 4 * (n + n mod 2) + 4 * Z.of_nat j) 4
        = to_uint32 (get (centroids q) (Z.of_nat j)))
  /\ (forall j : nat, (j < length (FSEBitStream.GetChunks bs))%nat ->
        read_le payload (body + 8 * Z.of_nat j) 8
        = to_uint64 (nth j (FSEBitStream.GetChunks bs) 0))
  /\ read_le payload (body + 8 * m) 8 = to_uint64 (FSEBitStream.GetCurrChunk bs)
  /\ read_le payload (body + 8 * m + 8) 1 = to_uint8 (FSEBitStream.GetCurrBitCount bs).
Proof.
  intros n body m payload.
  pose proof (Z.mod_pos_bound n 2 ltac:(lia)) as Hb.
  assert (Hn : size q = n) by reflexivity.
  destruct (layout_segments bs q table_log) as (pad1 & pad2 & Hlay & Hp1 & Hp2 & Hw1 & Hw2).
  rewrite Hn in Hp1, Hp2.
  pose proof (header_fields_widths bs q table_log) as HwH.
  pose proof (frequency_fields_widths q) as HwF.
  pose proof (centroid_fields_widths q) as HwC.
  pose proof (chunk_fields_widths bs) as HwK.
  assert (HtH : total_width (header_fields bs q table_log) = 8) by reflexivity.
  assert (HtF : total_width (frequency_fields q) = 4 * n).
  { unfold frequency_fields. now rewrite total_width_map. }
  assert (HtC : total_width (centroid_fields q) = 4 * n).
  { unfold centroid_fields. rewrite total_width_map, length_seq. unfold n, size.
    now rewrite Nat2Z.id. }
  assert (HtK : total_width (chunk_fields bs) = 8 * m).
  { unfold chunk_fields. now rewrite total_width_map. }
  unfold payload. rewrite Hlay. clear Hlay payload.
  set (H := header_fields bs q table_log) in *.
  set (F := frequency_fields q) in *.
  set (C := centroid_fields q) in *.
  set (K := chunk_fields bs) in *.
  split.
  { rewrite field_bytes_length by (repeat (apply Forall_app; split); try assumption;
                                  unfold trailer_fields; repeat constructor; simpl; lia).
    rewrite !total_width_app, HtH, HtF, HtC, HtK, Hp1, Hp2.
    change (total_width (trailer_fields bs)) with 9. unfold body. lia. }
  split.
  { rewrite <- to_uint16_mod.
    apply (read_field [] 2 (to_uint16 n)); [constructor | lia]. }
  split.
  { rewrite <- to_uint16_mod.
    apply (read_field [(2, to_uint16 n)] 2 (to_uint16 table_log));
      [repeat constructor; simpl; lia | lia]. }
  split.
  { rewrite <- to_uint32_mod.
    apply (read_field [(2, to_uint16 n); (2, to_uint16 table_log)] 4);
      [repeat constructor; simpl; lia | lia]. }
  split.
  { intros j Hj. rewrite <- to_uint32_mod, <- HtH.
    unfold F, frequency_fields.
    apply (read_mapped Z to_uint32 0 H 4 (frequency q)); [exact HwH | lia | exact Hj]. }
  split.
  { intros j Hj.
    replace (8 + 4 * (n + n mod 2) + 4 * Z.of_nat j)
      with (total_width (H ++ F ++ pad1) + 4 * Z.of_nat j)
      by (rewrite !total_width_app, HtH, HtF, Hp1; lia).
    rewrite (app_assoc F), (app_assoc H). unfold C, centroid_fields.
    rewrite (read_mapped nat (fun j => to_uint32 (get (centroids q) (Z.of_nat j))) 0%nat
               (H ++ F ++ pad1) 4 (seq 0 (Z.to_nat (size q)))).
    - rewrite seq_nth by lia. apply to_uint32_mod.
    - repeat (apply Forall_app; split); assumption.
    - lia.
    - rewrite length_seq. lia. }
  assert (Hpre : total_width (H ++ F ++ pad1 ++ C ++ pad2) = body).
  { rewrite !total_width_app, HtH, HtF, HtC, Hp1, Hp2. unfold body. lia. }
  assert (Hwpre : Forall (fun f => 0 <= fst f) (H ++ F ++ pad1 ++ C ++ pad2)).
  { repeat (apply Forall_app; split); assumption. }
  assert (Hassoc : forall rest,
            H ++ F ++ pad1 ++ C ++ pad2 ++ rest = (H ++ F ++ pad1 ++ C ++ pad2) ++ rest).
  { intros rest. now rewrite <- !app_assoc. }
  rewrite Hassoc. revert Hpre Hwpre. generalize (H ++ F ++ pad1 ++ C ++ pad2).
  intros pre Hpre Hwpre.
  split.
  { intros j Hj. rewrite <- to_uint64_mod, <- Hpre. unfold K, chunk_fields.
    apply (read_mapped Z to_uint64 0 pre 8 (FSEBitStream.GetChunks bs));
      [exact Hwpre | lia | exact Hj]. }
  split.
  { rewrite <- to_uint64_mod.
    replace (body + 8 * m) with (total_width (pre ++ K))
      by (rewrite total_width_app, HtK; lia).
    rewrite app_assoc. unfold trailer_fields.
    apply read_field; [apply Forall_app; split; assumption | lia]. }
  { rewrite <- to_uint8_mod.
    replace (body + 8 * m + 8)
      with (total_width ((pre ++ K) ++ [(8, to_uint64 (FSEBitStream.GetCurrChunk bs))]))
      by (rewrite !total_width_app, HtK; simpl; lia).
    unfold trailer_fields.
    replace (pre ++ K ++ [(8, to_uint64 (FSEBitStream.GetCurrChunk bs));
                          (1, to_uint8 (FSEBitStream.GetCurrBitCount bs))])
      with (((pre ++ K) ++ [(8, to_uint64 (FSEBitStream.GetCurrChunk bs))])
            ++ [(1, to_uint8 (FSEBitStream.GetCurrBitCount bs))])
      by (now rewrite <- !app_assoc).
    apply read_field; [| lia].
    repeat (apply Forall_app; split); try assumption. repeat constructor; simpl; lia. }
Qed.

(** X11: for a block [out8] of [max_size] bytes, [SerializingToTensor]
    returns [RET_OK] when the serialized size [R] fits the tensor and the
    tensor is not above [kMaxModelBufferSize]; it returns [RET_ERROR] for an
    empty tensor, for one above [kMaxModelBufferSize] and for one of at least
    2 bytes that [R] does not fit (with a single byte the first store of
    [SerializingToBuffer] runs past the block).  The payload handed over on
    success has [R] bytes, each in [[0, 255]], and is the same whatever
    [out8] held before. *)
Theorem SerializingToTensor_threshold :
  forall (max_size : Z) (out8 : list Z) (bs : FSEBitStream.t) (q : FSEQuant) (table_log : Z),
    length out8 = Z.to_nat max_size ->
    let R := required_size bs q table_log in
    let payload := field_bytes (layout bs q table_log) in
    (R <= max_size <= kMaxModelBufferSize ->
     SerializingToTensor max_size out8 bs q table_log = RET_OK payload)
    /\ (max_size = 0 \/ 2 <= max_size < R \/ kMaxModelBufferSize < max_size ->
        SerializingToTensor max_size out8 bs q table_log = RET_ERROR)
    /\ Z.of_nat (length payload) = R
    /\ Forall (fun b => 0 <= b < 256) payload.
Proof.
  intros max_size out8 bs q tlog Hlen R payload.
  assert (HR : Z.of_nat (length payload) = R).
  { unfold payload, R, required_size. apply field_bytes_length, layout_widths. }
  assert (Hpos : 0 < R).
  { rewrite <- HR. unfold payload.
    rewrite (proj1 (layout_read_back bs q tlog)).
    pose proof (Z.mod_pos_bound (size q) 2 ltac:(lia)).
    assert (0 <= size q) by (unfold size; lia). lia. }
  rewrite (SerializingToTensor_bytes max_size out8 bs q tlog Hlen). fold R payload.
  split; [| split; [| split; [exact HR | apply field_bytes_range]]].
  - intros [Hfit Hmax].
    replace (max_size =? 0) with false by (symmetry; apply Z.eqb_neq; lia).
    replace (max_size >? kMaxModelBufferSize) with false
      by (symmetry; rewrite Z.gtb_ltb; apply Z.ltb_ge; lia).
    replace (R <=? max_size) with true by (symmetry; apply Z.leb_le; lia).
    reflexivity.
  - intros Hbad.
    destruct ((max_size =? 0) || (max_size >? kMaxModelBufferSize)) eqn:G; [reflexivity |].
    apply orb_false_iff in G. destruct G as [G0 G].
    apply Z.eqb_neq in G0. rewrite Z.gtb_ltb in G. apply Z.ltb_ge in G.
    replace (R <=? max_size) with false by (symmetry; apply Z.leb_gt; lia).
    reflexivity.
Qed.

Lemma SerializingToTensor_threshold_witness :
  SerializingToTensor 40 (repeat 170 40%nat)
    {| FSEBitStream.chunks := [5]; FSEBitStream.curr_chunk := 7;
       FSEBitStream.curr_bit_count := 3 |}
    {| symbol_table := []; frequency := [16; 10; 6]; centroids := [1; 2; 3] |} 5
  = RET_ERROR.
Proof.
  apply (SerializingToTensor_threshold 40 (repeat 170 40%nat)
           {| FSEBitStream.chunks := [5]; FSEBitStream.curr_chunk := 7;
              FSEBitStream.curr_bit_count := 3 |}
           {| symbol_table := []; frequency := [16; 10; 6]; centroids := [1; 2; 3] |} 5).
  - reflexivity.
  - right. left. vm_compute. split; [discriminate | reflexivity].
Defined.

(** X12: in the payload of a successful [SerializingToTensor] every
    field sits at a fixed byte offset and reads back, little-endian, as the
    value stored: the symbol count at 0, [table_log] at 2, the chunk index
    plus 2 at 4, frequency [j] at [8 + 4j], centroid [j] at
    [8 + 4(n + n mod 2) + 4j], chunk [j] at [8 + 8(n + n mod 2) + 8j], then
    the current chunk and, in the last byte, the current bit count. *)
Theorem SerializingToTensor_payload_fields :
  forall (max_size : Z) (out8 : list Z) (bs : FSEBitStream.t) (q : FSEQuant)
         (table_log : Z) (payload : list Z),
    length out8 = Z.to_nat max_size ->
    SerializingToTensor max_size out8 bs q table_log = RET_OK payload ->
    let n := size q in
    let body := 8 + 8 * (n + n mod 2) in
    let m := Z.of_nat (length (FSEBitStream.GetChunks bs)) in
    Z.of_nat (length payload) = body + 8 * m + 9
    /\ read_le payload 0 2 = to_uint16 n
    /\ read_le payload 2 2 = to_uint16 table_log
    /\ read_le payload 4 4 = to_uint32 (to_int32 (FSEBitStream.GetCurrChunkIndex bs + 2))
    /\ (forall j : nat, (j < length (frequency q))%nat ->
          read_le payload (8 + 4 * Z.of_nat j) 4 = to_uint32 (nth j (frequency q) 0))
    /\ (forall j : nat, Z.of_nat j < n ->
          read_le payload (8 + 4 * (n + n mod 2) + 4 * Z.of_nat j) 4
          = to_uint32 (get (centroids q) (Z.of_nat j)))
    /\ (forall j : nat, (j < length (FSEBitStream.GetChunks bs))%nat ->
          read_le payload (body + 8 * Z.of_nat j) 8
          = to_uint64 (nth j (FSEBitStream.GetChunks bs) 0))
    /\ read_le payload (body + 8 * m) 8 = to_uint64 (FSEBitStream.GetCurrChunk bs)
    /\ read_le payload (body + 8 * m + 8) 1 = to_uint8 (FSEBitStream.GetCurrBitCount bs).
Proof.
  intros max_size out8 bs q tlog payload Hlen Hrun.
  rewrite (SerializingToTensor_bytes max_size out8 bs q tlog Hlen) in Hrun.
  destruct ((max_size =? 0) || (max_size >? kMaxModelBufferSize)); [discriminate |].
  destruct (required_size bs q tlog <=? max_size); [| discriminate].
  injection Hrun as <-. apply layout_read_back.
Qed.

Lemma SerializingToTensor_payload_fields_witness :
  read_le [3; 0; 5; 0; 2; 0; 0; 0; 16; 0; 0; 0; 10; 0; 0; 0; 6; 0; 0; 0; 0; 0; 0; 0;
           1; 0; 0; 0; 2; 0; 0; 0; 3; 0; 0; 0; 0; 0; 0; 0;
           5; 0; 0; 0; 0; 0; 0; 0; 7; 0; 0; 0; 0; 0; 0; 0; 3] 2 2 = to_uint16 5.
Proof.
  apply (SerializingToTensor_payload_fields 64 (repeat 170 64%nat)
           {| FSEBitStream.chunks := [5]; FSEBitStream.curr_chunk := 7;
              FSEBitStream.curr_bit_count := 3 |}
           {| symbol_table := []; frequency := [16; 10; 6]; centroids := [1; 2; 3] |} 5).
  - reflexivity.
  - vm_compute. reflexivity.
Defined.

(** X13: under the conditions of [NormalizeFrequency] and for a block of
    [max_size] bytes, the payload of a successful [Compress] carries what a
    decoder needs to rebuild the tables: the symbol count, the [table_log]
    computed by [NormalizeFrequency], the normalised counts (the very table
    [NormalizeFrequency] returns: all at least 1, summing to [2^table_log])
    and the centroids as handed in. *)
Theorem Compress_payload_carries_tables :
  forall (MAX_SYMS MAX_TABLE_LOG : Z) (q : FSEQuant) (max_size : Z)
         (out8 payload : list Z),
    0 <= MAX_TABLE_LOG <= 16 ->
    MAX_SYMS <= 2 ^ MAX_TABLE_LOG ->
    size q <= MAX_SYMS ->
    Forall (fun f => 0 <= f < 2 ^ 32) (frequency q) ->
    0 < sum_list (frequency q) < 2 ^ 31 ->
    length out8 = Z.to_nat max_size ->
    Compress MAX_SYMS MAX_TABLE_LOG q max_size out8 = RET_OK payload ->
    let n := size q in
    let table_log := table_log_of MAX_TABLE_LOG q in
    let decoded :=
      map (fun j => read_le payload (8 + 4 * Z.of_nat j) 4) (seq 0 (Z.to_nat n)) in
    read_le payload 0 2 = to_uint16 n
    /\ read_le payload 2 2 = table_log
    /\ NormalizeFrequency MAX_SYMS MAX_TABLE_LOG q
       = RET_OK ({| symbol_table := symbol_table q;
                    frequency := decoded;
                    centroids := centroids q |}, table_log)
    /\ Forall (fun f => 1 <= f) decoded
    /\ sum_list decoded = 2 ^ table_log
    /\ (forall j : nat, Z.of_nat j < n ->
          read_le payload (8 + 4 * (n + n mod 2) + 4 * Z.of_nat j) 4
          = to_uint32 (get (centroids q) (Z.of_nat j))).
Proof.
  intros MS MTL q max_size out8 payload Hmtl Hms Hsize Hentries Hsum Hlen Hrun
         n table_log decoded.
  destruct (table_log_facts MS MTL Hmtl Hms q Hsize) as (_ & Htl & _ & _ & Ht).
  destruct (NormalizeFrequency_adjust MS MTL Hmtl Hms q Hsize Hentries Hsum)
    as (Hnorm & Hall & Hs & Hlena).
  set (adjusted := adjust_to (target_of MTL q) (rescaled MTL q)) in *.
  fold table_log in Htl, Hnorm. unfold target_of in Ht, Hs. fold table_log in Ht, Hs.
  unfold Compress in Hrun. rewrite Hnorm in Hrun.
  set (q' := {| symbol_table := symbol_table q; frequency := adjusted;
                centroids := centroids q |}) in *.
  destruct (FSEBitStream.Create _) as [bs0 | |]; try discriminate.
  destruct (FSEEncode _ _ _ _) as [bs' | |]; try discriminate.
  rewrite (SerializingToTensor_bytes max_size out8 _ q' table_log Hlen) in Hrun.
  destruct ((max_size =? 0) || (max_size >? kMaxModelBufferSize)); [discriminate |].
  destruct (required_size _ q' table_log <=? max_size); [| discriminate].
  injection Hrun as Hpay.
  destruct (layout_read_back (FSEBitStream.Flush bs') q' table_log)
    as (_ & Hr0 & Hr2 & _ & Hfreq & Hcen & _).
  rewrite Hpay in Hr0, Hr2, Hfreq, Hcen.
  assert (Hn : size q' = n) by (unfold size, n, q'; cbn [frequency]; now rewrite Hlena).
  rewrite Hn in Hr0, Hcen. cbn [q' frequency centroids] in Hfreq, Hcen.
  assert (Hsmall : Forall (fun f => 0 <= f < 2 ^ 32) adjusted).
  { apply Forall_forall. intros x Hx.
    pose proof (sum_list_bound adjusted x Hall Hx) as Hle.
    rewrite Forall_forall in Hall. specialize (Hall x Hx). lia. }
  assert (Hdec : decoded = adjusted).
  { unfold decoded, n, size. rewrite Nat2Z.id, <- Hlena.
    rewrite <- (map_id adjusted) at 2.
    rewrite <- (map_nth_seq Z (fun x => x) adjusted).
    apply map_ext_in. intros j Hj. apply in_seq in Hj.
    rewrite Hfreq by lia. apply to_uint32_id.
    rewrite Forall_forall in Hsmall. apply Hsmall, nth_In. lia. }
  rewrite Hdec.
  split; [exact Hr0 |].
  split; [rewrite Hr2; unfold to_uint16; apply Z.mod_small; lia |].
  split; [exact Hnorm |]. split; [exact Hall |]. split; [exact Hs | exact Hcen].
Qed.

Lemma Compress_payload_carries_tables_witness :
  read_le [3; 0; 5; 0; 2; 0; 0; 0; 16; 0; 0; 0; 10; 0; 0; 0; 6; 0; 0; 0; 0; 0; 0; 0;
           1; 0; 0; 0; 2; 0; 0; 0; 3; 0; 0; 0; 0; 0; 0; 0;
           0; 0; 0; 0; 0; 0; 30; 33; 0; 0; 0; 0; 0; 0; 0; 0; 0] 2 2
  = table_log_of 16 {| symbol_table := [0; 1; 0; 2; 0; 0; 1; 1; 2; 0]; frequency := [5; 3; 2];
                       centroids := [1; 2; 3] |}.
Proof.
  apply (Compress_payload_carries_tables 65534 16
           {| symbol_table := [0; 1; 0; 2; 0; 0; 1; 1; 2; 0]; frequency := [5; 3; 2];
              centroids := [1; 2; 3] |} 64 (repeat 170 64%nat)).
  - lia.
  - lia.
  - unfold size. cbn [frequency length]. lia.
  - cbn [frequency]. repeat constructor; lia.
  - cbn [frequency sum_list fold_right]. lia.
  - reflexivity.
  - vm_compute. reflexivity.
Defined.

(** ** Tables of [2^16] slots *)

(** A table of non-negative counts that sum to the table size passes the
    test after the spread for every [table_log]. *)
Lemma create_normalised tl freq c0 s0 :
  0 <= tl <= 30 ->
  Forall (fun f => 0 <= f) freq ->
  sum_list freq = 2 ^ tl ->
  exists tables,
    FSECreateStatesForEncoding freq tl c0 s0 = RET_OK tables
    /\ delta_bit_count tables = fst (deltas tl freq 0)
    /\ delta_state tables = snd (deltas tl freq 0).
Proof.
  intros Htl Hnn Hsum.
  assert (Hpow : 0 < 2 ^ tl) by (apply Z.pow_pos_nonneg; lia).
  destruct (spread_final_pos tl freq s0 Htl Hnn) as (s & Hrun & Hp & _).
  assert (Hzero : sp_pos s = 0).
  { rewrite Hp, Hsum, Z.mul_comm. apply Z.mod_mul. lia. }
  destruct (spread_ok_create freq tl c0 s0 s Hrun Hzero) as (tables & Hc & _ & Hd & Hs).
  exists tables. auto.
Qed.

Lemma eights_normalised :
  Forall (fun f => 1 <= f <= 2 ^ 16) (repeat 8 (Z.to_nat 8192))
  /\ sum_list (repeat 8 (Z.to_nat 8192)) = 2 ^ 16.
Proof.
  split; [| vm_compute; reflexivity].
  apply Forall_forall. intros f Hf. apply repeat_spec in Hf. subst f. lia.
Qed.

Lemma repeat_prefix_sum v : forall (n k : nat),
  (k <= n)%nat -> sum_list (firstn k (repeat v n)) = v * Z.of_nat k.
Proof.
  induction n as [| n IH]; intros k Hk.
  - assert (k = 0%nat) by lia. subst k. simpl. lia.
  - destruct k as [| k]; [simpl; lia |].
    cbn [repeat firstn sum_list fold_right]. fold (sum_list (firstn k (repeat v n))).
    rewrite IH by lia. lia.
Qed.

Lemma repeat_nth v : forall (n k : nat), (k < n)%nat -> nth k (repeat v n) 0 = v.
Proof.
  induction n as [| n IH]; intros k Hk; [lia |].
  destruct k as [| k]; [reflexivity |]. cbn [repeat nth]. apply IH. lia.
Qed.

(** The delta entries of symbol [sym] in the table of 8192 symbols of count
    8 at [table_log = 16]. *)
Lemma eights_deltas (sym : nat) :
  (sym < Z.to_nat 8192)%nat ->
  let freq := repeat 8 (Z.to_nat 8192) in
  nth sym (fst (deltas 16 freq 0)) 0 = 786432
  /\ nth sym (snd (deltas 16 freq 0)) 0 = to_int16 (8 * Z.of_nat sym - 8).
Proof.
  intros Hsym freq.
  destruct eights_normalised as [Hall Hsum]. fold freq in Hall, Hsum.
  assert (Hlen : length freq = Z.to_nat 8192) by (unfold freq; now rewrite repeat_length).
  destruct (deltas_nth 16 freq 0 sym ltac:(lia) Hall ltac:(lia)
              ltac:(rewrite Hsum; vm_compute; reflexivity) ltac:(lia)) as [H1 H2].
  assert (Hf : nth sym freq 0 = 8).
  { unfold freq. apply repeat_nth. lia. }
  assert (Ht : sum_list (firstn sym freq) = 8 * Z.of_nat sym).
  { unfold freq. apply repeat_prefix_sum. lia. }
  rewrite Hf, Ht, Z.add_0_l in H1, H2.
  destruct (delta_entry_ge_2 16 8 (8 * Z.of_nat sym)) as [He _]; try lia.
  rewrite He in H1, H2. cbn [fst snd] in H1, H2.
  split; [rewrite H1; vm_compute; reflexivity | exact H2].
Qed.

(** At [table_log = 16] the claim C3 fails: [table_size] is 65536 and does
    not fit the [uint16_t] state, which starts at 0.  On the normalised table
    of 8192 symbols of count 8, the priming transition of [FSEEncode] on
    symbol 0 takes 12 bits and reads [coding_table] at index -8, where the
    transition from [table_size] takes 13 bits and reads index 0. *)
Lemma FSEEncode_table_log_16_primes_from_state_0 :
  let freq := repeat 8 (Z.to_nat 8192) in
  let table_size := to_int32 (Z.shiftl 1 16) in
  let zeros := repeat 0 (Z.to_nat table_size) in
  exists tables,
    FSECreateStatesForEncoding freq 16 zeros zeros = RET_OK tables
    /\ table_size = 65536
    /\ FSEEncode FSEBitStream.empty [0] freq 16
       = RET_OK
           (push_all FSEBitStream.empty
              (fst (transitions tables [0]
                      (snd (FSEEncodeSymbolGetNewState FSEBitStream.empty 0 0 tables)))
               ++ [(snd (transitions tables [0]
                           (snd (FSEEncodeSymbolGetNewState FSEBitStream.empty 0 0 tables)))
                    - table_size, 16)]))
    /\ bits_out_of tables 0 0 = 12
    /\ read_index tables 0 0 = -8
    /\ bits_out_of tables 0 table_size = 13
    /\ read_index tables 0 table_size = 0.
Proof.
  intros freq table_size zeros.
  destruct eights_normalised as [Hall Hsum]. fold freq in Hall, Hsum.
  assert (Hnn : Forall (fun f => 0 <= f) freq).
  { eapply Forall_impl; [| exact Hall]. simpl. intros; lia. }
  destruct (create_normalised 16 freq zeros zeros ltac:(lia) Hnn Hsum)
    as (tables & Hc & Hdbc & Hds).
  destruct (eights_deltas 0 ltac:(lia)) as [Hd0 Hs0]. fold freq in Hd0, Hs0.
  exists tables. split; [exact Hc |]. split; [reflexivity |].
  split.
  { pose proof (FSEEncode_run FSEBitStream.empty [0] freq 16 tables) as Hrun.
    cbv zeta in Hrun. specialize (Hrun Hc).
    change (to_uint16 (to_int32 (Z.shiftl 1 16))) with 0 in Hrun.
    change (get [0] 0) with 0 in Hrun. exact Hrun. }
  unfold read_index, bits_out_of, get. rewrite Hdbc, Hds.
  change (Z.to_nat 0) with 0%nat. rewrite Hd0, Hs0.
  split; [reflexivity |]. split; [reflexivity |]. split; reflexivity.
Qed.

(** At [table_log = 16] the claim C6 fails: on the normalised table of 8192
    symbols of count 8 the running total before symbol 4097 is 32776, so the
    claim gives [delta_state[4097] = 32768]; the [int16_t] entry holds
    -32768. *)
Lemma delta_state_wraps_at_table_log_16 :
  let freq := repeat 8 (Z.to_nat 8192) in
  let zeros := repeat 0 (Z.to_nat (2 ^ 16)) in
  exists tables,
    FSECreateStatesForEncoding freq 16 zeros zeros = RET_OK tables
    /\ Forall (fun f => 1 <= f) freq
    /\ sum_list freq = 2 ^ 16
    /\ nth 4097 freq 0 = 8
    /\ sum_list (firstn 4097 freq) - nth 4097 freq 0 = 32768
    /\ nth 4097 (delta_state tables) 0 = -32768.
Proof.
  intros freq zeros.
  destruct eights_normalised as [Hall Hsum]. fold freq in Hall, Hsum.
  assert (Hnn : Forall (fun f => 0 <= f) freq).
  { eapply Forall_impl; [| exact Hall]. simpl. intros; lia. }
  destruct (create_normalised 16 freq zeros zeros ltac:(lia) Hnn Hsum)
    as (tables & Hc & _ & Hds).
  destruct (eights_deltas 4097 ltac:(lia)) as [_ Hs]. fold freq in Hs.
  exists tables. split; [exact Hc |].
  split; [eapply Forall_impl; [| exact Hall]; simpl; intros; lia |].
  split; [exact Hsum |].
  split; [vm_compute; reflexivity |]. split; [vm_compute; reflexivity |].
  rewrite Hds, Hs. reflexivity.
Qed.
